(** * beat-gen TUI: sample edits, filter chain, player, waveform, catalog,
      session, screens

    A shallow embedding of [tui/services/session.py] (the [SampleEdits]
    dataclass, its dictionaries, the edits of a [Session]),
    [tui/services/player.py] ([build_filter_chain] and the [Player] class),
    [tui/services/waveform.py] ([get_waveform], [render_waveform]),
    [tui/services/samples.py] ([SampleManager]),
    [tui/services/beatgen.py] (the reader of the progress lines),
    [tui/app.py] (the playback workers, [action_quit], the mix
    configuration) and of the
    state and the keys of [tui/screens/sound_design.py] and
    [tui/screens/mixer.py].

    Conventions of the embedding.
    - Python [float] values are modelled by exact rationals ([Q]); Python
      [int] values by [Z]; [==], [<] and [>] on numbers are [Qeq_bool] and
      the comparisons below.  Rounding of binary floating point is outside
      the model.
    - Python [str] is [string] (bytes; the file names of interest are ASCII).
    - The external programs ([afplay], [ffmpeg]), the file system and the
      event loop are an environment that answers every interaction of the
      code with them. *)

From Stdlib Require Import ZArith QArith Qminmax Qround Lqa Lia Sorted.
From Stdlib Require Import Strings.String Strings.Ascii Strings.Byte.
From stdpp Require Import base option list gmap strings pretty.

Local Open Scope Z_scope.
Local Open Scope string_scope.
Local Open Scope list_scope.

(** ** Python numbers *)

(** [a < b] on floats. *)
Definition Qltb (a b : Q) : bool := negb (Qle_bool b a).

(** [max(a, b)]: the first argument unless the second is strictly greater. *)
Definition py_max (a b : Q) : Q := if Qltb a b then b else a.

(** [min(a, b)]: the first argument unless the second is strictly smaller. *)
Definition py_min (a b : Q) : Q := if Qltb b a then b else a.

(** ** session.py: [SampleEdits] *)

Record SampleEdits := {
  attack_ms : Q;       (* fade-in (0-2000ms) *)
  release_ms : Q;      (* fade-out (0-2000ms) *)
  gain_db : Q;         (* volume (-24 to +12 dB) *)
  normalize : bool;    (* peak normalize to 0dB *)
  hp_freq : Z;         (* high-pass cutoff (20-5000 Hz) *)
  lp_freq : Z;         (* low-pass cutoff (200-20000 Hz) *)
  reverse : bool;
  trim_start_ms : Q;   (* trim from start (ms) *)
  trim_end_ms : Q      (* trim from end (ms) *)
}.

(** [SampleEdits()]: every field at its declared default. *)
Definition SampleEdits_new : SampleEdits :=
  {| attack_ms := 0; release_ms := 0; gain_db := 0; normalize := false;
     hp_freq := 20; lp_freq := 20000; reverse := false;
     trim_start_ms := 0; trim_end_ms := 0 |}.

(** The dataclass-generated [__eq__]: field by field, in declaration order. *)
Definition SampleEdits_eq (a b : SampleEdits) : bool :=
  Qeq_bool (attack_ms a) (attack_ms b)
  && Qeq_bool (release_ms a) (release_ms b)
  && Qeq_bool (gain_db a) (gain_db b)
  && Bool.eqb (normalize a) (normalize b)
  && Z.eqb (hp_freq a) (hp_freq b)
  && Z.eqb (lp_freq a) (lp_freq b)
  && Bool.eqb (reverse a) (reverse b)
  && Qeq_bool (trim_start_ms a) (trim_start_ms b)
  && Qeq_bool (trim_end_ms a) (trim_end_ms b).

Definition is_default (self : SampleEdits) : bool :=
  let default := SampleEdits_new in
  SampleEdits_eq self default.

(** ** player.py: [build_filter_chain] *)

(** The value of the Python expression [2 ** (num / den)], kept symbolic. *)
Inductive rate_factor := pow2 (num den : Z).

(** One element of the Python list [filters]: an ffmpeg audio filter with
    the values interpolated into its f-string. *)
Inductive audio_filter :=
  | atrim (start_ms end_ms : Q)        (* atrim=start_ms={}:end_ms={} *)
  | asetpts                            (* asetpts=PTS-STARTPTS *)
  | areverse                           (* areverse *)
  | afade_in (d : Q)                   (* afade=t=in:d={:.3f} *)
  | afade_out (st d : Q)               (* afade=t=out:st={:.3f}:d={:.3f} *)
  | volume (dB : Q)                    (* volume={}dB *)
  | highpass (f : Z)                   (* highpass=f={} *)
  | lowpass (f : Z)                    (* lowpass=f={} *)
  | dynaudnorm                         (* dynaudnorm *)
  | asetrate (base : Z) (k : rate_factor)  (* asetrate=44100*{} *)
  | aresample (rate : Z).              (* aresample=44100 *)

(** How Python prints the numbers it interpolates.  [str] of a float, the
    [.3f] format and the text of [2 ** (n / 12)] depend on binary floating
    point, so they are parameters of the development. *)
Class NumberFormat := {
  fmt_float : Q -> string;          (* f"{x}" *)
  fmt_3f : Q -> string;             (* f"{x:.3f}" *)
  fmt_rate : rate_factor -> string  (* f"{rate_factor}" *)
}.

Section FilterChain.
Context `{NumberFormat}.

Definition filter_text (f : audio_filter) : string :=
  match f with
  | atrim s e => "atrim=start_ms=" ++ fmt_float s ++ ":end_ms=" ++ fmt_float e
  | asetpts => "asetpts=PTS-STARTPTS"
  | areverse => "areverse"
  | afade_in d => "afade=t=in:d=" ++ fmt_3f d
  | afade_out st d => "afade=t=out:st=" ++ fmt_3f st ++ ":d=" ++ fmt_3f d
  | volume g => "volume=" ++ fmt_float g ++ "dB"
  | highpass f => "highpass=f=" ++ pretty f
  | lowpass f => "lowpass=f=" ++ pretty f
  | dynaudnorm => "dynaudnorm"
  | asetrate b k => "asetrate=" ++ pretty b ++ "*" ++ fmt_rate k
  | aresample r => "aresample=" ++ pretty r
  end.

(** [",".join(filters)] *)
Definition join_filters (filters : list audio_filter) : string :=
  String.concat "," (map filter_text filters).
End FilterChain.

(** The list [filters] that [build_filter_chain] has built when it reaches
    its [return]. *)
Definition chain_filters (edits : SampleEdits) (duration_ms : Q) : list audio_filter :=
  let filters := [] in
  (* 1. Trim *)
  let filters :=
    if Qltb 0 (trim_start_ms edits) || Qltb 0 (trim_end_ms edits) then
      let end_ms := (duration_ms - trim_end_ms edits)%Q in
      let end_ms :=
        if Qltb end_ms (trim_start_ms edits)
        then (trim_start_ms edits + 50)%Q   (* prevent zero-length *)
        else end_ms in
      (filters ++ [atrim (trim_start_ms edits) end_ms]) ++ [asetpts]
    else filters in
  (* 2. Reverse *)
  let filters := if reverse edits then filters ++ [areverse] else filters in
  (* 3. Envelope (attack/release fades) *)
  let effective_dur_ms :=
    (duration_ms - trim_start_ms edits - trim_end_ms edits)%Q in
  let effective_dur_s := py_max (effective_dur_ms / 1000) (5 # 100) in
  let filters :=
    if Qltb 0 (attack_ms edits) then
      let attack_s := py_min (attack_ms edits / 1000) (effective_dur_s * (9 # 10)) in
      filters ++ [afade_in attack_s]
    else filters in
  let filters :=
    if Qltb 0 (release_ms edits) then
      let release_s := py_min (release_ms edits / 1000) (effective_dur_s * (9 # 10)) in
      let fade_start := py_max (effective_dur_s - release_s) 0 in
      filters ++ [afade_out fade_start release_s]
    else filters in
  (* 4. Gain *)
  let filters :=
    if negb (Qeq_bool (gain_db edits) 0)
    then filters ++ [volume (gain_db edits)] else filters in
  (* 5. Filters (HP/LP) *)
  let filters :=
    if (20 <? hp_freq edits)%Z then filters ++ [highpass (hp_freq edits)] else filters in
  let filters :=
    if (lp_freq edits <? 20000)%Z then filters ++ [lowpass (lp_freq edits)] else filters in
  (* 6. Normalize (last) *)
  let filters := if normalize edits then filters ++ [dynaudnorm] else filters in
  filters.

Definition build_filter_chain `{NumberFormat} (edits : SampleEdits) (duration_ms : Q) : string :=
  join_filters (chain_filters edits duration_ms).

(** The two filters of the f-string
    [asetrate=44100*{rate_factor},aresample=44100] with
    [rate_factor = 2 ** (semitones / 12)]. *)
Definition pitch_filters (semitones : Z) : list audio_filter :=
  let rate_factor := pow2 semitones 12 in
  [asetrate 44100 rate_factor; aresample 44100].

(** The f-string [f"asetrate=44100*{rate_factor},aresample=44100"] as
    [play_pitched] writes it. *)
Definition pitch_filter_text `{NumberFormat} (semitones : Z) : string :=
  let rate_factor := pow2 semitones 12 in
  "asetrate=44100*" ++ fmt_rate rate_factor ++ ",aresample=44100".

(** The filter chain [play_with_edits] computes before it decides whether
    to render: [chain = f"{chain},{pitch_filters}" if chain else
    pitch_filters] when [pitch != 0], the chain of [build_filter_chain]
    otherwise. *)
Definition edits_chain `{NumberFormat} (edits : SampleEdits) (duration_ms : Q) (pitch : Z) : string :=
  let chain := build_filter_chain edits duration_ms in
  if negb (pitch =? 0)%Z then
    let pitch_filters := pitch_filter_text pitch in
    if negb (String.eqb chain "")
    then (chain ++ "," ++ pitch_filters)%string
    else pitch_filters
  else chain.

(** ** player.py: the world a [Player] acts on

    The methods of [Player] are coroutines of one event loop.  They are
    modelled as functions from a state to an outcome (a value or an
    exception, with the new state), in a monad with exceptions.  What the
    outside world does is read from an environment ([Env]): whether a
    process is already gone when it is signalled, whether it ends within
    the timeout, the exit status of a render, whether an executable is
    missing, whether an unlink fails, and whether the running task is
    cancelled at an [await] that suspends it ([wait_for], the spawn of a
    process, the wait for a render).  [kill()] sends SIGKILL and returns:
    the process it is sent to ends later, by itself, and [stop] does not
    wait for that.  A render that is waited for is taken to end.  Every
    change of the operating system is recorded in a history, with the
    operating system as it was right after the change. *)

(** Exceptions that reach the code of [Player]. *)
Inductive exn :=
  | ProcessLookupError
  | TimeoutError
  | CancelledError
  | FileNotFoundError
  | OSError.

(** The command line of a child process. *)
Inductive command :=
  | afplay (path : string)                 (* afplay path *)
  | ffmpeg (input af output : string).     (* ffmpeg -y -i input -af af output *)

(** A child process: [returncode] is [None] while it runs. *)
Record process := { cmd : command; returncode : option Z }.

(** The operating system as the player sees it: the children spawned so
    far (a process id is an index of [procs]) and the temporary files that
    exist on disk. *)
Record OS := { procs : list process; files : gset string }.

(** The attributes of a [Player] object. *)
Record Player := {
  _process : option nat;
  _current_file : option string;
  _temp_files : list string
}.

(** What happened, in the order it happened. *)
Inductive event :=
  | Spawned (pid : nat) (c : command)
  | Terminated (pid : nat)          (* SIGTERM delivered *)
  | Killed (pid : nat)              (* SIGKILL sent *)
  | Exited (pid : nat) (rc : Z)     (* the process ended by itself *)
  | Created (f : string)
  | Unlinked (f : string).

(** The state threaded through the methods.  [history] holds every event
    with the operating system as it was right after it, newest first;
    [clock] counts the interactions with the environment. *)
Record state := {
  self : Player;
  os : OS;
  clock : nat;
  history : list (event * OS)
}.

(** The environment: what the outside world answers at the [k]-th
    interaction. *)
Record Env := {
  (* terminate(): [Some rc] when the process had already ended with [rc]
     (ProcessLookupError), [None] when the signal is delivered *)
  terminate_gone : nat -> option Z;
  (* wait_for(wait(), 1.0): [Some rc] when the process ends within the
     timeout, [None] on timeout *)
  exit_within_timeout : nat -> option Z;
  (* the awaiting task is cancelled during wait_for *)
  wait_for_cancelled : nat -> bool;
  (* kill(): as terminate() *)
  kill_gone : nat -> option Z;
  (* create_subprocess_exec: the executable is missing *)
  spawn_missing : nat -> bool;
  (* the awaiting task is cancelled during create_subprocess_exec *)
  spawn_cancelled : nat -> bool;
  (* proc.wait() on a render: its exit status *)
  exit_code : nat -> Z;
  (* the awaiting task is cancelled during proc.wait() *)
  wait_cancelled : nat -> bool;
  (* NamedTemporaryFile: the name chosen *)
  tmp_name : nat -> string;
  (* unlink raises OSError *)
  unlink_oserror : nat -> bool
}.

(** Outcome of a method call: a value or an exception, with the state. *)
Inductive result (A : Type) :=
  | Return (a : A) (s : state)
  | Raise (e : exn) (s : state).
Arguments Return {A} a s.
Arguments Raise {A} e s.

Definition M (A : Type) : Type := state -> result A.

Definition state_of {A} (r : result A) : state :=
  match r with Return _ s => s | Raise _ s => s end.

Definition ret {A} (a : A) : M A := fun s => Return a s.

Definition bind {A B} (m : M A) (k : A -> M B) : M B :=
  fun s => match m s with
           | Return a s' => k a s'
           | Raise e s' => Raise e s'
           end.

Definition raise {A} (e : exn) : M A := fun s => Raise e s.

(** [try: m except ...: handler]; the handler re-raises what it does not
    catch. *)
Definition try_except {A} (m : M A) (handler : exn -> M A) : M A :=
  fun s => match m s with
           | Return a s' => Return a s'
           | Raise e s' => handler e s'
           end.

Declare Scope player_scope.
Delimit Scope player_scope with player.
Notation "x <- m ;; k" := (bind m (fun x => k))
  (at level 100, m at next level, right associativity) : player_scope.
Notation "m ;; k" := (bind m (fun _ => k))
  (at level 100, right associativity) : player_scope.
Local Open Scope player_scope.

(** [for x in l: body] *)
Fixpoint for_each {A} (l : list A) (body : A -> M unit) : M unit :=
  match l with
  | [] => ret tt
  | x :: l' => body x ;; for_each l' body
  end.

(** *** Reading and writing the state *)

Definition gets {A} (f : state -> A) : M A := fun s => Return (f s) s.

Definition set_self (p : Player) : M unit :=
  fun s => Return tt {| self := p; os := os s; clock := clock s; history := history s |}.

Definition set_process (p : option nat) : M unit :=
  me <- gets self ;;
  set_self {| _process := p; _current_file := _current_file me;
              _temp_files := _temp_files me |}.

Definition set_current_file (f : option string) : M unit :=
  me <- gets self ;;
  set_self {| _process := _process me; _current_file := f;
              _temp_files := _temp_files me |}.

Definition set_temp_files (l : list string) : M unit :=
  me <- gets self ;;
  set_self {| _process := _process me; _current_file := _current_file me;
              _temp_files := l |}.

(** The environment is consulted: the clock advances. *)
Definition tick : M nat :=
  fun s => Return (clock s)
    {| self := self s; os := os s; clock := S (clock s); history := history s |}.

(** The operating system changes to [o] through event [ev]. *)
Definition happen (ev : event) (o : OS) : M unit :=
  fun s => Return tt
    {| self := self s; os := o; clock := clock s; history := (ev, o) :: history s |}.

(** *** The operating system *)

Definition exited (o : OS) (pid : nat) : bool :=
  match procs o !! pid with
  | Some p => bool_decide (is_Some (returncode p))
  | None => true
  end.

(** Process [pid] ends with status [rc], unless it has ended already. *)
Definition end_process (pid : nat) (rc : Z) (o : OS) : OS :=
  {| procs := alter (fun p => match returncode p with
                              | None => {| cmd := cmd p; returncode := Some rc |}
                              | Some _ => p
                              end) pid (procs o);
     files := files o |}.

Definition add_process (c : command) (o : OS) : OS :=
  {| procs := procs o ++ [{| cmd := c; returncode := None |}]; files := files o |}.

Definition add_file (f : string) (o : OS) : OS :=
  {| procs := procs o; files := files o ∪ {[f]} |}.

Definition remove_file (f : string) (o : OS) : OS :=
  {| procs := procs o; files := files o ∖ {[f]} |}.

Section Player.
Context `{NumberFormat} (env : Env).

(** *** What the methods call *)

(** [self._process.terminate()] *)
Definition terminate (pid : nat) : M unit :=
  k <- tick ;;
  o <- gets os ;;
  match terminate_gone env k with
  | Some rc => happen (Exited pid rc) (end_process pid rc o) ;; raise ProcessLookupError
  | None => happen (Terminated pid) o
  end.

(** [await asyncio.wait_for(self._process.wait(), timeout=1.0)] *)
Definition wait_for (pid : nat) : M unit :=
  k <- tick ;;
  o <- gets os ;;
  if wait_for_cancelled env k then raise CancelledError
  else match exit_within_timeout env k with
       | Some rc => happen (Exited pid rc) (end_process pid rc o)
       | None => raise TimeoutError
       end.

(** [self._process.kill()]: SIGKILL is sent and the call returns; the
    process has not ended yet ([returncode] stays [None] until the event
    loop has seen it end). *)
Definition kill (pid : nat) : M unit :=
  k <- tick ;;
  o <- gets os ;;
  match kill_gone env k with
  | Some rc => happen (Exited pid rc) (end_process pid rc o) ;; raise ProcessLookupError
  | None => happen (Killed pid) o
  end.

(** [await asyncio.create_subprocess_exec(...)].  A task cancelled while
    the child starts has its transport closed by the event loop, which
    kills the child before [CancelledError] reaches the caller. *)
Definition create_subprocess_exec (c : command) : M nat :=
  k <- tick ;;
  if spawn_missing env k then raise FileNotFoundError
  else
    o <- gets os ;;
    let pid := length (procs o) in
    happen (Spawned pid c) (add_process c o) ;;
    if spawn_cancelled env k then
      happen (Killed pid) (end_process pid (-9) (add_process c o)) ;;
      raise CancelledError
    else ret pid.

(** [await proc.wait()] followed by reading [proc.returncode]. *)
Definition wait (pid : nat) : M Z :=
  k <- tick ;;
  o <- gets os ;;
  if wait_cancelled env k then raise CancelledError
  else
    let rc := exit_code env k in
    happen (Exited pid rc) (end_process pid rc o) ;;
    ret rc.

(** [tmp = tempfile.NamedTemporaryFile(suffix=".wav", delete=False);
     tmp.close(); tmp_path = Path(tmp.name)] *)
Definition NamedTemporaryFile : M string :=
  k <- tick ;;
  o <- gets os ;;
  let name := tmp_name env k in
  happen (Created name) (add_file name o) ;;
  ret name.

(** [f.unlink(missing_ok=True)] *)
Definition unlink (f : string) : M unit :=
  k <- tick ;;
  o <- gets os ;;
  if unlink_oserror env k then raise OSError
  else happen (Unlinked f) (remove_file f o).

(** *** class Player *)

Definition Player_new : Player :=
  {| _process := None; _current_file := None; _temp_files := [] |}.

(** [self._process is not None and self._process.returncode is None] *)
Definition is_playing (s : state) : bool :=
  match _process (self s) with
  | Some pid => negb (exited (os s) pid)
  | None => false
  end.

Definition current_file (s : state) : option string :=
  if is_playing s then _current_file (self s) else None.

Definition _cleanup_temp : M unit :=
  fs <- gets (fun s => _temp_files (self s)) ;;
  for_each fs (fun f =>
    try_except (unlink f)
      (fun e => match e with OSError => ret tt | _ => raise e end)) ;;
  set_temp_files [].

Definition stop : M unit :=
  running <- gets is_playing ;;
  p <- gets (fun s => _process (self s)) ;;
  match p, running with
  | Some pid, true =>
      try_except
        (terminate pid ;;
         wait_for pid)
        (fun e =>
           match e with
           | ProcessLookupError | TimeoutError =>
               try_except (kill pid)
                 (fun e' => match e' with
                            | ProcessLookupError => ret tt
                            | _ => raise e'
                            end)
           | _ => raise e
           end)
  | _, _ => ret tt
  end ;;
  set_process None ;;
  set_current_file None ;;
  _cleanup_temp.

Definition play (path : string) : M unit :=
  stop ;;
  set_current_file (Some path) ;;
  proc <- create_subprocess_exec (afplay path) ;;
  set_process (Some proc).

(** Pitch-shift via ffmpeg to temp file, then play. *)
Definition play_pitched (path : string) (semitones : Z) : M unit :=
  if (semitones =? 0)%Z then play path
  else
    stop ;;
    tmp_path <- NamedTemporaryFile ;;
    fs <- gets (fun s => _temp_files (self s)) ;;
    set_temp_files (fs ++ [tmp_path]) ;;
    proc <- create_subprocess_exec
              (ffmpeg path (pitch_filter_text semitones) tmp_path) ;;
    rc <- wait proc ;;
    if (rc =? 0)%Z then play tmp_path else ret tt.

(** Apply sample edits via ffmpeg, optionally pitch-shift, then play. *)
Definition play_with_edits (path : string) (edits : SampleEdits)
    (duration_ms : Q) (pitch : Z) : M unit :=
  let chain := build_filter_chain edits duration_ms in
  (* Add pitch-shift to filter chain if needed *)
  let chain :=
    if negb (pitch =? 0)%Z then
      let pitch_filters := pitch_filter_text pitch in
      if negb (String.eqb chain "")
      then (chain ++ "," ++ pitch_filters)%string
      else pitch_filters
    else chain in
  if String.eqb chain "" then play path
  else
    stop ;;
    tmp_path <- NamedTemporaryFile ;;
    fs <- gets (fun s => _temp_files (self s)) ;;
    set_temp_files (fs ++ [tmp_path]) ;;
    proc <- create_subprocess_exec (ffmpeg path chain tmp_path) ;;
    rc <- wait proc ;;
    if (rc =? 0)%Z then play tmp_path else ret tt.

Definition cleanup : M unit := stop.

(** *** Sequences of calls *)

(** A call on the player, or a child process ending by itself between
    two calls. *)
Inductive call :=
  | call_play (path : string)
  | call_play_pitched (path : string) (semitones : Z)
  | call_play_with_edits (path : string) (edits : SampleEdits)
      (duration_ms : Q) (pitch : Z)
  | call_stop
  | call_cleanup
  | process_exits (pid : nat) (rc : Z).

Definition exec (c : call) : M unit :=
  match c with
  | call_play path => play path
  | call_play_pitched path n => play_pitched path n
  | call_play_with_edits path e d n => play_with_edits path e d n
  | call_stop => stop
  | call_cleanup => cleanup
  | process_exits pid rc =>
      o <- gets os ;;
      if exited o pid then ret tt
      else happen (Exited pid rc) (end_process pid rc o)
  end.

(** The calls are made one after the other; an exception ends the call
    that raised it and the player is used again as it was left. *)
Fixpoint run (cs : list call) (s : state) : state :=
  match cs with
  | [] => s
  | c :: cs' => run cs' (state_of (exec c s))
  end.
End Player.

(** A new player in a world without child processes or temporary files. *)
Definition init : state :=
  {| self := Player_new; os := {| procs := []; files := ∅ |};
     clock := 0; history := [] |}.

(** ** waveform.py: [get_waveform] *)

(** One item of [struct.unpack("<{n}h", ...)]: a signed 16-bit
    little-endian integer. *)
Definition unpack_h (lo hi : byte) : Z :=
  let u := Z.of_N (Byte.to_N lo) + 256 * Z.of_N (Byte.to_N hi) in
  if (u <? 32768)%Z then u else u - 65536.

(** [struct.unpack(f"<{n_samples}h", raw[:n_samples * 2])] *)
Fixpoint unpack_samples (raw : list byte) : list Z :=
  match raw with
  | lo :: hi :: rest => unpack_h lo hi :: unpack_samples rest
  | _ => []
  end.

(** [l[start:end]] for [0 <= start]. *)
Definition py_slice {A} (l : list A) (start end_ : Z) : list A :=
  take (Z.to_nat (end_ - start)) (drop (Z.to_nat start) l).

(** [max(l)] of a list of non-negative integers. *)
Definition max_of (l : list Z) : Z := foldr Z.max 0 l.

(** The body of the loop [for i in range(bins)]: the value appended to
    [peaks]. *)
Definition bin_peak (samples : list Z) (n_samples bin_size i : Z) : Z :=
  let start := i * bin_size in
  let end_ := Z.min (start + bin_size) n_samples in
  if (n_samples <=? start)%Z then 0
  else
    let chunk := py_slice samples start end_ in
    match chunk with
    | [] => 0
    | _ => max_of (map Z.abs chunk)
    end.

(** [get_waveform] returns a list of floats or fails with
    [ZeroDivisionError] ([n_samples // bins] with [bins == 0]). *)
Inductive waveform_result :=
  | peaks_ok (peaks : list Q)
  | ZeroDivisionError.

(** [get_waveform] from the bytes ffmpeg wrote to its standard output. *)
Definition get_waveform (raw : list byte) (bins : Z) : waveform_result :=
  if (Z.of_nat (length raw) <? 2)%Z then
    peaks_ok (replicate (Z.to_nat bins) 0%Q)
  else
    (* Parse 16-bit signed LE samples *)
    let n_samples := Z.of_nat (length raw) / 2 in
    let samples := unpack_samples (take (Z.to_nat (n_samples * 2)) raw) in
    if (bins =? 0)%Z then ZeroDivisionError
    else
      (* Bin into peaks *)
      let bin_size := Z.max 1 (n_samples / bins) in
      let peaks := map (bin_peak samples n_samples bin_size) (seqZ 0 bins) in
      (* Normalize to 0-1 *)
      match peaks with
      | [] => peaks_ok []
      | _ =>
          let mx := max_of peaks in
          if (0 <? mx)%Z
          then peaks_ok (map (fun p => Qred (inject_Z p / inject_Z mx)) peaks)
          else peaks_ok (map inject_Z peaks)
      end.

(** ** samples.py: [SampleManager] *)

(** Drum MIDI notes -> instrument names *)
Definition DRUM_NOTE_MAP : gmap Z string :=
  list_to_map
    [(36, "kick"); (38, "snare"); (42, "hihat"); (46, "hihat-open");
     (37, "rimshot"); (39, "clap"); (44, "pedal-hihat"); (49, "crash");
     (51, "ride"); (56, "cowbell"); (75, "clave")].

(** Canonical instrument groups for display ordering *)
Definition DRUM_INSTRUMENTS : list string :=
  ["kick"; "snare"; "hihat"; "hihat-open"; "rimshot"; "clap"].
Definition PITCHED_INSTRUMENTS : list string :=
  ["bass"; "lead"; "pad"; "arp"; "fx"; "subBass"].
Definition TEXTURE_INSTRUMENTS : list string :=
  ["vocalChop"; "texture"; "noise"; "scratch"; "atmosphere"; "stab"].

Definition ALL_INSTRUMENTS : list string :=
  DRUM_INSTRUMENTS ++ PITCHED_INSTRUMENTS ++ TEXTURE_INSTRUMENTS.

Record SampleFile := {
  path : string;
  filename : string;
  instrument : string;
  variant_num : option Z;
  size_bytes : Z;
  duration_estimate : Q;   (* rough estimate from file size *)
  midi_note : option Z
}.

(** An entry of a directory, with the size [stat] reports for it. *)
Record dir_entry := { entry_name : string; st_size : Z }.

(** The file system: the entries of a directory, [None] when the directory
    does not exist. *)
Definition file_system := string -> option (list dir_entry).

Record SampleManager := { dir : string }.

(** *** Strings *)

Definition is_digit (c : ascii) : bool :=
  let n := N_of_ascii c in (48 <=? n)%N && (n <=? 57)%N.

Definition is_alpha (c : ascii) : bool :=
  let n := N_of_ascii c in
  ((65 <=? n)%N && (n <=? 90)%N) || ((97 <=? n)%N && (n <=? 122)%N).

(** The longest prefix whose characters satisfy [p], and the rest. *)
Fixpoint span (p : ascii -> bool) (s : string) : string * string :=
  match s with
  | EmptyString => (EmptyString, EmptyString)
  | String c s' =>
      if p c then let (a, b) := span p s' in (String c a, b)
      else (EmptyString, s)
  end.

(** [int(digits)] for a string of decimal digits. *)
Fixpoint int_of_digits (acc : Z) (digits : string) : Z :=
  match digits with
  | EmptyString => acc
  | String c s' => int_of_digits (10 * acc + (Z.of_N (N_of_ascii c) - 48)) s'
  end.
Definition int (digits : string) : Z := int_of_digits 0 digits.

Definition lower_char (c : ascii) : ascii :=
  let n := N_of_ascii c in
  if (65 <=? n)%N && (n <=? 90)%N then ascii_of_N (n + 32) else c.

(** [s.lower()] *)
Fixpoint lower (s : string) : string :=
  match s with
  | EmptyString => EmptyString
  | String c s' => String (lower_char c) (lower s')
  end.

(** [s.rfind(c)] *)
Fixpoint rfind (c : ascii) (s : string) : option nat :=
  match s with
  | EmptyString => None
  | String x s' =>
      match rfind c s' with
      | Some i => Some (S i)
      | None => if Ascii.eqb x c then Some 0%nat else None
      end
  end.

(** [PurePath.suffix] of a file name: from the last dot, when that dot is
    neither the first nor the last character. *)
Definition suffix (name : string) : string :=
  match rfind "." name with
  | Some i =>
      if (0 <? i)%nat && (i <? String.length name - 1)%nat
      then substring i (String.length name - i) name
      else ""
  | None => ""
  end.

(** [PurePath.stem] of a file name. *)
Definition stem (name : string) : string :=
  match rfind "." name with
  | Some i =>
      if (0 <? i)%nat && (i <? String.length name - 1)%nat
      then substring 0 i name
      else name
  | None => name
  end.

(** [re.match(r'^(\d+)-(.+)', name)]: group 1 when the pattern matches. *)
Definition drum_match (name : string) : option string :=
  let (digits, rest) := span is_digit name in
  match digits, rest with
  | String _ _, String "-" (String c _) =>
      if Ascii.eqb c "010" then None else Some digits
  | _, _ => None
  end.

(** [re.match(r'^([a-zA-Z]+)-v(\d+)', name)]: groups 1 and 2 when the
    pattern matches. *)
Definition inst_match (name : string) : option (string * string) :=
  let (letters, rest) := span is_alpha name in
  match letters, rest with
  | String _ _, String "-" (String "v" rest') =>
      let (digits, _) := span is_digit rest' in
      match digits with
      | String _ _ => Some (letters, digits)
      | EmptyString => None
      end
  | _, _ => None
  end.

(** [x in l] for a list of strings. *)
Definition str_in (x : string) (l : list string) : bool :=
  existsb (String.eqb x) l.

(** *** [SampleManager._parse_file] and [SampleManager.scan] *)

(** [size / 44100 / 2] *)
Definition rough_duration (size : Z) : Q := (inject_Z size / 44100 / 2)%Q.

(** Parse a sample file into a SampleFile object. *)
Definition _parse_file (self : SampleManager) (f : dir_entry) : option SampleFile :=
  let path := (dir self ++ "/" ++ entry_name f)%string in
  let name := stem (entry_name f) in
  let size := st_size f in
  (* Drum pattern: {midiNote}-{name}*.mp3 *)
  let drum :=
    match drum_match name with
    | Some group1 =>
        let note := int group1 in
        match DRUM_NOTE_MAP !! note with
        | Some inst =>
            Some {| path := path; filename := entry_name f; instrument := inst;
                    variant_num := None; size_bytes := size;
                    duration_estimate := rough_duration size;
                    midi_note := Some note |}
        | None => None
        end
    | None => None
    end in
  match drum with
  | Some sample => Some sample
  | None =>
      (* Instrument pattern: {name}-v{n}.mp3 *)
      let variant :=
        match inst_match name with
        | Some (inst, group2) =>
            let variant := int group2 in
            if str_in inst ALL_INSTRUMENTS then
              Some {| path := path; filename := entry_name f; instrument := inst;
                      variant_num := Some variant; size_bytes := size;
                      duration_estimate := rough_duration size;
                      midi_note := None |}
            else None
        | None => None
        end in
      match variant with
      | Some sample => Some sample
      | None =>
          (* Bare name match (e.g., kick.mp3, snare.mp3) *)
          match List.find (fun inst => String.eqb (lower name) (lower inst)) ALL_INSTRUMENTS with
          | Some inst =>
              Some {| path := path; filename := entry_name f; instrument := inst;
                      variant_num := None; size_bytes := size;
                      duration_estimate := rough_duration size;
                      midi_note := None |}
          | None => None
          end
      end
  end.

(** [sorted(...)] of the entries of one directory: paths of the same
    directory compare as their names do. *)
Fixpoint insert_sorted (f : dir_entry) (l : list dir_entry) : list dir_entry :=
  match l with
  | [] => [f]
  | g :: l' =>
      if String.ltb (entry_name f) (entry_name g) then f :: l
      else g :: insert_sorted f l'
  end.

Definition sorted (l : list dir_entry) : list dir_entry :=
  foldr insert_sorted [] l.

(** One turn of the loop of [scan]. *)
Definition scan_step (self : SampleManager)
    (result : gmap string (list SampleFile)) (f : dir_entry)
    : gmap string (list SampleFile) :=
  if negb (str_in (suffix (entry_name f)) [".mp3"; ".wav"]) then result   (* continue *)
  else
    match _parse_file self f with
    | Some sample =>
        match result !! instrument sample with
        | Some l => <[instrument sample := l ++ [sample]]> result
        | None => result
        end
    | None => result
    end.

(** Return {instrument_name: [SampleFile, ...]} from disk. *)
Definition scan (fs : file_system) (self : SampleManager)
    : gmap string (list SampleFile) :=
  let result : gmap string (list SampleFile) :=
    list_to_map (map (fun inst => (inst, [])) ALL_INSTRUMENTS) in
  match fs (dir self) with
  | None => result
  | Some entries => foldl (scan_step self) result (sorted entries)
  end.

(** ** waveform.py: [render_waveform]

    A [str] with characters outside ASCII is the list of its code
    points. *)

Definition WAVEFORM_BLOCKS : list N :=
  [0x2581; 0x2582; 0x2583; 0x2584; 0x2585; 0x2586; 0x2587; 0x2588]%N.

(** [int(x)] of a float: the fraction is dropped, towards zero. *)
Definition py_int (x : Q) : Z := Z.quot (Qnum x) (Zpos (Qden x)).

(** [l[:stop]]: a negative [stop] counts from the end. *)
Definition py_prefix {A} (l : list A) (stop : Z) : list A :=
  if (stop <? 0)%Z then take (Z.to_nat (Z.of_nat (length l) + stop)) l
  else take (Z.to_nat stop) l.

(** [l[i]]: a negative index counts from the end; [None] is
    [IndexError]. *)
Definition py_index {A} (l : list A) (i : Z) : option A :=
  if (i <? 0)%Z then
    if (i + Z.of_nat (length l) <? 0)%Z then None
    else l !! Z.to_nat (i + Z.of_nat (length l))
  else l !! Z.to_nat i.

(** Render peaks as a single line of block characters. *)
Definition render_waveform (peaks : list Q) (width : Z) : option (list N) :=
  mapM (fun p =>
          let idx := Z.min (py_int (p * inject_Z (Z.of_nat (length WAVEFORM_BLOCKS) - 1)))
                           (Z.of_nat (length WAVEFORM_BLOCKS) - 1) in
          py_index WAVEFORM_BLOCKS idx)
       (py_prefix peaks width).

(** ** app.py: the playback workers, [action_quit]

    A worker of the group [playback] is modelled by the coroutine it runs;
    when the application starts and cancels its workers is outside the
    embedding.  [action_quit] is not a worker of that group: it awaits
    [cleanup()] in the task of the key binding, whatever the playback
    worker is doing. *)

Section App.
Context `{NumberFormat} (env : Env).

Definition _do_play (path : string) (pitch_offset : Z) : M unit :=
  if negb (pitch_offset =? 0)%Z then play_pitched env path pitch_offset
  else play env path.

(** Play a sample file, optionally pitch-shifted. *)
Definition play_sample (path : string) (pitch_offset : Z) : M unit :=
  _do_play path pitch_offset.

Definition _do_play_with_edits (path : string) (edits : SampleEdits)
    (duration_ms : Q) (pitch : Z) : M unit :=
  play_with_edits env path edits duration_ms pitch.

(** Play a sample with non-destructive edits applied. *)
Definition play_sample_with_edits (path : string) (edits : SampleEdits)
    (duration_ms : Q) (pitch : Z) : M unit :=
  _do_play_with_edits path edits duration_ms pitch.

Definition _do_stop : M unit := stop env.

Definition stop_playback : M unit := _do_stop.

(** [await self.player.cleanup(); self.exit()] *)
Definition action_quit : M unit := cleanup env.

(** ** sound_design.py: [SoundDesignScreen._play_current_sample]

    The attributes of the screen that the method reads are its first three
    arguments. *)
Definition _play_current_sample (_editor_mode : bool)
    (_current_edits : SampleEdits) (_sample_duration_ms : Q)
    (path : string) (pitch : Z) : M unit :=
  if _editor_mode && negb (is_default _current_edits) then
    play_sample_with_edits path _current_edits _sample_duration_ms pitch
  else
    play_sample path pitch.
End App.

(** ** session.py: dictionaries of [SampleEdits], [Session] *)

(** A value of a field of [SampleEdits] in a dictionary: a number, an
    integer or a boolean, as the field is declared. *)
Inductive value :=
  | num (x : Q)
  | integer (n : Z)
  | boolean (b : bool).

(** [asdict(self)] *)
Definition to_dict (self : SampleEdits) : gmap string value :=
  list_to_map
    [("attack_ms", num (attack_ms self));
     ("release_ms", num (release_ms self));
     ("gain_db", num (gain_db self));
     ("normalize", boolean (normalize self));
     ("hp_freq", integer (hp_freq self));
     ("lp_freq", integer (lp_freq self));
     ("reverse", boolean (reverse self));
     ("trim_start_ms", num (trim_start_ms self));
     ("trim_end_ms", num (trim_end_ms self))].

(** [{f.name for f in cls.__dataclass_fields__.values()}] *)
Definition known : gset string :=
  list_to_set
    ["attack_ms"; "release_ms"; "gain_db"; "normalize"; "hp_freq"; "lp_freq";
     "reverse"; "trim_start_ms"; "trim_end_ms"].

(** A keyword argument of the constructor: the value given for the field,
    or the default of the field.  [None]: the value is not of the type the
    field declares, and the embedding has no [SampleEdits] that holds
    it. *)
Definition num_field (kwargs : gmap string value) (k : string) (default : Q) : option Q :=
  match kwargs !! k with
  | None => Some default
  | Some (num x) => Some x
  | Some _ => None
  end.

Definition integer_field (kwargs : gmap string value) (k : string) (default : Z) : option Z :=
  match kwargs !! k with
  | None => Some default
  | Some (integer n) => Some n
  | Some _ => None
  end.

Definition boolean_field (kwargs : gmap string value) (k : string) (default : bool) : option bool :=
  match kwargs !! k with
  | None => Some default
  | Some (boolean b) => Some b
  | Some _ => None
  end.

(** The constructor called with the items of [data] whose key is in
    [known] as its keyword arguments. *)
Definition from_dict (data : gmap string value) : option SampleEdits :=
  let kwargs := filter (fun kv => kv.1 ∈ known) data in
  a ← num_field kwargs "attack_ms" 0;
  r ← num_field kwargs "release_ms" 0;
  g ← num_field kwargs "gain_db" 0;
  n ← boolean_field kwargs "normalize" false;
  hp ← integer_field kwargs "hp_freq" 20;
  lp ← integer_field kwargs "lp_freq" 20000;
  rev ← boolean_field kwargs "reverse" false;
  ts ← num_field kwargs "trim_start_ms" 0;
  te ← num_field kwargs "trim_end_ms" 0;
  Some {| attack_ms := a; release_ms := r; gain_db := g; normalize := n;
          hp_freq := hp; lp_freq := lp; reverse := rev;
          trim_start_ms := ts; trim_end_ms := te |}.

(** The fields of [Session] that the embedded methods read or write. *)
Record Session := {
  selections : gmap string string;            (* instrument -> filename *)
  edits : gmap string (gmap string value);    (* instrument -> SampleEdits dict *)
  mix_volumes : gmap string Q                 (* instrument -> gain_dB (float) *)
}.

(** Get SampleEdits for an instrument, creating defaults if missing. *)
Definition get_edits (self : Session) (instrument : string) : option SampleEdits :=
  let data := edits self !! instrument in
  match data with
  | Some d => if decide (d = ∅) then Some SampleEdits_new else from_dict d
  | None => Some SampleEdits_new
  end.

(** Store edits for an instrument. *)
Definition set_edits (self : Session) (instrument : string) (e : SampleEdits) : Session :=
  if is_default e then
    {| selections := selections self;
       edits := delete instrument (edits self);
       mix_volumes := mix_volumes self |}
  else
    {| selections := selections self;
       edits := <[instrument := to_dict e]> (edits self);
       mix_volumes := mix_volumes self |}.

(** ** samples.py: [SampleManager.get_prompt_for_instrument] *)

(** Return a reasonable default prompt for this instrument+genre. *)
Definition get_prompt_for_instrument (instrument genre : string) : string :=
  (* Drum prompts *)
  let drum_prompts : gmap string string :=
    list_to_map
      [("kick", ("deep kick drum " ++ genre ++ " warm")%string);
       ("snare", ("snare drum " ++ genre ++ " crisp")%string);
       ("hihat", ("closed hi-hat " ++ genre ++ " tight")%string);
       ("hihat-open", ("open hi-hat " ++ genre ++ " sizzle")%string);
       ("rimshot", ("rimshot " ++ genre ++ " warm analog")%string);
       ("clap", ("handclap " ++ genre ++ " vintage")%string)] in
  match drum_prompts !! instrument with
  | Some prompt => prompt
  | None =>
      (* Fallback to generic prompts *)
      let generic : gmap string string :=
        list_to_map
          [("bass", ("sustained deep bass note C2 " ++ genre)%string);
           ("lead", ("sustained synth lead C4 " ++ genre)%string);
           ("pad", ("sustained ambient pad C4 " ++ genre ++ " atmospheric")%string);
           ("arp", ("arpeggiated synth C4 " ++ genre ++ " sequenced")%string);
           ("fx", ("fx sound effect " ++ genre ++ " electronic")%string);
           ("subBass", ("deep sub bass C1 " ++ genre ++ " rumble")%string);
           ("vocalChop", ("vocal chop pitched C4 " ++ genre)%string);
           ("texture", ("evolving texture pad " ++ genre ++ " atmospheric")%string);
           ("noise", ("filtered noise sweep " ++ genre)%string);
           ("scratch", ("dj scratch hit " ++ genre)%string);
           ("atmosphere", ("ambient drone atmospheric " ++ genre ++ " evolving")%string);
           ("stab", ("chord stab hit C4 " ++ genre ++ " short")%string)] in
      match generic !! instrument with
      | Some prompt => prompt
      | None => (instrument ++ " " ++ genre)%string
      end
  end.

(** ** sound_design.py and mixer.py: labels and bars *)

Definition PITCH_NAMES : list string :=
  ["C"; "C#"; "D"; "D#"; "E"; "F"; "F#"; "G"; "G#"; "A"; "A#"; "B"].

(** [pitch_label(semitones, base_octave)]; [None] is [IndexError]. *)
Definition pitch_label (semitones base_octave : Z) : option string :=
  let note_idx := semitones mod 12 in
  let octave := base_octave + semitones / 12 in
  match py_index PITCH_NAMES note_idx with
  | Some name => Some (name ++ pretty octave)%string
  | None => None
  end.

(** [round(x)] of a float: the nearest integer, and of two nearest the
    even one. *)
Definition py_round (x : Q) : Z :=
  let f := Qfloor x in
  let r := (x - inject_Z f)%Q in
  if Qltb r (1 # 2) then f
  else if Qltb (1 # 2) r then f + 1
  else if Z.even f then f else f + 1.

(** [s * n] for a one-character [str] [s]. *)
Definition str_times (c : N) (n : Z) : list N := replicate (Z.to_nat n) c.

Definition BAR_WIDTH : Z := 10.   (* width of slider bar in characters *)

(** Render a slider bar like ██████░░░░ *)
Definition _render_slider (value vmin vmax : Q) : list N :=
  let ratio := if Qltb vmin vmax then ((value - vmin) / (vmax - vmin))%Q else 0%Q in
  let ratio := py_max 0 (py_min 1 ratio) in
  let filled := py_round (ratio * inject_Z BAR_WIDTH) in
  str_times 0x2588%N filled ++ str_times 0x2591%N (BAR_WIDTH - filled).

(** Volume range *)
Definition VOL_MIN : Z := -24.
Definition VOL_MAX : Z := 12.
Definition VOL_BAR_WIDTH : Z := 10.

(** Render a volume bar like ████████░░ from dB value. *)
Definition _vol_bar (db : Q) : list N :=
  let ratio := ((db - inject_Z VOL_MIN) / inject_Z (VOL_MAX - VOL_MIN))%Q in
  let filled := py_round (ratio * inject_Z VOL_BAR_WIDTH) in
  let filled := Z.max 0 (Z.min VOL_BAR_WIDTH filled) in
  let empty := VOL_BAR_WIDTH - filled in
  str_times 0x2588%N filled ++ str_times 0x2591%N empty.

(** ** mixer.py: [MixerScreen]

    The state of the screen is the attributes its actions read and write,
    together with the session of the application.  What an action draws on
    the screen, and the file the session manager writes when the session
    has a name, are outside the embedding.  [None] is [IndexError]. *)

Record MixerScreen := {
  _current_row : Z;
  _instruments : list string;    (* only instruments with selections *)
  _volumes : gmap string Q
}.

(** [d.get(k, 0)] for a dictionary of numbers. *)
Definition get_or_0 (d : gmap string Q) (k : string) : Q := default 0%Q (d !! k).

(** The truth value of [selections.get(inst)]: the instrument has a
    selection, and it is not the empty string. *)
Definition has_selection (selections : gmap string string) (inst : string) : bool :=
  match selections !! inst with
  | Some name => negb (String.eqb name "")
  | None => false
  end.

Definition on_mount (session : Session) : MixerScreen :=
  (* Build instrument list from selections only *)
  let selections := selections session in
  let instruments := List.filter (has_selection selections) ALL_INSTRUMENTS in
  (* Load volumes from session (default 0dB) *)
  let saved := mix_volumes session in
  {| _instruments := instruments;
     _volumes := list_to_map (map (fun inst => (inst, get_or_0 saved inst)) instruments);
     _current_row := 0 |}.

(** Persist non-zero volumes to session. *)
Definition _save_volumes (self : MixerScreen) (session : Session) : Session :=
  {| selections := selections session;
     edits := edits session;
     mix_volumes := filter (fun kv => Qeq_bool kv.2 0 = false) (_volumes self) |}.

Definition action_move_up (self : MixerScreen) : MixerScreen :=
  if negb (Nat.eqb (length (_instruments self)) 0) && (0 <? _current_row self)%Z then
    {| _current_row := _current_row self - 1;
       _instruments := _instruments self; _volumes := _volumes self |}
  else self.

Definition action_move_down (self : MixerScreen) : MixerScreen :=
  if negb (Nat.eqb (length (_instruments self)) 0)
     && (_current_row self <? Z.of_nat (length (_instruments self)) - 1)%Z then
    {| _current_row := _current_row self + 1;
       _instruments := _instruments self; _volumes := _volumes self |}
  else self.

Definition _adjust_volume (delta : Q) (self : MixerScreen) (session : Session)
    : option (MixerScreen * Session) :=
  if Nat.eqb (length (_instruments self)) 0 then Some (self, session)
  else
    inst ← py_index (_instruments self) (_current_row self);
    let vol := (get_or_0 (_volumes self) inst + delta)%Q in
    let vol := py_max (inject_Z VOL_MIN) (py_min (inject_Z VOL_MAX) vol) in
    let self := {| _current_row := _current_row self;
                   _instruments := _instruments self;
                   _volumes := <[inst := vol]> (_volumes self) |} in
    Some (self, _save_volumes self session).

Definition action_vol_reset (self : MixerScreen) (session : Session)
    : option (MixerScreen * Session) :=
  if Nat.eqb (length (_instruments self)) 0 then Some (self, session)
  else
    inst ← py_index (_instruments self) (_current_row self);
    let self := {| _current_row := _current_row self;
                   _instruments := _instruments self;
                   _volumes := <[inst := 0%Q]> (_volumes self) |} in
    Some (self, _save_volumes self session).

(** The actions bound to the keys up, down, left, right, shift+left,
    shift+right and 0. *)
Inductive mixer_action :=
  | move_up | move_down | vol_down | vol_up | vol_down_coarse | vol_up_coarse
  | vol_reset.

Definition run_action (a : mixer_action) (self : MixerScreen) (session : Session)
    : option (MixerScreen * Session) :=
  match a with
  | move_up => Some (action_move_up self, session)
  | move_down => Some (action_move_down self, session)
  | vol_up => _adjust_volume 1 self session
  | vol_down => _adjust_volume (-1) self session
  | vol_up_coarse => _adjust_volume 3 self session
  | vol_down_coarse => _adjust_volume (-3) self session
  | vol_reset => action_vol_reset self session
  end.

(** The actions are run one after the other; an exception ends the run. *)
Fixpoint run_actions (l : list mixer_action) (self : MixerScreen) (session : Session)
    : option (MixerScreen * Session) :=
  match l with
  | [] => Some (self, session)
  | a :: l' =>
      st ← run_action a self session;
      run_actions l' st.1 st.2
  end.

(** ** app.py: [BeatGenStudio._write_mix_config]

    The configuration written for the command line: the gain of each
    track, and the master gain.  [None]: no file is written. *)
Record mix_config := { tracks : gmap string Q; master : Q }.

Definition _write_mix_config (session : Session) : option mix_config :=
  let volumes := mix_volumes session in
  if decide (volumes = ∅) then None
  else
    let config :=
      {| tracks := filter (fun kv => Qeq_bool kv.2 0 = false) volumes;
         master := 0 |} in
    if decide (tracks config = ∅) then None
    else Some config.

(** ** sound_design.py: the sample editor of [SoundDesignScreen]

    As for the mixer, the state is the attributes the key handler reads
    and writes together with the session; what is drawn on the screen and
    the file written for a named session are outside the embedding.
    [None] is an exception ([IndexError], [AttributeError]) or a value the
    embedding has no [SampleEdits] for. *)

(** Editor parameter definitions: (attr, label, fine_step, coarse_step,
    min, max); the function that formats the value is left out. *)
Record editor_param := {
  attr : string; label : string;
  fine_step : Z; coarse_step : Z; vmin : Z; vmax : Z
}.

Definition EDITOR_PARAMS : list editor_param :=
  [ {| attr := "attack_ms"; label := "Attack"; fine_step := 10; coarse_step := 100;
       vmin := 0; vmax := 2000 |};
    {| attr := "release_ms"; label := "Release"; fine_step := 10; coarse_step := 100;
       vmin := 0; vmax := 2000 |};
    {| attr := "gain_db"; label := "Gain"; fine_step := 1; coarse_step := 3;
       vmin := -24; vmax := 12 |};
    {| attr := "hp_freq"; label := "HP"; fine_step := 10; coarse_step := 100;
       vmin := 20; vmax := 5000 |};
    {| attr := "lp_freq"; label := "LP"; fine_step := 100; coarse_step := 1000;
       vmin := 200; vmax := 20000 |};
    {| attr := "trim_start_ms"; label := "Trim start"; fine_step := 10; coarse_step := 100;
       vmin := 0; vmax := 10000 |};
    {| attr := "trim_end_ms"; label := "Trim end"; fine_step := 10; coarse_step := 100;
       vmin := 0; vmax := 10000 |} ].

(** [getattr(self, name)] on a [SampleEdits]. *)
Definition getattr (self : SampleEdits) (name : string) : option value :=
  if String.eqb name "attack_ms" then Some (num (attack_ms self))
  else if String.eqb name "release_ms" then Some (num (release_ms self))
  else if String.eqb name "gain_db" then Some (num (gain_db self))
  else if String.eqb name "normalize" then Some (boolean (normalize self))
  else if String.eqb name "hp_freq" then Some (integer (hp_freq self))
  else if String.eqb name "lp_freq" then Some (integer (lp_freq self))
  else if String.eqb name "reverse" then Some (boolean (reverse self))
  else if String.eqb name "trim_start_ms" then Some (num (trim_start_ms self))
  else if String.eqb name "trim_end_ms" then Some (num (trim_end_ms self))
  else None.

(** [self.<field> = v], field by field. *)
Definition set_attack_ms (self : SampleEdits) (v : Q) : SampleEdits :=
  {| attack_ms := v; release_ms := release_ms self; gain_db := gain_db self;
     normalize := normalize self; hp_freq := hp_freq self; lp_freq := lp_freq self;
     reverse := reverse self; trim_start_ms := trim_start_ms self; trim_end_ms := trim_end_ms self |}.
Definition set_release_ms (self : SampleEdits) (v : Q) : SampleEdits :=
  {| attack_ms := attack_ms self; release_ms := v; gain_db := gain_db self;
     normalize := normalize self; hp_freq := hp_freq self; lp_freq := lp_freq self;
     reverse := reverse self; trim_start_ms := trim_start_ms self; trim_end_ms := trim_end_ms self |}.
Definition set_gain_db (self : SampleEdits) (v : Q) : SampleEdits :=
  {| attack_ms := attack_ms self; release_ms := release_ms self; gain_db := v;
     normalize := normalize self; hp_freq := hp_freq self; lp_freq := lp_freq self;
     reverse := reverse self; trim_start_ms := trim_start_ms self; trim_end_ms := trim_end_ms self |}.
Definition set_normalize (self : SampleEdits) (v : bool) : SampleEdits :=
  {| attack_ms := attack_ms self; release_ms := release_ms self; gain_db := gain_db self;
     normalize := v; hp_freq := hp_freq self; lp_freq := lp_freq self;
     reverse := reverse self; trim_start_ms := trim_start_ms self; trim_end_ms := trim_end_ms self |}.
Definition set_hp_freq (self : SampleEdits) (v : Z) : SampleEdits :=
  {| attack_ms := attack_ms self; release_ms := release_ms self; gain_db := gain_db self;
     normalize := normalize self; hp_freq := v; lp_freq := lp_freq self;
     reverse := reverse self; trim_start_ms := trim_start_ms self; trim_end_ms := trim_end_ms self |}.
Definition set_lp_freq (self : SampleEdits) (v : Z) : SampleEdits :=
  {| attack_ms := attack_ms self; release_ms := release_ms self; gain_db := gain_db self;
     normalize := normalize self; hp_freq := hp_freq self; lp_freq := v;
     reverse := reverse self; trim_start_ms := trim_start_ms self; trim_end_ms := trim_end_ms self |}.
Definition set_reverse (self : SampleEdits) (v : bool) : SampleEdits :=
  {| attack_ms := attack_ms self; release_ms := release_ms self; gain_db := gain_db self;
     normalize := normalize self; hp_freq := hp_freq self; lp_freq := lp_freq self;
     reverse := v; trim_start_ms := trim_start_ms self; trim_end_ms := trim_end_ms self |}.
Definition set_trim_start_ms (self : SampleEdits) (v : Q) : SampleEdits :=
  {| attack_ms := attack_ms self; release_ms := release_ms self; gain_db := gain_db self;
     normalize := normalize self; hp_freq := hp_freq self; lp_freq := lp_freq self;
     reverse := reverse self; trim_start_ms := v; trim_end_ms := trim_end_ms self |}.
Definition set_trim_end_ms (self : SampleEdits) (v : Q) : SampleEdits :=
  {| attack_ms := attack_ms self; release_ms := release_ms self; gain_db := gain_db self;
     normalize := normalize self; hp_freq := hp_freq self; lp_freq := lp_freq self;
     reverse := reverse self; trim_start_ms := trim_start_ms self; trim_end_ms := v |}.

(** [setattr(self, name, v)] on a [SampleEdits], for a field of the class
    and a value of the type the field declares. *)
Definition setattr (self : SampleEdits) (name : string) (v : value) : option SampleEdits :=
  match v with
  | num x =>
      if String.eqb name "attack_ms" then Some (set_attack_ms self x)
      else if String.eqb name "release_ms" then Some (set_release_ms self x)
      else if String.eqb name "gain_db" then Some (set_gain_db self x)
      else if String.eqb name "trim_start_ms" then Some (set_trim_start_ms self x)
      else if String.eqb name "trim_end_ms" then Some (set_trim_end_ms self x)
      else None
  | integer n =>
      if String.eqb name "hp_freq" then Some (set_hp_freq self n)
      else if String.eqb name "lp_freq" then Some (set_lp_freq self n)
      else None
  | boolean b =>
      if String.eqb name "normalize" then Some (set_normalize self b)
      else if String.eqb name "reverse" then Some (set_reverse self b)
      else None
  end.

(** [sub in s] for two [str]. *)
Fixpoint str_contains (sub s : string) : bool :=
  String.prefix sub s
  || match s with
     | EmptyString => false
     | String _ s' => str_contains sub s'
     end.

Record SoundDesignScreen := {
  _current_instrument : string;
  _editor_mode : bool;
  _editor_param_idx : Z;
  _current_edits : SampleEdits
}.

(** Load edits from session for current instrument. *)
Definition _load_edits_for_instrument (self : SoundDesignScreen) (session : Session)
    : option SoundDesignScreen :=
  e ← get_edits session (_current_instrument self);
  Some {| _current_instrument := _current_instrument self;
          _editor_mode := _editor_mode self;
          _editor_param_idx := 0;
          _current_edits := e |}.

(** Save current edits to session. *)
Definition _save_edits (self : SoundDesignScreen) (session : Session) : Session :=
  set_edits session (_current_instrument self) (_current_edits self).

Definition with_edits (self : SoundDesignScreen) (e : SampleEdits) : SoundDesignScreen :=
  {| _current_instrument := _current_instrument self;
     _editor_mode := _editor_mode self;
     _editor_param_idx := _editor_param_idx self;
     _current_edits := e |}.

Definition with_param_idx (self : SoundDesignScreen) (i : Z) : SoundDesignScreen :=
  {| _current_instrument := _current_instrument self;
     _editor_mode := _editor_mode self;
     _editor_param_idx := i;
     _current_edits := _current_edits self |}.

(** Adjust the currently selected editor parameter.  A field declared
    [float] holds an [int] or a [float]; the two branches of the clamp
    give the same number for it. *)
Definition _adjust_param (key : string) (self : SoundDesignScreen) (session : Session)
    : option (SoundDesignScreen * Session) :=
  p ← py_index EDITOR_PARAMS (_editor_param_idx self);
  current ← getattr (_current_edits self) (attr p);
  let is_coarse := str_contains "shift" key in
  let step := if is_coarse then coarse_step p else fine_step p in
  let direction := if str_contains "right" key then 1 else -1 in
  new_val ←
    match current with
    | num x =>
        let new_val := (x + inject_Z (step * direction))%Q in
        (* Clamp *)
        Some (num (py_max (inject_Z (vmin p)) (py_min (inject_Z (vmax p)) new_val)))
    | integer n =>
        let new_val := n + step * direction in
        Some (integer (Z.max (vmin p) (Z.min (vmax p) new_val)))
    | boolean _ => None
    end;
  e ← setattr (_current_edits self) (attr p) new_val;
  let self := with_edits self e in
  Some (self, _save_edits self session).

(** Intercept keys when in editor mode.  [focused_input]: the focus is on
    an [Input] widget. *)
Definition on_key (focused_input : bool) (key : string)
    (self : SoundDesignScreen) (session : Session)
    : option (SoundDesignScreen * Session) :=
  if negb (_editor_mode self) then Some (self, session)
  else if focused_input then Some (self, session)   (* Don't intercept if focused on input *)
  else if String.eqb key "n" then
    let e := set_normalize (_current_edits self) (negb (normalize (_current_edits self))) in
    let self := with_edits self e in
    Some (self, _save_edits self session)
  else if String.eqb key "v" then
    let e := set_reverse (_current_edits self) (negb (reverse (_current_edits self))) in
    let self := with_edits self e in
    Some (self, _save_edits self session)
  else if String.eqb key "up" then
    Some (with_param_idx self (Z.max 0 (_editor_param_idx self - 1)), session)
  else if String.eqb key "down" then
    Some (with_param_idx self
            (Z.min (Z.of_nat (length EDITOR_PARAMS) - 1) (_editor_param_idx self + 1)),
          session)
  else if str_in key ["left"; "right"; "shift+left"; "shift+right"] then
    _adjust_param key self session
  else Some (self, session).

(** The keys are handled one after the other; an exception ends the
    run. *)
Fixpoint on_keys (keys : list (bool * string)) (self : SoundDesignScreen)
    (session : Session) : option (SoundDesignScreen * Session) :=
  match keys with
  | [] => Some (self, session)
  | (focused_input, key) :: keys' =>
      st ← on_key focused_input key self session;
      on_keys keys' st.1 st.2
  end.

(** ** beatgen.py: [_read_stream] of [BeatGen.render_fulltrack]

    The stream is the list of the chunks its [read] returns, the empty
    chunk at its end included or not.  [text] is
    [b.decode(errors="replace").strip()], and [on_progress] tells whether
    a callback was given; the result is the list of the lines the callback
    is called with. *)

Section ReadStream.
Variable text : list byte -> string.
Variable on_progress : bool.

(** [c in buf] for a byte. *)
Definition byte_in (c : byte) (buf : list byte) : bool := existsb (Byte.eqb c) buf.

(** [buf.find(c)] for a byte. *)
Fixpoint find (c : byte) (buf : list byte) : Z :=
  match buf with
  | [] => -1
  | b :: rest =>
      if Byte.eqb b c then 0
      else let i := find c rest in if (i =? -1)%Z then -1 else i + 1
  end.

(** The loop [while b"\r" in buf or b"\n" in buf]: the lines passed to
    the callback and the buffer that is left.  Every turn shortens the
    buffer; [fuel] bounds the number of turns. *)
Fixpoint split_lines (fuel : nat) (buf : list byte) : list string * list byte :=
  match fuel with
  | O => ([], buf)
  | S fuel' =>
      if byte_in x0d buf || byte_in x0a buf then
        (* Find earliest separator *)
        let r_pos := find x0d buf in
        let n_pos := find x0a buf in
        let pos :=
          if (r_pos =? -1)%Z then n_pos
          else if (n_pos =? -1)%Z then r_pos
          else Z.min r_pos n_pos in
        let line := text (take (Z.to_nat pos) buf) in
        let buf := drop (Z.to_nat (pos + 1)) buf in
        let (lines, buf) := split_lines fuel' buf in
        ((if negb (String.eqb line "") && on_progress then [line] else []) ++ lines, buf)
      else ([], buf)
  end.

(** The loop [while stream]: it ends at the first empty chunk. *)
Fixpoint read_loop (chunks : list (list byte)) (buf : list byte)
    : list string * list byte :=
  match chunks with
  | [] => ([], buf)
  | chunk :: chunks' =>
      match chunk with
      | [] => ([], buf)   (* break *)
      | _ =>
          let buf := buf ++ chunk in
          let (lines, buf) := split_lines (length buf) buf in
          let (more, buf) := read_loop chunks' buf in
          (lines ++ more, buf)
      end
  end.

Definition _read_stream (chunks : list (list byte)) : list string :=
  let (lines, buf) := read_loop chunks [] in
  (* Flush remaining *)
  lines ++ (if negb (Nat.eqb (length buf) 0) && on_progress then [text buf] else []).
End ReadStream.

(** ** sound_design.py: the edit mark of the instrument list

    [has_edits = inst in self.app.session.edits], as
    [_populate_instruments] and [_update_instrument_indicators] compute it
    to draw the mark [*] next to an instrument. *)
Definition has_edits (session : Session) (inst : string) : bool :=
  bool_decide (is_Some (edits session !! inst)).

(** * Vocabulary of the statements *)

(** ** Filter chain *)

(** The end offset of the trim filter, the effective duration and the fade
    parameters, as [build_filter_chain] computes them. *)
Definition trim_end (edits : SampleEdits) (duration_ms : Q) : Q :=
  if Qltb (duration_ms - trim_end_ms edits) (trim_start_ms edits)
  then (trim_start_ms edits + 50)%Q
  else (duration_ms - trim_end_ms edits)%Q.

Definition effective_dur_s (edits : SampleEdits) (duration_ms : Q) : Q :=
  py_max ((duration_ms - trim_start_ms edits - trim_end_ms edits) / 1000) (5 # 100).

Definition attack_s (edits : SampleEdits) (duration_ms : Q) : Q :=
  py_min (attack_ms edits / 1000) (effective_dur_s edits duration_ms * (9 # 10)).

Definition release_s (edits : SampleEdits) (duration_ms : Q) : Q :=
  py_min (release_ms edits / 1000) (effective_dur_s edits duration_ms * (9 # 10)).

Definition fade_start (edits : SampleEdits) (duration_ms : Q) : Q :=
  py_max (effective_dur_s edits duration_ms - release_s edits duration_ms) 0.

(** The place of a filter in the fixed order
    trim, timestamp reset, reverse, fade in, fade out, gain, high-pass,
    low-pass, normalize, pitch (set rate, resample). *)
Definition position (f : audio_filter) : nat :=
  match f with
  | atrim _ _ => 0
  | asetpts => 1
  | areverse => 2
  | afade_in _ => 3
  | afade_out _ _ => 4
  | volume _ => 5
  | highpass _ => 6
  | lowpass _ => 7
  | dynaudnorm => 8
  | asetrate _ _ => 9
  | aresample _ => 10
  end.

(** The stage of the specification a filter belongs to: 1 trim, 2 reverse,
    3 fades, 4 gain, 5 tone filters, 6 normalize, 7 pitch shift. *)
Definition stage (f : audio_filter) : nat :=
  match f with
  | atrim _ _ | asetpts => 1
  | areverse => 2
  | afade_in _ | afade_out _ _ => 3
  | volume _ => 4
  | highpass _ | lowpass _ => 5
  | dynaudnorm => 6
  | asetrate _ _ | aresample _ => 7
  end.

(** The filters [play_with_edits] asks ffmpeg to apply. *)
Definition edits_filters (edits : SampleEdits) (duration_ms : Q) (pitch : Z)
    : list audio_filter :=
  chain_filters edits duration_ms
  ++ (if (pitch =? 0)%Z then [] else pitch_filters pitch).

(** ** Waveform *)

(** The samples [get_waveform] decodes from the bytes of ffmpeg. *)
Definition decode (raw : list byte) : list Z :=
  unpack_samples (take (Z.to_nat (Z.of_nat (length raw) / 2 * 2)) raw).

(** [v] is the peak of the window of [samples] that starts at index [lo]
    and ends before index [hi]: the largest absolute value of a sample in
    it, and 0 when it holds no sample. *)
Definition window_peak (samples : list Z) (lo hi v : Z) : Prop :=
  (forall j s, lo <= j < hi -> samples !! Z.to_nat j = Some s -> Z.abs s <= v)
  /\ ((exists j s, lo <= j < hi /\ samples !! Z.to_nat j = Some s /\ v = Z.abs s)
      \/ (v = 0 /\ forall j, lo <= j < hi -> samples !! Z.to_nat j = None)).

(** [m] is the largest element of [l]. *)
Definition is_maximum (l : list Z) (m : Z) : Prop :=
  m ∈ l /\ forall x, x ∈ l -> x <= m.

(** [out] is the peak envelope of [samples] over [bins] contiguous windows
    of [size] samples each: one value per window, the peak of the window
    divided by the largest peak, or every value 0 when the largest peak
    is 0; every value lies between 0 and 1. *)
Definition envelope (size : Z) (samples : list Z) (bins : Z) (out : list Q) : Prop :=
  exists (peaks : list Z) (mx : Z),
    Z.of_nat (length out) = bins
    /\ length peaks = length out
    /\ (forall i p, peaks !! i = Some p ->
          window_peak samples (Z.of_nat i * size) (Z.of_nat i * size + size) p)
    /\ is_maximum peaks mx
    /\ (forall i p, peaks !! i = Some p ->
          exists v, out !! i = Some v
            /\ (0 < mx -> (v == inject_Z p / inject_Z mx)%Q)
            /\ (mx = 0 -> (v == 0)%Q))
    /\ Forall (fun v => (0 <= v <= 1)%Q) out.

(** The window size in the words of the specification:
    [floor(total_samples / bin_count)]. *)
Definition window_size_spec (total_samples bin_count : Z) : Z :=
  total_samples / bin_count.

(** The window size of the code: [max(1, n_samples // bins)]. *)
Definition window_size (n_samples bins : Z) : Z :=
  Z.max 1 (n_samples / bins).

(** ** Catalog *)

(** Every character of [s] satisfies [p]. *)
Fixpoint all_chars (p : ascii -> bool) (s : string) : bool :=
  match s with
  | EmptyString => true
  | String c s' => p c && all_chars p s'
  end.

(** [s] does not start with a character that satisfies [p]. *)
Definition stops (p : ascii -> bool) (s : string) : bool :=
  match s with
  | EmptyString => true
  | String c _ => negb (p c)
  end.

(** Some character of [s] is a decimal digit. *)
Fixpoint has_digit (s : string) : bool :=
  match s with
  | EmptyString => false
  | String c s' => is_digit c || has_digit s'
  end.

(** The [SampleFile] that [_parse_file] builds for entry [f] once it has
    settled on an instrument, a variant number and a MIDI note. *)
Definition sample_of (self : SampleManager) (f : dir_entry) (inst : string)
    (variant midi : option Z) : SampleFile :=
  {| path := (dir self ++ "/" ++ entry_name f)%string;
     filename := entry_name f;
     instrument := inst;
     variant_num := variant;
     size_bytes := st_size f;
     duration_estimate := rough_duration (st_size f);
     midi_note := midi |}.

(** The drum instruments of [DRUM_NOTE_MAP] that have no bucket in the
    result of [scan]. *)
Definition UNBUCKETED : list string :=
  ["pedal-hihat"; "crash"; "ride"; "cowbell"; "clave"].

(** The keys are the instruments, and a sample is in the bucket of its
    instrument. *)
Definition buckets_ok (m : gmap string (list SampleFile)) : Prop :=
  dom m = list_to_set ALL_INSTRUMENTS
  /\ forall k l s, m !! k = Some l -> s ∈ l -> instrument s = k.

(** ** Player *)

(** Commands of a given kind. *)
Definition is_afplay (c : command) : bool :=
  match c with afplay _ => true | ffmpeg _ _ _ => false end.

Definition any_command (c : command) : bool := true.

(** Process [pid] runs a command of kind [K] and has not ended. *)
Definition live (K : command -> bool) (o : OS) (pid : nat) : Prop :=
  exists p, procs o !! pid = Some p /\ returncode p = None /\ K (cmd p) = true.

Definition at_most_one_live (K : command -> bool) (o : OS) : Prop :=
  forall i j, live K o i -> live K o j -> i = j.

(** [o'] has the processes of [o], some of which may have ended since. *)
Definition quieter (o o' : OS) : Prop :=
  length (procs o') = length (procs o)
  /\ forall i p, procs o !! i = Some p ->
       exists p', procs o' !! i = Some p' /\ cmd p' = cmd p
                  /\ (forall rc, returncode p = Some rc -> returncode p' = Some rc).

(** The operating system and the history: what the outside world can
    observe of a state. *)
Definition world : Type := OS * list (event * OS).

Definition world_of (s : state) : world := (os s, history s).

(** Process [pid] has been sent SIGKILL in the history [h]. *)
Definition killed (h : list (event * OS)) (pid : nat) : Prop :=
  exists o, (Killed pid, o) ∈ h.

(** Process [pid] runs a command of kind [K], has not ended and has not
    been sent SIGKILL. *)
Definition running (K : command -> bool) (w : world) (pid : nat) : Prop :=
  live K (fst w) pid /\ ~ killed (snd w) pid.

Definition at_most_one_running (K : command -> bool) (w : world) : Prop :=
  forall i j, running K w i -> running K w j -> i = j.

(** Every process of kind [K] that has not ended has been sent SIGKILL. *)
Definition none_running (K : command -> bool) (w : world) : Prop :=
  forall i, live K (fst w) i -> killed (snd w) i.

(** [P] holds of every event of the history [h] (newest first), in the
    world as it was right after the event. *)
Fixpoint always (P : event -> world -> Prop) (h : list (event * OS)) : Prop :=
  match h with
  | [] => True
  | m :: old => P (fst m) (snd m, m :: old) /\ always P old
  end.

(** A moment of the history is in order for the commands of kind [K]: at
    most one of them runs, and none runs when a file is deleted. *)
Definition moment_ok (K : command -> bool) (ev : event) (w : world) : Prop :=
  at_most_one_running K w
  /\ forall f, ev = Unlinked f -> none_running K w.

(** Every running process of kind [K] is the one the player holds. *)
Definition held (K : command -> bool) (s : state) : Prop :=
  forall pid, running K (world_of s) pid -> _process (self s) = Some pid.

(** The history speaks of processes that exist. *)
Definition pids_known (w : world) : Prop :=
  forall pid, killed (snd w) pid -> (pid < length (procs (fst w)))%nat.

(** The state between two calls, for the commands of kind [K]. *)
Definition settled (K : command -> bool) (s : state) : Prop :=
  held K s /\ always (moment_ok K) (history s) /\ pids_known (world_of s).

(** The player holds a process only while no temporary file is
    registered. *)
Definition tidy (s : state) : Prop :=
  forall pid, _process (self s) = Some pid -> _temp_files (self s) = [].

(** An event of [stop] on the process it holds. *)
Definition signal_event (pid : nat) (ev : event) : Prop :=
  ev = Terminated pid \/ ev = Killed pid \/ exists rc, ev = Exited pid rc.

(** What a completed [stop] has done to state [s]: the player is as new,
    the process it held has ended or has been sent SIGKILL, and the
    history has grown by the signals to that process followed by the
    deletions of the registered files (the history is newest first). *)
Definition stopped (env : Env) (s s' : state) : Prop :=
  self s' = Player_new
  /\ quieter (os s) (os s')
  /\ (forall pid, _process (self s) = Some pid ->
        exited (os s') pid = true \/ killed (history s') pid)
  /\ files (os s') ⊆ files (os s)
  /\ ((forall k, unlink_oserror env k = false) ->
      forall f, f ∈ _temp_files (self s) -> f ∉ files (os s'))
  /\ exists deletions signals,
       history s' = deletions ++ signals ++ history s
       /\ Forall (fun m =>
            (exists pid, _process (self s) = Some pid /\ is_playing s = true
                         /\ signal_event pid (fst m))
            /\ quieter (os s) (snd m)
            /\ files (snd m) = files (os s)) signals
       /\ Forall (fun m =>
            (exists f, fst m = Unlinked f /\ f ∈ _temp_files (self s))
            /\ procs (snd m) = procs (os s')) deletions.

(** What a [stop] cancelled during [wait_for] has done: the signal is sent
    and nothing else has changed. *)
Definition stop_interrupted (s s' : state) : Prop :=
  self s' = self s /\ os s' = os s
  /\ is_playing s = true
  /\ exists pid, _process (self s) = Some pid
       /\ history s' = (Terminated pid, os s) :: history s.

(** The outcome of running [m] in state [s] satisfies [Q] when [m]
    returns and [E] when it raises. *)
Definition wp {A} (m : M A) (Q : A -> state -> Prop) (E : exn -> state -> Prop)
    (s : state) : Prop :=
  match m s with
  | Return a s' => Q a s'
  | Raise e s' => E e s'
  end.

(** The [try] statement of [stop]. *)
Definition signal_process (env : Env) (pid : nat) : M unit :=
  try_except
    (terminate env pid ;;
     wait_for env pid)
    (fun e =>
       match e with
       | ProcessLookupError | TimeoutError =>
           try_except (kill env pid)
             (fun e' => match e' with
                        | ProcessLookupError => ret tt
                        | _ => raise e'
                        end)
       | _ => raise e
       end).

(** What the [try] statement of [stop] has done when it completes. *)
Definition signalled (pid : nat) (s s' : state) : Prop :=
  self s' = self s
  /\ quieter (os s) (os s')
  /\ (exited (os s') pid = true \/ killed (history s') pid)
  /\ files (os s') = files (os s)
  /\ exists signals,
       history s' = signals ++ history s
       /\ Forall (fun m => signal_event pid (fst m)
                           /\ quieter (os s) (snd m)
                           /\ files (snd m) = files (os s)) signals.

(** Steps of the world. *)
Definition w_create (f : string) (w : world) : world :=
  let o := add_file f (fst w) in (o, (Created f, o) :: snd w).

Definition w_spawn (c : command) (w : world) : world :=
  let o := add_process c (fst w) in
  (o, (Spawned (length (procs (fst w))) c, o) :: snd w).

Definition w_exit (pid : nat) (rc : Z) (w : world) : world :=
  let o := end_process pid rc (fst w) in (o, (Exited pid rc, o) :: snd w).

(** The kill of a child by the event loop, which waits for its end. *)
Definition w_kill (pid : nat) (w : world) : world :=
  let o := end_process pid (-9) (fst w) in (o, (Killed pid, o) :: snd w).

(** A spawn that raised [e]: the executable was missing, or the task was
    cancelled and the event loop killed the child it had started. *)
Definition w_spawn_failed (c : command) (e : exn) (w w' : world) : Prop :=
  (e = FileNotFoundError /\ w' = w)
  \/ (e = CancelledError /\ w' = w_kill (length (procs (fst w))) (w_spawn c w)).

(** The outcomes of [play path] from state [s]. *)
Inductive play_outcome (env : Env) (path : string) (s : state) : result unit -> Prop :=
  | play_interrupted s' :
      stop_interrupted s s' ->
      play_outcome env path s (Raise CancelledError s')
  | play_failed s1 e s' :
      stopped env s s1 ->
      self s' = {| _process := None; _current_file := Some path; _temp_files := [] |} ->
      w_spawn_failed (afplay path) e (world_of s1) (world_of s') ->
      play_outcome env path s (Raise e s')
  | play_started s1 s' :
      stopped env s s1 ->
      self s' = {| _process := Some (length (procs (os s1)));
                   _current_file := Some path; _temp_files := [] |} ->
      world_of s' = w_spawn (afplay path) (world_of s1) ->
      play_outcome env path s (Return tt s').

(** The part [play_pitched] and [play_with_edits] have in common: render
    [path] through ffmpeg with the filter chain [af] into a new temporary
    file, and play that file when ffmpeg exits with status 0. *)
Definition render_and_play `{NumberFormat} (env : Env) (path af : string) : M unit :=
  stop env ;;
  tmp_path <- NamedTemporaryFile env ;;
  fs <- gets (fun s => _temp_files (self s)) ;;
  set_temp_files (fs ++ [tmp_path]) ;;
  proc <- create_subprocess_exec env (ffmpeg path af tmp_path) ;;
  rc <- wait env proc ;;
  if (rc =? 0)%Z then play env tmp_path else ret tt.

(** [render_and_play] up to its [await proc.wait()]: the coroutine is
    suspended there while ffmpeg runs, with the process and the file it
    goes on with when it is resumed. *)
Definition render_begin `{NumberFormat} (env : Env) (path af : string)
    : M (nat * string) :=
  stop env ;;
  tmp_path <- NamedTemporaryFile env ;;
  fs <- gets (fun s => _temp_files (self s)) ;;
  set_temp_files (fs ++ [tmp_path]) ;;
  proc <- create_subprocess_exec env (ffmpeg path af tmp_path) ;;
  ret (proc, tmp_path).

(** [render_and_play] from its [await proc.wait()] on. *)
Definition render_resume (env : Env) (suspended : nat * string) : M unit :=
  rc <- wait env (fst suspended) ;;
  if (rc =? 0)%Z then play env (snd suspended) else ret tt.

(** The outcomes of [render_and_play path af] from state [s]. *)
Inductive render_outcome (env : Env) (path af : string) (s : state)
    : result unit -> Prop :=
  | render_interrupted s' :
      stop_interrupted s s' ->
      render_outcome env path af s (Raise CancelledError s')
  | render_not_started s1 tmp e s' :
      stopped env s s1 ->
      self s' = {| _process := None; _current_file := None; _temp_files := [tmp] |} ->
      w_spawn_failed (ffmpeg path af tmp) e
        (w_create tmp (world_of s1)) (world_of s') ->
      render_outcome env path af s (Raise e s')
  | render_abandoned s1 tmp s' :
      stopped env s s1 ->
      self s' = {| _process := None; _current_file := None; _temp_files := [tmp] |} ->
      world_of s' = w_spawn (ffmpeg path af tmp) (w_create tmp (world_of s1)) ->
      (exists k, wait_cancelled env k = true) ->
      render_outcome env path af s (Raise CancelledError s')
  | render_failed s1 tmp rc s' :
      stopped env s s1 ->
      rc <> 0 ->
      self s' = {| _process := None; _current_file := None; _temp_files := [tmp] |} ->
      world_of s' = w_exit (length (procs (os s1))) rc
                      (w_spawn (ffmpeg path af tmp) (w_create tmp (world_of s1))) ->
      render_outcome env path af s (Return tt s')
  | render_played s1 tmp s2 r :
      stopped env s s1 ->
      self s2 = {| _process := None; _current_file := None; _temp_files := [tmp] |} ->
      world_of s2 = w_exit (length (procs (os s1))) 0
                      (w_spawn (ffmpeg path af tmp) (w_create tmp (world_of s1))) ->
      play_outcome env tmp s2 r ->
      render_outcome env path af s r.

(** Nothing of kind [K] runs, and every moment so far was in order. *)
Definition quiet (K : command -> bool) (w : world) : Prop :=
  none_running K w /\ always (moment_ok K) (snd w) /\ pids_known w.

(** Only process [pid] may run among those of kind [K], and every moment
    so far was in order. *)
Definition only (K : command -> bool) (pid : nat) (w : world) : Prop :=
  (forall i, running K w i -> i = pid) /\ always (moment_ok K) (snd w) /\ pids_known w.

(** An event of [stop] from state [s]: a deletion, or a signal to the
    process that [s] holds and that is playing. *)
Definition stop_event (s : state) (ev : event) : Prop :=
  (exists f, ev = Unlinked f)
  \/ (exists pid, _process (self s) = Some pid /\ is_playing s = true
                  /\ signal_event pid ev).

(** An event of [play path] from state [s]: an event of [stop], the spawn
    of the player, or its kill when the spawn is cancelled. *)
Definition play_event (path : string) (s : state) (ev : event) : Prop :=
  stop_event s ev
  \/ ev = Spawned (length (procs (os s))) (afplay path)
  \/ ev = Killed (length (procs (os s))).

(** A call that rendered [path] with filter chain [af] and whose render
    failed leaves no playback behind: when the events [new] the call added
    to the history hold the spawn of that ffmpeg and its exit with a
    status other than 0, the call returned, the player is idle, and no
    player was spawned. *)
Definition render_failure_is_quiet (path af : string) (s : state)
    (r : result unit) : Prop :=
  forall new pid tmp rc o o',
    history (state_of r) = new ++ history s ->
    (Spawned pid (ffmpeg path af tmp), o) ∈ new ->
    (Exited pid rc, o') ∈ new ->
    rc <> 0 ->
    (exists s', r = Return tt s')
    /\ is_playing (state_of r) = false
    /\ _process (self (state_of r)) = None
    /\ forall pid' p o'', (Spawned pid' (afplay p), o'') ∉ new.

(** *** Environments and a number format for the examples *)

(** Numbers printed as fractions; [2 ** (n / d)] printed as an expression. *)
Definition fraction_format : NumberFormat :=
  {| fmt_float := fun q => (pretty (Qnum q) ++ "/" ++ pretty (Zpos (Qden q)))%string;
     fmt_3f := fun q => (pretty (Qnum q) ++ "/" ++ pretty (Zpos (Qden q)))%string;
     fmt_rate := fun k => match k with
                          | pow2 n d => ("2**(" ++ pretty n ++ "/" ++ pretty d ++ ")")%string
                          end |}.

(** Every process ends when asked to, every render succeeds, nothing is
    cancelled and nothing fails. *)
Definition calm : Env :=
  {| terminate_gone := fun _ => None;
     exit_within_timeout := fun _ => Some (-15);
     wait_for_cancelled := fun _ => false;
     kill_gone := fun _ => None;
     spawn_missing := fun _ => false;
     spawn_cancelled := fun _ => false;
     exit_code := fun _ => 0;
     wait_cancelled := fun _ => false;
     tmp_name := fun k => ("/tmp/tmp" ++ pretty k ++ ".wav")%string;
     unlink_oserror := fun _ => false |}.

(** As [calm], but every render exits with status 1. *)
Definition failing_render : Env :=
  {| terminate_gone := terminate_gone calm;
     exit_within_timeout := exit_within_timeout calm;
     wait_for_cancelled := wait_for_cancelled calm;
     kill_gone := kill_gone calm;
     spawn_missing := spawn_missing calm;
     spawn_cancelled := spawn_cancelled calm;
     exit_code := fun _ => 1;
     wait_cancelled := wait_cancelled calm;
     tmp_name := tmp_name calm;
     unlink_oserror := unlink_oserror calm |}.

(** As [calm], but the task is cancelled whenever it waits for a render. *)
Definition cancelled_render : Env :=
  {| terminate_gone := terminate_gone calm;
     exit_within_timeout := exit_within_timeout calm;
     wait_for_cancelled := wait_for_cancelled calm;
     kill_gone := kill_gone calm;
     spawn_missing := spawn_missing calm;
     spawn_cancelled := spawn_cancelled calm;
     exit_code := exit_code calm;
     wait_cancelled := fun _ => true;
     tmp_name := tmp_name calm;
     unlink_oserror := unlink_oserror calm |}.

(** As [calm], but no process ends within a second of SIGTERM. *)
Definition stubborn : Env :=
  {| terminate_gone := terminate_gone calm;
     exit_within_timeout := fun _ => None;
     wait_for_cancelled := wait_for_cancelled calm;
     kill_gone := kill_gone calm;
     spawn_missing := spawn_missing calm;
     spawn_cancelled := spawn_cancelled calm;
     exit_code := exit_code calm;
     wait_cancelled := wait_cancelled calm;
     tmp_name := tmp_name calm;
     unlink_oserror := unlink_oserror calm |}.

(** As [calm], but every unlink fails. *)
Definition read_only : Env :=
  {| terminate_gone := terminate_gone calm;
     exit_within_timeout := exit_within_timeout calm;
     wait_for_cancelled := wait_for_cancelled calm;
     kill_gone := kill_gone calm;
     spawn_missing := spawn_missing calm;
     spawn_cancelled := spawn_cancelled calm;
     exit_code := exit_code calm;
     wait_cancelled := wait_cancelled calm;
     tmp_name := tmp_name calm;
     unlink_oserror := fun _ => true |}.

(** A player that holds a running [afplay] on a temporary file that is
    registered and on disk. *)
Definition playing_registered : state :=
  let o0 := {| procs := []; files := {["/tmp/a.wav"]} |} in
  let o1 := add_process (afplay "/tmp/a.wav") o0 in
  {| self := {| _process := Some 0%nat; _current_file := Some "/tmp/a.wav";
                _temp_files := ["/tmp/a.wav"] |};
     os := o1;
     clock := 2;
     history := [(Spawned 0 (afplay "/tmp/a.wav"), o1); (Created "/tmp/a.wav", o0)] |}.

(** ** Waveform line *)

(** The index into [WAVEFORM_BLOCKS] that [render_waveform] computes for a
    peak. *)
Definition block_index (p : Q) : Z := Z.min (py_int (p * 7)) 7.

(** ** Catalog contents *)

(** The entries [scan] does not skip: those with the suffix [.mp3] or
    [.wav]. *)
Definition is_audio (f : dir_entry) : bool :=
  str_in (suffix (entry_name f)) [".mp3"; ".wav"].

(** The samples of instrument [k] among the entries [es], in the order of
    the entries. *)
Definition samples_of (self : SampleManager) (k : string) (es : list dir_entry)
    : list SampleFile :=
  filter (fun s => instrument s = k)
    (omap (_parse_file self) (filter (fun f => is_audio f = true) es)).

(** [a <= b] on [str]. *)
Definition str_le (a b : string) : Prop := String.leb a b = true.

(** A file system for the examples: the directory [samples] with five
    entries, and no other directory. *)
Definition example_entries : list dir_entry :=
  [ {| entry_name := "kick-v2.wav"; st_size := 10 |};
    {| entry_name := "36-kick.wav"; st_size := 20 |};
    {| entry_name := "notes.txt"; st_size := 30 |};
    {| entry_name := "44-pedal.wav"; st_size := 40 |};
    {| entry_name := "snare.mp3"; st_size := 50 |} ].

Definition example_fs : file_system :=
  fun d => if String.eqb d "samples" then Some example_entries else None.

(** ** Files of the player *)

(** File [f] was created at some moment of the history [h]. *)
Definition created (f : string) (h : list (event * OS)) : Prop :=
  exists o, (Created f, o) ∈ h.

(** Every deletion of the history [h] (newest first) comes after the
    creation of the file it deletes. *)
Fixpoint deletes_own (h : list (event * OS)) : Prop :=
  match h with
  | [] => True
  | m :: old => (forall f, fst m = Unlinked f -> created f old) /\ deletes_own old
  end.

(** The files the player has registered were created in the history, and
    so were the files deleted in it. *)
Definition owns (s : state) : Prop :=
  Forall (fun f => created f (history s)) (_temp_files (self s))
  /\ deletes_own (history s).

(** A new player in the world [o]. *)
Definition fresh (o : OS) : state :=
  {| self := Player_new; os := o; clock := 0; history := [] |}.

(** ** Bars *)

(** A bar of [width] characters of which the first [filled] are full
    blocks and the others light shades. *)
Definition bar (width filled : nat) : list N :=
  replicate filled 0x2588%N ++ replicate (width - filled) 0x2591%N.

(** ** Mixer *)

(** A volume within the range of the mixer, from -24 dB to 12 dB. *)
Definition in_vol_range (v : Q) : Prop :=
  (inject_Z VOL_MIN <= v <= inject_Z VOL_MAX)%Q.

(** What the actions of the mixer keep, for the instruments [insts] of the
    screen. *)
Definition mixer_inv (insts : list string) (ranged : Prop) (self : MixerScreen) : Prop :=
  _instruments self = insts
  /\ 0 <= _current_row self
  /\ (insts <> [] -> _current_row self < Z.of_nat (length insts))
  /\ dom (_volumes self) = list_to_set insts
  /\ (ranged -> forall k v, _volumes self !! k = Some v -> in_vol_range v).

(** ** Sample editor *)

(** The value [v] lies within the range of the parameter [p]. *)
Definition within (p : editor_param) (v : value) : Prop :=
  match v with
  | num x => (inject_Z (vmin p) <= x <= inject_Z (vmax p))%Q
  | integer n => vmin p <= n <= vmax p
  | boolean _ => False
  end.

(** Every parameter of [EDITOR_PARAMS] lies within its range. *)
Definition in_ranges (e : SampleEdits) : Prop :=
  Forall (fun p => exists v, getattr e (attr p) = Some v /\ within p v) EDITOR_PARAMS.

(** The session holds, for the instrument of the screen, edits equal
    ([==]) to those of the screen. *)
Definition in_sync (self : SoundDesignScreen) (session : Session) : Prop :=
  exists e, get_edits session (_current_instrument self) = Some e
            /\ SampleEdits_eq (_current_edits self) e = true.

(** ** Progress lines *)

(** A separator of progress lines: carriage return or line feed. *)
Definition is_sep (b : byte) : bool := Byte.eqb b x0d || Byte.eqb b x0a.

(** The call of the callback for the bytes [line] of a line: none when
    the text of the line is empty or no callback was given. *)
Definition emit_line (text : list byte -> string) (on_progress : bool)
    (line : list byte) : list string :=
  if negb (String.eqb (text line) "") && on_progress then [text line] else [].

(** The lines of [buf], with the bytes [acc] before it that belong to its
    first line: the texts of the stretches that end at a separator, the
    empty ones left out, and the bytes after the last separator. *)
Fixpoint lines_from (text : list byte -> string) (on_progress : bool)
    (acc buf : list byte) : list string * list byte :=
  match buf with
  | [] => ([], acc)
  | b :: rest =>
      if is_sep b then
        let (lines, left) := lines_from text on_progress [] rest in
        (emit_line text on_progress acc ++ lines, left)
      else lines_from text on_progress (acc ++ [b]) rest
  end.

(** ** Sessions *)

(** A session that has no edits, selections or volumes yet. *)
Definition new_session : Session :=
  {| selections := ∅; edits := ∅; mix_volumes := ∅ |}.

(** The session after the calls [set_edits(instrument, e)] for the pairs
    of [calls], in their order. *)
Definition after_set_edits (calls : list (string * SampleEdits)) (s : Session) : Session :=
  foldl (fun s c => set_edits s c.1 c.2) s calls.

(** * Theorems *)

(** ** Numbers *)

Lemma Qltb_lt (a b : Q) : Qltb a b = true <-> (a < b)%Q.
Proof.
  unfold Qltb. rewrite negb_true_iff. split.
  - intros Hf. apply Qnot_le_lt. intros Hle.
    apply Qle_bool_iff in Hle. congruence.
  - intros Hlt. destruct (Qle_bool b a) eqn:E; [|reflexivity].
    apply Qle_bool_iff in E. exfalso. apply (Qlt_not_le _ _ Hlt E).
Qed.

Lemma Qltb_ge (a b : Q) : Qltb a b = false <-> (b <= a)%Q.
Proof.
  unfold Qltb. rewrite negb_false_iff. apply Qle_bool_iff.
Qed.

Lemma py_max_Qmax (a b : Q) : (py_max a b == Qmax a b)%Q.
Proof.
  unfold py_max. destruct (Qltb a b) eqn:E.
  - apply Qltb_lt in E. symmetry. apply Q.max_r. lra.
  - apply Qltb_ge in E. symmetry. apply Q.max_l. exact E.
Qed.

Lemma py_min_Qmin (a b : Q) : (py_min a b == Qmin a b)%Q.
Proof.
  unfold py_min. destruct (Qltb b a) eqn:E.
  - apply Qltb_lt in E. symmetry. apply Q.min_r. lra.
  - apply Qltb_ge in E. symmetry. apply Q.min_l. exact E.
Qed.

(** ** Filter chain *)

(** [build_filter_chain] appends at most one group of filters per step. *)
Lemma chain_filters_eq (e : SampleEdits) (d : Q) :
  chain_filters e d =
    (if Qltb 0 (trim_start_ms e) || Qltb 0 (trim_end_ms e)
     then [atrim (trim_start_ms e) (trim_end e d); asetpts] else [])
    ++ (if reverse e then [areverse] else [])
    ++ (if Qltb 0 (attack_ms e) then [afade_in (attack_s e d)] else [])
    ++ (if Qltb 0 (release_ms e)
        then [afade_out (fade_start e d) (release_s e d)] else [])
    ++ (if negb (Qeq_bool (gain_db e) 0) then [volume (gain_db e)] else [])
    ++ (if (20 <? hp_freq e)%Z then [highpass (hp_freq e)] else [])
    ++ (if (lp_freq e <? 20000)%Z then [lowpass (lp_freq e)] else [])
    ++ (if normalize e then [dynaudnorm] else []).
Proof.
  unfold chain_filters, trim_end, attack_s, release_s, fade_start, effective_dur_s.
  cbv zeta.
  destruct (Qltb 0 (trim_start_ms e) || Qltb 0 (trim_end_ms e));
    destruct (reverse e); destruct (Qltb 0 (attack_ms e));
    destruct (Qltb 0 (release_ms e)); destruct (negb (Qeq_bool (gain_db e) 0));
    destruct (20 <? hp_freq e)%Z; destruct (lp_freq e <? 20000)%Z;
    destruct (normalize e); reflexivity.
Qed.

Lemma filter_text_nonempty `{NumberFormat} (f : audio_filter) :
  exists c s, filter_text f = String c s.
Proof. destruct f; simpl; eauto. Qed.

Lemma join_filters_empty `{NumberFormat} (l : list audio_filter) :
  join_filters l = "" <-> l = [].
Proof.
  split; [|intros ->; reflexivity].
  destruct l as [|f l]; [reflexivity|].
  unfold join_filters. simpl.
  destruct (filter_text_nonempty f) as (c & s & ->).
  destruct (map filter_text l); simpl; discriminate.
Qed.

Lemma string_app_assoc (a b c : string) :
  ((a ++ b) ++ c = a ++ (b ++ c))%string.
Proof.
  induction a as [|x a IH]; [reflexivity|].
  change (String x ((a ++ b) ++ c) = String x (a ++ (b ++ c)))%string.
  now rewrite IH.
Qed.

Lemma join_filters_cons `{NumberFormat} (f : audio_filter) (l : list audio_filter) :
  l <> [] ->
  join_filters (f :: l) = (filter_text f ++ "," ++ join_filters l)%string.
Proof. destruct l; [congruence | reflexivity]. Qed.

Lemma join_filters_app `{NumberFormat} (l1 l2 : list audio_filter) :
  l1 <> [] -> l2 <> [] ->
  join_filters (l1 ++ l2) = (join_filters l1 ++ "," ++ join_filters l2)%string.
Proof.
  intros H1 H2. induction l1 as [|f l1 IH]; [congruence|].
  destruct l1 as [|g l1].
  - simpl app. now rewrite join_filters_cons.
  - change ((f :: g :: l1) ++ l2) with (f :: ((g :: l1) ++ l2)).
    rewrite !join_filters_cons by (simpl; congruence).
    rewrite IH by congruence.
    now rewrite ?string_app_assoc.
Qed.

Lemma pitch_filter_text_join `{NumberFormat} (semitones : Z) :
  pitch_filter_text semitones = join_filters (pitch_filters semitones).
Proof. reflexivity. Qed.

(** The text [play_with_edits] computes is the join of [edits_filters]. *)
Lemma edits_chain_join `{NumberFormat} (e : SampleEdits) (d : Q) (pitch : Z) :
  edits_chain e d pitch = join_filters (edits_filters e d pitch).
Proof.
  unfold edits_chain, edits_filters, build_filter_chain. cbv zeta.
  destruct (pitch =? 0)%Z; simpl negb; cbv iota.
  - now rewrite app_nil_r.
  - destruct (String.eqb_spec (join_filters (chain_filters e d)) "") as [E|E]; simpl negb; cbv iota.
    + apply join_filters_empty in E. rewrite E. apply pitch_filter_text_join.
    + rewrite join_filters_app; [now rewrite pitch_filter_text_join | |discriminate].
      intros E'. apply E. now apply join_filters_empty.
Qed.

Lemma chain_filters_positions (e : SampleEdits) (d : Q) :
  StronglySorted lt (map position (chain_filters e d))
  /\ Forall (fun f => (position f < 9)%nat) (chain_filters e d).
Proof.
  rewrite chain_filters_eq.
  destruct (Qltb 0 (trim_start_ms e) || Qltb 0 (trim_end_ms e));
    destruct (reverse e); destruct (Qltb 0 (attack_ms e));
    destruct (Qltb 0 (release_ms e)); destruct (negb (Qeq_bool (gain_db e) 0));
    destruct (20 <? hp_freq e)%Z; destruct (lp_freq e <? 20000)%Z;
    destruct (normalize e); simpl;
    (split; repeat (constructor; simpl; try lia)).
Qed.

(** C4. Whatever subset of stages is emitted, the filters handed to ffmpeg
    come in the order trim, timestamp reset, reverse, fade in, fade out,
    gain, high-pass, low-pass, normalize, pitch: their positions increase
    strictly, so their stages never decrease.  The text computed by
    [play_with_edits] is the comma-joined list of these filters.  The edit
    chain itself has no pitch filter; when [pitch] is not 0 the pitch
    shift, [asetrate=44100*2**(pitch/12)] followed by [aresample=44100],
    is appended after it, and when [pitch] is 0 nothing is appended.
    [play_with_edits] renders with exactly this text, unless it is empty. *)
Theorem stage_order_fixed `{NumberFormat} (e : SampleEdits) (d : Q) (pitch : Z) :
  edits_chain e d pitch = join_filters (edits_filters e d pitch)
  /\ StronglySorted lt (map position (edits_filters e d pitch))
  /\ StronglySorted le (map stage (edits_filters e d pitch))
  /\ Forall (fun f => stage f <> 7%nat) (chain_filters e d)
  /\ (pitch = 0 -> edits_filters e d pitch = chain_filters e d)
  /\ (pitch <> 0 ->
      edits_filters e d pitch =
        chain_filters e d ++ [asetrate 44100 (pow2 pitch 12); aresample 44100])
  /\ (forall env path,
        play_with_edits env path e d pitch =
          if String.eqb (edits_chain e d pitch) "" then play env path
          else render_and_play env path (edits_chain e d pitch)).
Proof.
  destruct (chain_filters_positions e d) as [Hs Hlt].
  assert (Hpos : StronglySorted lt (map position (edits_filters e d pitch))).
  { unfold edits_filters. destruct (pitch =? 0)%Z.
    - now rewrite app_nil_r.
    - induction (chain_filters e d) as [|f l IH]; simpl.
      + repeat (constructor; simpl; try lia).
      + inversion Hs; subst. inversion Hlt; subst.
        constructor; [now apply IH|].
        rewrite map_app, Forall_app. split; [assumption|].
        simpl. repeat (constructor; [lia|]). constructor. }
  split; [apply edits_chain_join|].
  split; [exact Hpos|].
  split.
  { clear -Hpos. induction (edits_filters e d pitch) as [|f l IH]; simpl in *.
    - constructor.
    - inversion Hpos as [|? ? Hl Hf]; subst. constructor; [now apply IH|].
      clear -Hf. induction l as [|g l IH]; simpl in *; [constructor|].
      inversion Hf; subst. constructor; [|now apply IH].
      destruct f, g; simpl in *; lia. }
  split.
  { eapply Forall_impl; [exact Hlt|]. intros f Hf. destruct f; simpl in *; lia. }
  unfold edits_filters. split; [|split].
  - intros ->. simpl. now rewrite app_nil_r.
  - intros Hne. destruct (Z.eqb_spec pitch 0); [contradiction|reflexivity].
  - reflexivity.
Qed.

Lemma trim_stage_only_first (e : SampleEdits) (d : Q) :
  Forall (fun f => stage f <> 1%nat)
    ((if reverse e then [areverse] else [])
     ++ (if Qltb 0 (attack_ms e) then [afade_in (attack_s e d)] else [])
     ++ (if Qltb 0 (release_ms e)
         then [afade_out (fade_start e d) (release_s e d)] else [])
     ++ (if negb (Qeq_bool (gain_db e) 0) then [volume (gain_db e)] else [])
     ++ (if (20 <? hp_freq e)%Z then [highpass (hp_freq e)] else [])
     ++ (if (lp_freq e <? 20000)%Z then [lowpass (lp_freq e)] else [])
     ++ (if normalize e then [dynaudnorm] else [])).
Proof.
  destruct (reverse e); destruct (Qltb 0 (attack_ms e));
    destruct (Qltb 0 (release_ms e)); destruct (negb (Qeq_bool (gain_db e) 0));
    destruct (20 <? hp_freq e)%Z; destruct (lp_freq e <? 20000)%Z;
    destruct (normalize e); simpl;
    repeat (constructor; [simpl; lia|]); constructor.
Qed.

(** C6. When [trim_start_ms > 0] or [trim_end_ms > 0] the chain starts
    with the trim filter, followed by the timestamp reset, and nothing
    after them belongs to the trim stage; the start of the trim is
    [trim_start_ms] and its end is [duration_ms - trim_end_ms], except that
    it is [trim_start_ms + 50] when [duration_ms - trim_end_ms <
    trim_start_ms].  With duration 1000, trim start 900 and trim end 300
    the end is 950.  When neither trim field is positive the chain has no
    filter of the trim stage. *)
Theorem trim_clamp (e : SampleEdits) (d : Q) :
  ((0 < trim_start_ms e)%Q \/ (0 < trim_end_ms e)%Q ->
     exists end_ms rest,
       chain_filters e d = atrim (trim_start_ms e) end_ms :: asetpts :: rest
       /\ Forall (fun f => stage f <> 1%nat) rest
       /\ ((d - trim_end_ms e < trim_start_ms e)%Q ->
           end_ms = (trim_start_ms e + 50)%Q)
       /\ (~ (d - trim_end_ms e < trim_start_ms e)%Q ->
           end_ms = (d - trim_end_ms e)%Q))
  /\ (~ ((0 < trim_start_ms e)%Q \/ (0 < trim_end_ms e)%Q) ->
      Forall (fun f => stage f <> 1%nat) (chain_filters e d))
  /\ (trim_start_ms e = 900%Q -> trim_end_ms e = 300%Q ->
      exists rest, chain_filters e 1000 = atrim 900 950 :: asetpts :: rest).
Proof.
  assert (Hcond : Qltb 0 (trim_start_ms e) || Qltb 0 (trim_end_ms e) = true
                  <-> (0 < trim_start_ms e)%Q \/ (0 < trim_end_ms e)%Q).
  { rewrite orb_true_iff, !Qltb_lt. reflexivity. }
  split; [|split].
  - intros Hpos. apply Hcond in Hpos.
    rewrite chain_filters_eq, Hpos.
    exists (trim_end e d). eexists. split; [reflexivity|].
    split; [apply trim_stage_only_first|].
    unfold trim_end. split.
    + intros Hlt. apply Qltb_lt in Hlt. now rewrite Hlt.
    + intros Hge. destruct (Qltb (d - trim_end_ms e) (trim_start_ms e)) eqn:E;
        [|reflexivity].
      apply Qltb_lt in E. contradiction.
  - intros Hno. rewrite chain_filters_eq.
    destruct (Qltb 0 (trim_start_ms e) || Qltb 0 (trim_end_ms e)) eqn:E.
    + exfalso. apply Hno, Hcond. reflexivity.
    + apply trim_stage_only_first.
  - intros Hs He. rewrite chain_filters_eq. unfold trim_end.
    rewrite Hs, He. simpl. eexists. reflexivity.
Qed.

(** At duration 1000 with only the two trim fields set, to 900 and 300:
    the computed end 700 lies before the start, and the chain starts with
    the trim from 900 to 900 + 50 and the timestamp reset. *)
Lemma trim_clamp_witness :
  (1000 - 300 < 900)%Q
  /\ exists end_ms rest,
       chain_filters
         {| attack_ms := 0; release_ms := 0; gain_db := 0; normalize := false;
            hp_freq := 20; lp_freq := 20000; reverse := false;
            trim_start_ms := 900; trim_end_ms := 300 |} 1000
       = atrim 900 end_ms :: asetpts :: rest
       /\ end_ms = (900 + 50)%Q.
Proof.
  split; [reflexivity|].
  destruct (trim_clamp
    {| attack_ms := 0; release_ms := 0; gain_db := 0; normalize := false;
       hp_freq := 20; lp_freq := 20000; reverse := false;
       trim_start_ms := 900; trim_end_ms := 300 |} 1000) as (Hpos & _ & _).
  destruct Hpos as (end_ms & rest & Heq & _ & Hclamp & _).
  - left. reflexivity.
  - exists end_ms, rest. split; [exact Heq|].
    apply Hclamp. reflexivity.
Defined.

Lemma elem_of_segment {A} (x : A) (b : bool) (l : list A) :
  x ∈ (if b then l else []) <-> b = true /\ x ∈ l.
Proof.
  destruct b; [|rewrite elem_of_nil]; intuition congruence.
Qed.

Lemma afade_in_emitted (e : SampleEdits) (d : Q) (a : Q) :
  afade_in a ∈ chain_filters e d <->
  Qltb 0 (attack_ms e) = true /\ a = attack_s e d.
Proof.
  rewrite chain_filters_eq, !elem_of_app, !elem_of_segment,
    !elem_of_cons, !elem_of_nil.
  split.
  - intros [H|[H|[H|[H|[H|[H|[H|H]]]]]]];
      try (destruct H as [_ H]; intuition discriminate).
    destruct H as [Hc [H|[]]]. split; [exact Hc|congruence].
  - intros [Hc ->]. right; right; left. auto.
Qed.

Lemma afade_out_emitted (e : SampleEdits) (d : Q) (st r : Q) :
  afade_out st r ∈ chain_filters e d <->
  Qltb 0 (release_ms e) = true /\ st = fade_start e d /\ r = release_s e d.
Proof.
  rewrite chain_filters_eq, !elem_of_app, !elem_of_segment,
    !elem_of_cons, !elem_of_nil.
  split.
  - intros [H|[H|[H|[H|[H|[H|[H|H]]]]]]];
      try (destruct H as [_ H]; intuition discriminate).
    destruct H as [Hc [H|[]]]. split; [exact Hc|]. split; congruence.
  - intros (Hc & -> & ->). right; right; right; left. auto.
Qed.

Lemma Qdiv_1000 (x : Q) : (x / 1000 == x * (1 # 1000))%Q.
Proof. reflexivity. Qed.

(** The effective duration in milliseconds: floored at 50. *)
Lemma effective_dur_ms_floor (e : SampleEdits) (d : Q) :
  (effective_dur_s e d * 1000
   == Qmax (d - trim_start_ms e - trim_end_ms e) 50)%Q.
Proof.
  unfold effective_dur_s. rewrite py_max_Qmax.
  set (x := (d - trim_start_ms e - trim_end_ms e)%Q).
  destruct (Q.max_spec (x / 1000) (5 # 100)) as [[H1 E1]|[H1 E1]];
    destruct (Q.max_spec x 50) as [[H2 E2]|[H2 E2]];
    rewrite E1, E2; rewrite Qdiv_1000 in *; lra.
Qed.

Lemma fade_length_ms (x : Q) (e : SampleEdits) (d : Q) :
  (py_min (x / 1000) (effective_dur_s e d * (9 # 10)) * 1000
   == Qmin x ((9 # 10) * Qmax (d - trim_start_ms e - trim_end_ms e) 50))%Q.
Proof.
  rewrite <- effective_dur_ms_floor, py_min_Qmin.
  set (y := effective_dur_s e d).
  destruct (Q.min_spec (x / 1000) (y * (9 # 10))) as [[H1 E1]|[H1 E1]];
    destruct (Q.min_spec x ((9 # 10) * (y * 1000))) as [[H2 E2]|[H2 E2]];
    rewrite E1, E2; rewrite Qdiv_1000 in *; lra.
Qed.

(** C7. The effective duration is [duration_ms - trim_start_ms -
    trim_end_ms] floored at 50 ms.  The attack fade is in the chain iff
    [attack_ms > 0], and its length (the code holds it in seconds; times
    1000 it is in milliseconds) is [min(attack_ms, 0.9 * effective)]; the
    release fade is in the chain iff [release_ms > 0], its length is
    [min(release_ms, 0.9 * effective)] and it starts at [max(effective -
    length, 0)].  With effective duration 1000 ms and [attack_ms = 5000]
    the attack length is 900 ms. *)
Theorem fade_clamp (e : SampleEdits) (d : Q) :
  let effective_ms := Qmax (d - trim_start_ms e - trim_end_ms e) 50 in
  let attack_len_ms := Qmin (attack_ms e) ((9 # 10) * effective_ms) in
  let release_len_ms := Qmin (release_ms e) ((9 # 10) * effective_ms) in
  let release_start_ms := Qmax (effective_ms - release_len_ms) 0 in
  (effective_dur_s e d * 1000 == effective_ms)%Q
  /\ ((0 < attack_ms e)%Q -> exists a, afade_in a ∈ chain_filters e d)
  /\ (forall a, afade_in a ∈ chain_filters e d ->
        (0 < attack_ms e)%Q /\ (a * 1000 == attack_len_ms)%Q)
  /\ ((0 < release_ms e)%Q -> exists st r, afade_out st r ∈ chain_filters e d)
  /\ (forall st r, afade_out st r ∈ chain_filters e d ->
        (0 < release_ms e)%Q
        /\ (r * 1000 == release_len_ms)%Q
        /\ (st * 1000 == release_start_ms)%Q)
  /\ ((d - trim_start_ms e - trim_end_ms e == 1000)%Q ->
      (attack_ms e == 5000)%Q ->
      exists a, afade_in a ∈ chain_filters e d /\ (a * 1000 == 900)%Q).
Proof.
  cbv zeta.
  assert (Hattack : (attack_s e d * 1000 ==
            Qmin (attack_ms e)
              ((9 # 10) * Qmax (d - trim_start_ms e - trim_end_ms e) 50))%Q)
    by apply fade_length_ms.
  assert (Hrelease : (release_s e d * 1000 ==
            Qmin (release_ms e)
              ((9 # 10) * Qmax (d - trim_start_ms e - trim_end_ms e) 50))%Q)
    by apply fade_length_ms.
  split; [apply effective_dur_ms_floor|].
  split.
  { intros Hpos. exists (attack_s e d). apply afade_in_emitted.
    split; [now apply Qltb_lt|reflexivity]. }
  split.
  { intros a [Hc ->]%afade_in_emitted. split; [now apply Qltb_lt|exact Hattack]. }
  split.
  { intros Hpos. exists (fade_start e d), (release_s e d).
    apply afade_out_emitted. split; [now apply Qltb_lt|split; reflexivity]. }
  split.
  { intros st r (Hc & -> & ->)%afade_out_emitted.
    split; [now apply Qltb_lt|]. split; [exact Hrelease|].
    unfold fade_start. rewrite py_max_Qmax, <- Hrelease, <- effective_dur_ms_floor.
    set (x := effective_dur_s e d). set (y := release_s e d).
    destruct (Q.max_spec (x - y) 0) as [[H1 E1]|[H1 E1]];
      destruct (Q.max_spec (x * 1000 - y * 1000) 0) as [[H2 E2]|[H2 E2]];
      rewrite E1, E2; lra. }
  intros Heff Ha. exists (attack_s e d). split.
  { apply afade_in_emitted. split; [|reflexivity]. apply Qltb_lt. lra. }
  rewrite Hattack, Heff, Ha.
  reflexivity.
Qed.

(** An attack of 5000 ms on a sample of 1000 ms: the fade-in lasts 900 ms. *)
Lemma fade_clamp_witness :
  exists a,
    afade_in a ∈ chain_filters
      {| attack_ms := 5000; release_ms := 0; gain_db := 0; normalize := false;
         hp_freq := 20; lp_freq := 20000; reverse := false;
         trim_start_ms := 0; trim_end_ms := 0 |} 1000
    /\ (a * 1000 == 900)%Q.
Proof.
  apply (fade_clamp
    {| attack_ms := 5000; release_ms := 0; gain_db := 0; normalize := false;
       hp_freq := 20; lp_freq := 20000; reverse := false;
       trim_start_ms := 0; trim_end_ms := 0 |} 1000); reflexivity.
Defined.

(** ** Waveform *)

Lemma max_of_nonneg (l : list Z) : 0 <= max_of l.
Proof. induction l; simpl; lia. Qed.

Lemma max_of_ge (l : list Z) (x : Z) : x ∈ l -> x <= max_of l.
Proof.
  induction l as [|y l IH]; simpl.
  - intros Hin. apply elem_of_nil in Hin. contradiction.
  - intros [->|Hin]%elem_of_cons; [lia|]. specialize (IH Hin). lia.
Qed.

Lemma max_of_elem (l : list Z) :
  l <> [] -> (forall x, x ∈ l -> 0 <= x) -> max_of l ∈ l.
Proof.
  induction l as [|y l IH]; [congruence|]. intros _ Hnn. simpl.
  destruct l as [|z l].
  - simpl. assert (0 <= y) by (apply Hnn; left).
    replace (Z.max y 0) with y by lia. left.
  - assert (Hin : max_of (z :: l) ∈ z :: l).
    { apply IH; [congruence|]. intros x Hx. apply Hnn. now right. }
    destruct (Z.max_spec y (max_of (z :: l))) as [[_ ->]|[_ ->]].
    + now right.
    + left.
Qed.

Lemma length_unpack_samples (m : nat) (raw : list byte) :
  length raw = (2 * m)%nat -> length (unpack_samples raw) = m.
Proof.
  revert raw. induction m as [|m IH]; intros raw Hlen.
  - destruct raw; [reflexivity|discriminate].
  - destruct raw as [|lo [|hi rest]]; simpl in Hlen; try lia.
    simpl. f_equal. apply IH. lia.
Qed.

Lemma length_decode (raw : list byte) :
  Z.of_nat (length (decode raw)) = Z.of_nat (length raw) / 2.
Proof.
  unfold decode.
  set (n := Z.of_nat (length raw) / 2).
  assert (Hn : 0 <= n) by (apply Z.div_pos; lia).
  assert (Hle : n * 2 <= Z.of_nat (length raw)).
  { unfold n. pose proof (Z.mul_div_le (Z.of_nat (length raw)) 2). lia. }
  rewrite (length_unpack_samples (Z.to_nat n)); [lia|].
  rewrite length_take. lia.
Qed.

Lemma lookup_py_slice {A} (l : list A) (start end_ : Z) (k : nat) :
  0 <= start ->
  py_slice l start end_ !! k =
    if decide (Z.of_nat k < end_ - start) then l !! Z.to_nat (start + Z.of_nat k) else None.
Proof.
  intros Hs. unfold py_slice. destruct (decide _) as [Hlt|Hge].
  - rewrite lookup_take_lt by lia. rewrite lookup_drop. f_equal. lia.
  - apply lookup_take_ge. lia.
Qed.

Lemma bin_peak_nonneg (samples : list Z) (n w i : Z) :
  0 <= bin_peak samples n w i.
Proof.
  unfold bin_peak. destruct (n <=? i * w)%Z; [lia|].
  destruct (py_slice _ _ _); [lia|]. apply max_of_nonneg.
Qed.

Lemma bin_peak_spec (samples : list Z) (w i : Z) :
  0 < w -> 0 <= i ->
  window_peak samples (i * w) (i * w + w)
    (bin_peak samples (Z.of_nat (length samples)) w i).
Proof.
  intros Hw Hi. unfold bin_peak.
  set (n := Z.of_nat (length samples)).
  set (start := i * w). assert (Hstart : 0 <= start) by (unfold start; lia).
  destruct (Z.leb_spec n start) as [Hout|Hin].
  - split.
    + intros j s Hj Hs. apply lookup_lt_Some in Hs. lia.
    + right. split; [reflexivity|]. intros j Hj. apply lookup_ge_None. lia.
  - set (end_ := Z.min (start + w) n).
    set (chunk := py_slice samples start end_).
    assert (Hchunk : forall j, start <= j < start + w ->
              samples !! Z.to_nat j = chunk !! Z.to_nat (j - start)).
    { intros j Hj. unfold chunk. rewrite lookup_py_slice by lia.
      destruct (decide _) as [Hlt|Hge].
      - f_equal. lia.
      - apply lookup_ge_None. unfold end_ in Hge. lia. }
    assert (Hne : chunk <> []).
    { intros E. specialize (Hchunk start ltac:(lia)). rewrite E in Hchunk.
      rewrite lookup_nil in Hchunk. apply lookup_ge_None in Hchunk. lia. }
    assert (Hmax : max_of (map Z.abs chunk) ∈ map Z.abs chunk).
    { apply max_of_elem.
      - destruct chunk; [congruence|discriminate].
      - intros x (s & -> & _)%list_elem_of_fmap. lia. }
    destruct chunk as [|c0 chunk'] eqn:Ec; [congruence|]. rewrite <- Ec in *.
    split.
    + intros j s Hj Hs. rewrite Hchunk in Hs by lia.
      apply max_of_ge. apply list_elem_of_fmap. exists s. split; [reflexivity|].
      eapply list_elem_of_lookup_2. exact Hs.
    + left. apply list_elem_of_fmap in Hmax as (s & Hs & Hel).
      apply list_elem_of_lookup in Hel as [k Hk].
      assert (Hlen : (k < length chunk)%nat) by (eapply lookup_lt_Some; eauto).
      assert (Hclen : Z.of_nat (length chunk) <= w).
      { unfold chunk, py_slice. rewrite length_take. unfold end_. lia. }
      exists (start + Z.of_nat k), s. split; [lia|]. split; [|exact Hs].
      rewrite Hchunk by lia. rewrite <- Hk. f_equal. lia.
Qed.
Lemma map_const_replicate {A B} (c : B) (l : list A) :
  map (fun _ => c) l = replicate (length l) c.
Proof. induction l; simpl; [reflexivity|now f_equal]. Qed.

Lemma max_of_replicate_0 (n : nat) : max_of (replicate n 0) = 0.
Proof. induction n; simpl; [reflexivity|]. rewrite IHn. reflexivity. Qed.

(** What [get_waveform] returns for a positive number of bins. *)
Lemma get_waveform_peaks (raw : list byte) (bins : Z) :
  0 < bins ->
  let samples := decode raw in
  let n := Z.of_nat (length samples) in
  let peaks := map (bin_peak samples n (window_size n bins)) (seqZ 0 bins) in
  let mx := max_of peaks in
  get_waveform raw bins =
    peaks_ok (if (0 <? mx)%Z
              then map (fun p => Qred (inject_Z p / inject_Z mx)) peaks
              else map inject_Z peaks).
Proof.
  intros Hb. cbv zeta. unfold get_waveform.
  destruct (Z.ltb_spec (Z.of_nat (length raw)) 2) as [Hshort|Hlong].
  - assert (Hnil : decode raw = []).
    { apply length_zero_iff_nil. pose proof (length_decode raw) as Hl.
      rewrite Z.div_small in Hl by lia. lia. }
    rewrite Hnil. simpl length. change (Z.of_nat 0) with 0.
    assert (Hpk : map (bin_peak [] 0 (window_size 0 bins)) (seqZ 0 bins)
                  = replicate (Z.to_nat bins) 0).
    { rewrite <- (length_seqZ 0 bins), <- map_const_replicate.
      apply map_ext. intros i. unfold bin_peak.
      destruct (0 <=? i * window_size 0 bins)%Z; [reflexivity|].
      unfold py_slice. rewrite drop_nil, take_nil. reflexivity. }
    rewrite Hpk, max_of_replicate_0. simpl.
    f_equal. clear. induction (Z.to_nat bins) as [|k IH]; simpl; [reflexivity|].
    now rewrite IH.
  - destruct (Z.eqb_spec bins 0) as [E|_]; [lia|].
    change (unpack_samples (take (Z.to_nat (Z.of_nat (length raw) / 2 * 2)) raw))
      with (decode raw).
    rewrite <- length_decode.
    fold (window_size (Z.of_nat (length (decode raw))) bins).
    set (peaks := map _ (seqZ 0 bins)).
    destruct peaks as [|p peaks'] eqn:Ep;
      [|destruct (0 <? max_of (p :: peaks'))%Z; reflexivity].
    exfalso. assert (Hl : length peaks = Z.to_nat bins).
    { unfold peaks. rewrite length_map, length_seqZ. reflexivity. }
    rewrite Ep in Hl. simpl in Hl. lia.
Qed.
Lemma map_fmap {A B} (f : A -> B) (l : list A) : map f l = f <$> l.
Proof. reflexivity. Qed.

Lemma window_size_pos (n bins : Z) : 0 < window_size n bins.
Proof. unfold window_size. lia. Qed.

Lemma ratio_bounds (p mx : Z) :
  0 <= p <= mx -> 0 < mx -> (0 <= inject_Z p / inject_Z mx <= 1)%Q.
Proof.
  intros [H0 H1] Hmx.
  assert (Hq : (0 < inject_Z mx)%Q) by (rewrite (Zlt_Qlt 0 mx) in Hmx; exact Hmx).
  split.
  - apply Qle_shift_div_l; [exact Hq|]. rewrite Qmult_0_l.
    rewrite (Zle_Qle 0 p) in H0. exact H0.
  - apply Qle_shift_div_r; [exact Hq|]. rewrite Qmult_1_l.
    rewrite (Zle_Qle p mx) in H1. exact H1.
Qed.

Lemma envelope_of_peaks (samples : list Z) (bins : Z) :
  0 < bins ->
  let n := Z.of_nat (length samples) in
  let peaks := map (bin_peak samples n (window_size n bins)) (seqZ 0 bins) in
  let mx := max_of peaks in
  envelope (window_size n bins) samples bins
    (if (0 <? mx)%Z
     then map (fun p => Qred (inject_Z p / inject_Z mx)) peaks
     else map inject_Z peaks).
Proof.
  intros Hb n peaks mx.
  assert (Hlen : length peaks = Z.to_nat bins).
  { unfold peaks. rewrite length_map, length_seqZ. reflexivity. }
  assert (Hnn : forall x, x ∈ peaks -> 0 <= x).
  { intros x Hx. unfold peaks in Hx. rewrite map_fmap in Hx.
    apply list_elem_of_fmap in Hx as (i & -> & _). apply bin_peak_nonneg. }
  assert (Hmax : is_maximum peaks mx).
  { split.
    - apply max_of_elem; [|exact Hnn]. intros E. rewrite E in Hlen. simpl in Hlen. lia.
    - intros x Hx. now apply max_of_ge. }
  assert (Hle : forall i p, peaks !! i = Some p -> 0 <= p <= mx).
  { intros i p Hp. apply list_elem_of_lookup_2 in Hp.
    split; [now apply Hnn|now apply Hmax]. }
  exists peaks, mx.
  split. { destruct (0 <? mx)%Z; rewrite length_map; lia. }
  split. { destruct (0 <? mx)%Z; now rewrite length_map. }
  split.
  { intros i p Hp. unfold peaks in Hp. rewrite map_fmap, list_lookup_fmap in Hp.
    destruct (seqZ 0 bins !! i) as [x|] eqn:Ex; [|discriminate].
    apply lookup_seqZ in Ex as [-> _]. injection Hp as <-.
    replace (0 + Z.of_nat i) with (Z.of_nat i) by lia.
    apply bin_peak_spec; [apply window_size_pos|lia]. }
  split; [exact Hmax|].
  split.
  { intros i p Hp. destruct (Z.ltb_spec 0 mx) as [Hpos|Hzero].
    - exists (Qred (inject_Z p / inject_Z mx)). split.
      + rewrite map_fmap, list_lookup_fmap, Hp. reflexivity.
      + split; [intros _; apply Qred_correct|lia].
    - exists (inject_Z p). split.
      + rewrite map_fmap, list_lookup_fmap, Hp. reflexivity.
      + split; [lia|]. intros _. specialize (Hle i p Hp).
        replace p with 0 by lia. reflexivity. }
  destruct (Z.ltb_spec 0 mx) as [Hpos|Hzero].
  - apply Forall_forall. intros v Hv. rewrite map_fmap in Hv.
    apply list_elem_of_fmap in Hv as (p & -> & Hp).
    apply list_elem_of_lookup in Hp as [i Hp].
    rewrite Qred_correct. apply ratio_bounds; [now apply (Hle i)|exact Hpos].
  - apply Forall_forall. intros v Hv. rewrite map_fmap in Hv.
    apply list_elem_of_fmap in Hv as (p & -> & Hp).
    apply list_elem_of_lookup in Hp as [i Hp]. specialize (Hle i p Hp).
    replace p with 0 by lia. split; discriminate.
Qed.

(** C8 (amended).  For every byte stream and every [bins >= 1],
    [get_waveform] returns exactly [bins] values; value [i] belongs to the
    window of [max(1, n_samples // bins)] consecutive samples that starts
    at [i] times that size, and is the largest absolute sample of the
    window (0 for a window without samples) divided by the largest value
    of all windows; when that largest value is 0 every value is 0; every
    value lies in [0, 1].  The samples of the windows 4, -8, 2, 0 give
    0.5, 1.0, 0.25, 0.0. *)
Theorem waveform_envelope :
  (forall (raw : list byte) (bins : Z),
     0 < bins ->
     exists out,
       get_waveform raw bins = peaks_ok out
       /\ envelope (window_size (Z.of_nat (length (decode raw))) bins)
            (decode raw) bins out)
  /\ get_waveform [x04; x00; xf8; xff; x02; x00; x00; x00] 4
     = peaks_ok [1 # 2; 1; 1 # 4; 0]%Q.
Proof.
  split; [|reflexivity].
  intros raw bins Hb. eexists. split.
  - apply get_waveform_peaks. exact Hb.
  - apply envelope_of_peaks. exact Hb.
Qed.

(** Four samples in four windows of one sample each. *)
Lemma waveform_envelope_witness :
  exists out,
    get_waveform [x04; x00; xf8; xff; x02; x00; x00; x00] 4 = peaks_ok out
    /\ envelope 1 [4; -8; 2; 0] 4 out.
Proof.
  destruct waveform_envelope as [Hgen _].
  apply (Hgen [x04; x00; xf8; xff; x02; x00; x00; x00] 4). reflexivity.
Defined.

(** C8 as stated fails: with one sample and two bins,
    [floor(total_samples / bin_count)] is 0, so every window of that size
    is empty and every value would be 0; the code takes windows of one
    sample and returns 1 for the first.  And with [bin_count = 0] a stream
    that holds a sample makes the code divide by zero instead of returning
    no value. *)
Lemma waveform_window_size_counterexample :
  get_waveform [x05; x00] 2 = peaks_ok [1; 0]%Q
  /\ get_waveform [x05; x00] 0 = ZeroDivisionError
  /\ ~ envelope (window_size_spec 1 2) (decode [x05; x00]) 2 [1; 0]%Q.
Proof.
  split; [reflexivity|]. split; [reflexivity|].
  intros (peaks & mx & _ & Hlen & Hwin & [Hin _] & Hout & _).
  assert (Hzero : forall i p, peaks !! i = Some p -> p = 0).
  { intros i p Hp. destruct (Hwin i p Hp) as [_ [(j & s & Hj & _)|[-> _]]];
      [|reflexivity].
    change (window_size_spec 1 2) with 0 in Hj. lia. }
  destruct peaks as [|p0 peaks]; [discriminate|].
  assert (Hmx : mx = 0).
  { apply list_elem_of_lookup in Hin as [i Hi]. eapply Hzero. exact Hi. }
  destruct (Hout 0%nat p0 eq_refl) as (v & Hv & _ & Hv0).
  injection Hv as <-. specialize (Hv0 Hmx). discriminate.
Qed.

(** ** Catalog *)

Lemma span_app (p : ascii -> bool) (a b : string) :
  all_chars p a = true -> stops p b = true -> span p (a ++ b) = (a, b).
Proof.
  intros Ha Hb. induction a as [|c a IH].
  - change (("" ++ b)%string) with b. destruct b as [|c b]; [reflexivity|].
    simpl in *. apply negb_true_iff in Hb. now rewrite Hb.
  - simpl in Ha. apply andb_true_iff in Ha as [Hc Ha].
    change ((String c a ++ b)%string) with (String c (a ++ b)).
    simpl. rewrite Hc, (IH Ha). reflexivity.
Qed.

Lemma span_stops (p : ascii -> bool) (s : string) :
  stops p s = true -> span p s = (EmptyString, s).
Proof. intros Hs. apply (span_app p "" s); [reflexivity|exact Hs]. Qed.

Lemma span_spec (p : ascii -> bool) (s a b : string) :
  span p s = (a, b) -> s = (a ++ b)%string /\ all_chars p a = true.
Proof.
  revert a b. induction s as [|c s IH]; intros a b Hs; simpl in Hs.
  - injection Hs as <- <-. split; reflexivity.
  - destruct (p c) eqn:Hc.
    + destruct (span p s) as [a' b'] eqn:E. injection Hs as <- <-.
      destruct (IH a' b' eq_refl) as [-> Ha]. split; [reflexivity|].
      simpl. now rewrite Hc, Ha.
    + injection Hs as <- <-. split; reflexivity.
Qed.

Lemma has_digit_app (a b : string) :
  has_digit (a ++ b) = has_digit a || has_digit b.
Proof.
  induction a as [|c a IH]; [reflexivity|].
  change ((String c a ++ b)%string) with (String c (a ++ b)).
  simpl. rewrite IH. now rewrite orb_assoc.
Qed.

Lemma is_digit_lower_char (c : ascii) : is_digit (lower_char c) = is_digit c.
Proof.
  destruct c as [[] [] [] [] [] [] [] []]; reflexivity.
Qed.

Lemma has_digit_lower (s : string) : has_digit (lower s) = has_digit s.
Proof.
  induction s as [|c s IH]; [reflexivity|]. simpl.
  now rewrite is_digit_lower_char, IH.
Qed.

Lemma all_digits_has_digit (c : ascii) (s : string) :
  all_chars is_digit (String c s) = true -> has_digit (String c s) = true.
Proof. simpl. intros [-> _]%andb_true_iff. reflexivity. Qed.

Lemma drum_match_has_digit (name group1 : string) :
  drum_match name = Some group1 -> has_digit name = true.
Proof.
  unfold drum_match. destruct (span is_digit name) as [digits rest] eqn:E.
  apply span_spec in E as [-> Hd]. intros Hm.
  destruct digits as [|c digits]; [destruct rest; discriminate|].
  rewrite has_digit_app, (all_digits_has_digit _ _ Hd). reflexivity.
Qed.

Lemma inst_match_has_digit (name : string) (groups : string * string) :
  inst_match name = Some groups -> has_digit name = true.
Proof.
  unfold inst_match. destruct (span is_alpha name) as [letters rest] eqn:E.
  apply span_spec in E as [-> _]. intros Hm.
  destruct letters as [|l letters]; [destruct rest; discriminate|].
  destruct rest as [|c1 rest]; [discriminate|].
  destruct (Ascii.eqb_spec c1 "-") as [->|Hne];
    [|destruct c1 as [[] [] [] [] [] [] [] []]; try discriminate; congruence].
  destruct rest as [|c2 rest]; [discriminate|].
  destruct (Ascii.eqb_spec c2 "v") as [->|Hne];
    [|destruct c2 as [[] [] [] [] [] [] [] []]; try discriminate; congruence].
  destruct (span is_digit rest) as [digits rest'] eqn:E.
  apply span_spec in E as [-> Hd].
  destruct digits as [|d digits]; [discriminate|].
  rewrite has_digit_app.
  change (has_digit (String "-" (String "v" (String d digits ++ rest'))))
    with (is_digit "-" || (is_digit "v" || has_digit (String d digits ++ rest'))).
  rewrite has_digit_app, (all_digits_has_digit _ _ Hd).
  now rewrite !orb_true_r.
Qed.
Lemma digit_not_alpha (c : ascii) : is_digit c = true -> is_alpha c = false.
Proof. destruct c as [[] [] [] [] [] [] [] []]; vm_compute; congruence. Qed.

Lemma alpha_not_digit (c : ascii) : is_alpha c = true -> is_digit c = false.
Proof. destruct c as [[] [] [] [] [] [] [] []]; vm_compute; congruence. Qed.

Lemma find_none_all {A} (f : A -> bool) (l : list A) :
  (forall x, In x l -> f x = false) -> List.find f l = None.
Proof.
  induction l as [|x l IH]; [reflexivity|]. intros Hf. simpl.
  rewrite (Hf x) by now left. apply IH. intros y Hy. apply Hf. now right.
Qed.

Lemma instruments_have_no_digit (inst : string) :
  In inst ALL_INSTRUMENTS -> has_digit (lower inst) = false.
Proof.
  assert (Hall : forallb (fun i => negb (has_digit (lower i))) ALL_INSTRUMENTS = true)
    by reflexivity.
  intros Hin. rewrite forallb_forall in Hall. specialize (Hall inst Hin).
  now apply negb_true_iff in Hall.
Qed.

(** A name with a digit is no bare instrument name. *)
Lemma bare_name_none (name : string) :
  has_digit name = true ->
  List.find (fun inst => String.eqb (lower name) (lower inst)) ALL_INSTRUMENTS = None.
Proof.
  intros Hd. apply find_none_all. intros inst Hin.
  destruct (String.eqb_spec (lower name) (lower inst)) as [E|]; [|reflexivity].
  pose proof (instruments_have_no_digit inst Hin) as Hno.
  rewrite <- E, has_digit_lower in Hno. congruence.
Qed.

(** A name that equals an instrument name up to case is found as that
    instrument. *)
Lemma bare_name_found (name inst : string) :
  In inst ALL_INSTRUMENTS -> lower name = lower inst ->
  List.find (fun i => String.eqb (lower name) (lower i)) ALL_INSTRUMENTS = Some inst.
Proof.
  intros Hin ->. simpl in Hin.
  repeat (destruct Hin as [<-|Hin]; [reflexivity|]). contradiction.
Qed.

Lemma parse_drum (self : SampleManager) (f : dir_entry) (digits : string)
    (c : ascii) (rest : string) :
  stem (entry_name f) = (digits ++ String "-" (String c rest))%string ->
  digits <> EmptyString -> all_chars is_digit digits = true -> c <> "010"%char ->
  _parse_file self f =
    match DRUM_NOTE_MAP !! int digits with
    | Some inst => Some (sample_of self f inst None (Some (int digits)))
    | None => None
    end.
Proof.
  intros Hstem Hne Hd Hc.
  assert (Hdrum : drum_match (stem (entry_name f)) = Some digits).
  { rewrite Hstem. unfold drum_match. rewrite span_app by (exact Hd || reflexivity).
    destruct digits; [congruence|].
    destruct (Ascii.eqb_spec c "010"); [contradiction|reflexivity]. }
  unfold _parse_file. cbv zeta. rewrite Hdrum.
  destruct (DRUM_NOTE_MAP !! int digits) as [inst|]; [reflexivity|].
  assert (Hinst : inst_match (stem (entry_name f)) = None).
  { destruct (inst_match (stem (entry_name f))) as [g|] eqn:E; [|reflexivity].
    exfalso. rewrite Hstem in E. unfold inst_match in E.
    destruct digits as [|d digits]; [congruence|].
    simpl in Hd. apply andb_true_iff in Hd as [Hd _].
    rewrite span_stops in E; [discriminate|].
    change ((String d digits ++ String "-" (String c rest))%string)
      with (String d (digits ++ String "-" (String c rest))).
    simpl. now rewrite (digit_not_alpha d Hd). }
  rewrite Hinst, bare_name_none; [reflexivity|].
  eapply drum_match_has_digit. exact Hdrum.
Qed.

Lemma parse_drum_newline (self : SampleManager) (f : dir_entry)
    (digits rest : string) :
  stem (entry_name f) = (digits ++ String "-" (String "010" rest))%string ->
  digits <> EmptyString -> all_chars is_digit digits = true ->
  _parse_file self f = None.
Proof.
  intros Hstem Hne Hd.
  destruct digits as [|d digits]; [congruence|].
  assert (Hdrum : drum_match (stem (entry_name f)) = None).
  { rewrite Hstem. unfold drum_match. rewrite span_app by (exact Hd || reflexivity).
    reflexivity. }
  assert (Hinst : inst_match (stem (entry_name f)) = None).
  { rewrite Hstem. unfold inst_match.
    pose proof Hd as Hd'. simpl in Hd'. apply andb_true_iff in Hd' as [Hd' _].
    rewrite span_stops; [reflexivity|].
    change ((String d digits ++ String "-" (String "010" rest))%string)
      with (String d (digits ++ String "-" (String "010" rest))).
    simpl. now rewrite (digit_not_alpha d Hd'). }
  unfold _parse_file. cbv zeta. rewrite Hdrum, Hinst, bare_name_none; [reflexivity|].
  rewrite Hstem, has_digit_app, (all_digits_has_digit _ _ Hd). reflexivity.
Qed.

Lemma parse_variant (self : SampleManager) (f : dir_entry)
    (nm digits rest : string) :
  stem (entry_name f) = (nm ++ String "-" (String "v" (digits ++ rest)))%string ->
  nm <> EmptyString -> all_chars is_alpha nm = true ->
  digits <> EmptyString -> all_chars is_digit digits = true ->
  stops is_digit rest = true ->
  _parse_file self f =
    if str_in nm ALL_INSTRUMENTS
    then Some (sample_of self f nm (Some (int digits)) None)
    else None.
Proof.
  intros Hstem Hne Ha Hdne Hd Hrest.
  assert (Hdrum : drum_match (stem (entry_name f)) = None).
  { rewrite Hstem. unfold drum_match.
    destruct nm as [|a nm]; [congruence|].
    simpl in Ha. apply andb_true_iff in Ha as [Ha _].
    rewrite span_stops; [reflexivity|].
    change ((String a nm ++ String "-" (String "v" (digits ++ rest)))%string)
      with (String a (nm ++ String "-" (String "v" (digits ++ rest)))).
    simpl. now rewrite (alpha_not_digit a Ha). }
  assert (Hinst : inst_match (stem (entry_name f)) = Some (nm, digits)).
  { rewrite Hstem. unfold inst_match. rewrite span_app by (exact Ha || reflexivity).
    destruct nm; [congruence|]. rewrite span_app by assumption.
    destruct digits; [congruence|reflexivity]. }
  unfold _parse_file. cbv zeta. rewrite Hdrum, Hinst.
  destruct (str_in nm ALL_INSTRUMENTS); [reflexivity|].
  rewrite bare_name_none; [reflexivity|].
  eapply inst_match_has_digit. exact Hinst.
Qed.

Lemma parse_bare (self : SampleManager) (f : dir_entry) (inst : string) :
  In inst ALL_INSTRUMENTS ->
  lower (stem (entry_name f)) = lower inst ->
  _parse_file self f = Some (sample_of self f inst None None).
Proof.
  intros Hin Hlow.
  assert (Hno : has_digit (stem (entry_name f)) = false).
  { rewrite <- has_digit_lower, Hlow. now apply instruments_have_no_digit. }
  assert (Hdrum : drum_match (stem (entry_name f)) = None).
  { destruct (drum_match _) eqn:E; [|reflexivity].
    apply drum_match_has_digit in E. congruence. }
  assert (Hinst : inst_match (stem (entry_name f)) = None).
  { destruct (inst_match _) eqn:E; [|reflexivity].
    apply inst_match_has_digit in E. congruence. }
  unfold _parse_file. cbv zeta.
  rewrite Hdrum, Hinst, (bare_name_found _ inst Hin Hlow). reflexivity.
Qed.
Lemma str_in_spec (x : string) (l : list string) : str_in x l = true <-> x ∈ l.
Proof.
  unfold str_in. rewrite existsb_exists, list_elem_of_In. split.
  - intros (y & Hy & ->%String.eqb_eq). exact Hy.
  - intros Hx. exists x. split; [exact Hx|apply String.eqb_refl].
Qed.

(** C9 (amended).  [_parse_file] tries three patterns on the file name
    without its extension, the first that classifies wins.  (1) One or
    more digits, [-] and at least one more character, the first of which
    is not a newline: the number is looked up in the 11-entry table
    [DRUM_NOTE_MAP]; when it is there the file gets that instrument and
    the number as [midi_note], when it is not the file is skipped.  When a
    newline follows the [-], the file is skipped whatever the number.
    (2) One or more letters, [-v] and one
    or more digits, whatever follows: when the letters are one of the 18
    names of [ALL_INSTRUMENTS] the file gets that instrument and the number
    as [variant_num], otherwise it is skipped.  (3) A name equal to one of
    the 18 names up to case: that instrument, no variant, no note.
    [36-kick.wav] is kick with note 36, [bass-v2.wav] is bass variant 2,
    [99-unknown.wav] is skipped and [snare.wav] is snare. *)
Theorem classification_precedence (self : SampleManager) (f : dir_entry) :
  let name := stem (entry_name f) in
  let entry := fun n => {| entry_name := n; st_size := st_size f |} in
  size DRUM_NOTE_MAP = 11%nat
  /\ length ALL_INSTRUMENTS = 18%nat
  /\ (forall digits c rest,
        name = (digits ++ String "-" (String c rest))%string ->
        digits <> EmptyString -> all_chars is_digit digits = true ->
        c <> "010"%char ->
        _parse_file self f =
          match DRUM_NOTE_MAP !! int digits with
          | Some inst => Some (sample_of self f inst None (Some (int digits)))
          | None => None
          end)
  /\ (forall digits rest,
        name = (digits ++ String "-" (String "010" rest))%string ->
        digits <> EmptyString -> all_chars is_digit digits = true ->
        _parse_file self f = None)
  /\ (forall nm digits rest,
        name = (nm ++ String "-" (String "v" (digits ++ rest)))%string ->
        nm <> EmptyString -> all_chars is_alpha nm = true ->
        digits <> EmptyString -> all_chars is_digit digits = true ->
        stops is_digit rest = true ->
        (nm ∈ ALL_INSTRUMENTS ->
         _parse_file self f = Some (sample_of self f nm (Some (int digits)) None))
        /\ (nm ∉ ALL_INSTRUMENTS -> _parse_file self f = None))
  /\ (forall inst,
        inst ∈ ALL_INSTRUMENTS -> lower name = lower inst ->
        _parse_file self f = Some (sample_of self f inst None None))
  /\ _parse_file self (entry "36-kick.wav")
     = Some (sample_of self (entry "36-kick.wav") "kick" None (Some 36))
  /\ _parse_file self (entry "bass-v2.wav")
     = Some (sample_of self (entry "bass-v2.wav") "bass" (Some 2) None)
  /\ _parse_file self (entry "99-unknown.wav") = None
  /\ _parse_file self (entry "snare.wav")
     = Some (sample_of self (entry "snare.wav") "snare" None None).
Proof.
  cbv zeta.
  split; [reflexivity|]. split; [reflexivity|].
  split. { intros digits c rest. apply parse_drum. }
  split. { intros digits rest. apply parse_drum_newline. }
  split.
  { intros nm digits rest Hname Hne Ha Hdne Hd Hrest.
    rewrite (parse_variant self f nm digits rest Hname Hne Ha Hdne Hd Hrest).
    split; intros Hin.
    - apply str_in_spec in Hin. now rewrite Hin.
    - destruct (str_in nm ALL_INSTRUMENTS) eqn:E; [|reflexivity].
      apply str_in_spec in E. contradiction. }
  split. { intros inst Hin. apply parse_bare. now apply list_elem_of_In. }
  repeat split; reflexivity.
Qed.

(** [bass-v2.wav]: the letters [bass], [-v], the digits [2]. *)
Lemma classification_precedence_witness :
  _parse_file {| dir := "samples" |} {| entry_name := "bass-v2.wav"; st_size := 88200 |}
  = Some (sample_of {| dir := "samples" |}
            {| entry_name := "bass-v2.wav"; st_size := 88200 |}
            "bass" (Some 2) None).
Proof.
  destruct (classification_precedence {| dir := "samples" |}
              {| entry_name := "bass-v2.wav"; st_size := 88200 |})
    as (_ & _ & _ & _ & Hvariant & _).
  refine (proj1 (Hvariant "bass" "2" "" eq_refl _ eq_refl _ eq_refl eq_refl) _).
  - discriminate.
  - discriminate.
  - apply str_in_spec. reflexivity.
Defined.

(** C9 as stated fails in four places: the note table has 11 entries,
    not 12; [hihat-open-v2.wav] has the form name, [-v], digits with the
    name [hihat-open] of the enumeration, and is skipped, because the name
    must consist of letters; [36-.wav] begins with the note 36 of kick
    followed by [-], and is skipped, because a character must follow; and
    the file whose name is [36-], a newline and [kick.wav] is skipped,
    because that character must not be a newline. *)
Lemma classification_counterexample :
  size DRUM_NOTE_MAP <> 12%nat
  /\ ("hihat-open" ∈ ALL_INSTRUMENTS
      /\ _parse_file {| dir := "samples" |}
           {| entry_name := "hihat-open-v2.wav"; st_size := 88200 |} = None)
  /\ (DRUM_NOTE_MAP !! 36 = Some "kick"
      /\ _parse_file {| dir := "samples" |}
           {| entry_name := "36-.wav"; st_size := 88200 |} = None
      /\ _parse_file {| dir := "samples" |}
           {| entry_name := String "3" (String "6" (String "-"
                              (String "010" "kick.wav")));
              st_size := 88200 |} = None).
Proof.
  split; [discriminate|].
  split; [split; [|reflexivity]|split; [|split]; reflexivity].
  apply str_in_spec. reflexivity.
Qed.

(** The buckets [scan] starts from. *)
Lemma scan_initial_dom :
  dom (list_to_map (map (fun inst : string => (inst, @nil SampleFile)) ALL_INSTRUMENTS)
       : gmap string (list SampleFile))
  = list_to_set ALL_INSTRUMENTS.
Proof. rewrite dom_list_to_map_L. reflexivity. Qed.

Lemma scan_step_buckets (self : SampleManager)
    (m : gmap string (list SampleFile)) (f : dir_entry) :
  buckets_ok m -> buckets_ok (scan_step self m f).
Proof.
  intros [Hdom Hin]. unfold scan_step.
  destruct (negb _); [split; assumption|].
  destruct (_parse_file self f) as [sample|]; [|split; assumption].
  destruct (m !! instrument sample) as [l|] eqn:El; [|split; assumption].
  split.
  - rewrite dom_insert_L, <- Hdom.
    apply subseteq_union_1_L, singleton_subseteq_l, elem_of_dom. eauto.
  - intros k l' s Hk Hs.
    destruct (decide (instrument sample = k)) as [<-|Hne].
    + rewrite lookup_insert_eq in Hk. injection Hk as <-.
      apply elem_of_app in Hs as [Hs|Hs]; [now apply (Hin _ l)|].
      apply list_elem_of_singleton in Hs. now subst.
    + rewrite lookup_insert_ne in Hk by exact Hne. now apply (Hin k l').
Qed.

Lemma foldl_scan_step_buckets (self : SampleManager) (entries : list dir_entry)
    (m : gmap string (list SampleFile)) :
  buckets_ok m -> buckets_ok (foldl (scan_step self) m entries).
Proof.
  revert m. induction entries as [|f entries IH]; intros m Hm; [exact Hm|].
  simpl. apply IH. now apply scan_step_buckets.
Qed.

Lemma scan_buckets_ok (fs : file_system) (self : SampleManager) :
  buckets_ok (scan fs self).
Proof.
  unfold scan.
  assert (H0 : buckets_ok
            (list_to_map (map (fun inst : string => (inst, @nil SampleFile))
                            ALL_INSTRUMENTS))).
  { split; [apply scan_initial_dom|].
    intros k l s Hk Hs. apply elem_of_list_to_map_2 in Hk.
    apply list_elem_of_fmap in Hk as (inst & Heq & _).
    injection Heq as -> ->. apply elem_of_nil in Hs. contradiction. }
  destruct (fs (dir self)) as [entries|]; [|exact H0].
  now apply foldl_scan_step_buckets.
Qed.

Lemma unbucketed_not_instrument (k : string) :
  k ∈ UNBUCKETED -> k ∉ ALL_INSTRUMENTS.
Proof.
  intros Hk Hall. apply str_in_spec in Hall.
  unfold UNBUCKETED in Hk. rewrite !elem_of_cons in Hk.
  destruct Hk as [->|[->|[->|[->|[->|Hnil]]]]];
    [| | | | |apply elem_of_nil in Hnil; contradiction];
    vm_compute in Hall; discriminate.
Qed.

(** C10.  The keys of the mapping [scan] returns are exactly the 18
    instruments of [ALL_INSTRUMENTS], also when the directory is missing
    (every bucket is then empty).  Every sample of the mapping lies in the
    bucket of its own instrument.  A file named after a drum note 44, 49,
    51, 56 or 75 is parsed, into a sample of pedal-hihat, crash, ride,
    cowbell or clave; these five names are no keys of the mapping, and the
    sample is in none of its buckets. *)
Theorem scan_buckets (fs : file_system) (self : SampleManager) :
  dom (scan fs self) = list_to_set ALL_INSTRUMENTS
  /\ length ALL_INSTRUMENTS = 18%nat
  /\ NoDup ALL_INSTRUMENTS
  /\ (fs (dir self) = None ->
      forall k, k ∈ ALL_INSTRUMENTS -> scan fs self !! k = Some [])
  /\ (forall k l s, scan fs self !! k = Some l -> s ∈ l ->
        instrument s = k /\ k ∈ ALL_INSTRUMENTS)
  /\ (forall k, k ∈ UNBUCKETED -> scan fs self !! k = None)
  /\ (forall (f : dir_entry) digits c rest,
        stem (entry_name f) = (digits ++ String "-" (String c rest))%string ->
        digits <> EmptyString -> all_chars is_digit digits = true ->
        c <> "010"%char ->
        int digits ∈ [44; 49; 51; 56; 75] ->
        exists inst,
          inst ∈ UNBUCKETED
          /\ DRUM_NOTE_MAP !! int digits = Some inst
          /\ _parse_file self f
             = Some (sample_of self f inst None (Some (int digits)))
          /\ forall k l, scan fs self !! k = Some l ->
               sample_of self f inst None (Some (int digits)) ∉ l).
Proof.
  destruct (scan_buckets_ok fs self) as [Hdom Hin].
  assert (Hkeys : forall k, is_Some (scan fs self !! k) -> k ∈ ALL_INSTRUMENTS).
  { intros k Hk. apply elem_of_dom in Hk. rewrite Hdom in Hk.
    now apply elem_of_list_to_set in Hk. }
  split; [exact Hdom|]. split; [reflexivity|].
  split. { apply NoDup_ListNoDup. repeat (constructor; [simpl; intuition discriminate|]). constructor. }
  split.
  { intros Hmissing k Hk. unfold scan. rewrite Hmissing.
    apply list_elem_of_In in Hk. simpl in Hk.
    repeat (destruct Hk as [<-|Hk]; [reflexivity|]). contradiction. }
  split. { intros k l s Hk Hs. split; [now apply (Hin k l)|]. apply Hkeys. eauto. }
  split.
  { intros k Hk. destruct (scan fs self !! k) eqn:E; [|reflexivity].
    exfalso. apply (unbucketed_not_instrument k Hk). apply Hkeys. eauto. }
  intros f digits c rest Hstem Hne Hd Hc Hnote.
  assert (Hinst : exists inst, inst ∈ UNBUCKETED /\ DRUM_NOTE_MAP !! int digits = Some inst).
  { rewrite !elem_of_cons in Hnote.
    destruct Hnote as [->|[->|[->|[->|[->|Hnil]]]]];
      [| | | | |apply elem_of_nil in Hnil; contradiction];
      eexists; (split; [|reflexivity]); apply str_in_spec; reflexivity. }
  destruct Hinst as (inst & Hun & Hmap). exists inst.
  split; [exact Hun|]. split; [exact Hmap|]. split.
  { rewrite (parse_drum self f digits c rest Hstem Hne Hd Hc), Hmap. reflexivity. }
  intros k l Hk Hs. apply (unbucketed_not_instrument inst Hun).
  specialize (Hin k l _ Hk Hs). simpl in Hin. subst k. apply Hkeys. eauto.
Qed.

(** A directory that holds [44-pedal.wav]: the file is parsed as
    pedal-hihat, and no bucket of the scan has it. *)
Lemma scan_buckets_witness :
  exists inst,
    inst ∈ UNBUCKETED
    /\ DRUM_NOTE_MAP !! 44 = Some inst
    /\ _parse_file {| dir := "samples" |}
         {| entry_name := "44-pedal.wav"; st_size := 88200 |}
       = Some (sample_of {| dir := "samples" |}
                 {| entry_name := "44-pedal.wav"; st_size := 88200 |}
                 inst None (Some 44))
    /\ forall k l,
         scan (fun _ => Some [{| entry_name := "44-pedal.wav"; st_size := 88200 |}])
           {| dir := "samples" |} !! k = Some l ->
         sample_of {| dir := "samples" |}
           {| entry_name := "44-pedal.wav"; st_size := 88200 |}
           inst None (Some 44) ∉ l.
Proof.
  destruct (scan_buckets
              (fun _ => Some [{| entry_name := "44-pedal.wav"; st_size := 88200 |}])
              {| dir := "samples" |}) as (_ & _ & _ & _ & _ & _ & Hparsed).
  refine (Hparsed {| entry_name := "44-pedal.wav"; st_size := 88200 |}
            "44" "p"%char "edal" eq_refl _ eq_refl _ _).
  - discriminate.
  - discriminate.
  - apply elem_of_cons. left. reflexivity.
Defined.

(** ** Player *)

Lemma quieter_refl (o : OS) : quieter o o.
Proof. split; [reflexivity|]. intros i p Hp. exists p. auto. Qed.

Lemma quieter_trans (o1 o2 o3 : OS) : quieter o1 o2 -> quieter o2 o3 -> quieter o1 o3.
Proof.
  intros [L1 H1] [L2 H2]. split; [congruence|].
  intros i p Hp. destruct (H1 i p Hp) as (p' & Hp' & Hc & Hr).
  destruct (H2 i p' Hp') as (p'' & Hp'' & Hc' & Hr').
  exists p''. split; [exact Hp''|]. split; [congruence|]. auto.
Qed.

Lemma quieter_procs (o o' : OS) : procs o' = procs o -> quieter o o'.
Proof.
  intros E. split; [now rewrite E|]. intros i p Hp. exists p. rewrite E. auto.
Qed.

Lemma quieter_end_process (pid : nat) (rc : Z) (o : OS) :
  quieter o (end_process pid rc o).
Proof.
  split; [apply length_alter|]. intros i p Hp. simpl.
  rewrite list_lookup_alter. destruct (decide (pid = i)) as [->|Hne].
  - rewrite Hp. simpl. destruct (returncode p) as [rc'|] eqn:E.
    + exists p. split; [reflexivity|]. split; [reflexivity|]. congruence.
    + eexists. split; [reflexivity|]. split; [reflexivity|]. discriminate.
  - exists p. repeat split; auto.
Qed.

Lemma quieter_exited (o o' : OS) (i : nat) :
  quieter o o' -> exited o i = true -> exited o' i = true.
Proof.
  intros [L H] Hex. unfold exited in *.
  destruct (procs o !! i) as [p|] eqn:Ep.
  - destruct (H i p Ep) as (p' & -> & _ & Hr).
    apply bool_decide_eq_true in Hex as [rc Hrc].
    apply bool_decide_eq_true. rewrite (Hr rc Hrc). eauto.
  - apply lookup_ge_None in Ep.
    rewrite (proj2 (lookup_ge_None (procs o') i)); [reflexivity|lia].
Qed.

Lemma quieter_live (K : command -> bool) (o o' : OS) (i : nat) :
  quieter o o' -> live K o' i -> live K o i.
Proof.
  intros [L H] (p' & Hp' & Hrun & HK).
  destruct (procs o !! i) as [p|] eqn:Ep.
  - destruct (H i p Ep) as (p'' & Hp'' & Hc & Hr).
    assert (p'' = p') by congruence. subst p''.
    exists p. split; [exact Ep|]. split; [|congruence].
    destruct (returncode p) as [rc|] eqn:E; [|reflexivity].
    rewrite (Hr rc eq_refl) in Hrun. discriminate.
  - apply lookup_ge_None in Ep. apply lookup_lt_Some in Hp'. lia.
Qed.

Lemma live_not_exited (K : command -> bool) (o : OS) (i : nat) :
  live K o i -> exited o i = false.
Proof.
  intros (p & Hp & Hrun & _). unfold exited. rewrite Hp, Hrun.
  apply bool_decide_eq_false. intros [rc Hrc]. discriminate.
Qed.

Lemma exited_end_process (pid : nat) (rc : Z) (o : OS) :
  exited (end_process pid rc o) pid = true.
Proof.
  unfold exited, end_process. simpl. rewrite list_lookup_alter.
  destruct (decide (pid = pid)) as [_|]; [|congruence].
  destruct (procs o !! pid) as [p|]; [|reflexivity]. simpl.
  apply bool_decide_eq_true. destruct (returncode p) eqn:E; simpl; eauto.
Qed.
Section PlayerFacts.
Context `{NumberFormat} (env : Env).

(** The loop of [_cleanup_temp]. *)
Lemma cleanup_loop (l : list string) (s : state) :
  exists s',
    for_each l (fun f =>
      try_except (unlink env f)
        (fun e => match e with OSError => ret tt | _ => raise e end)) s
    = Return tt s'
    /\ self s' = self s
    /\ procs (os s') = procs (os s)
    /\ files (os s') ⊆ files (os s)
    /\ ((forall k, unlink_oserror env k = false) ->
        forall f, f ∈ l -> f ∉ files (os s'))
    /\ exists deletions,
         history s' = deletions ++ history s
         /\ Forall (fun m => (exists f, fst m = Unlinked f /\ f ∈ l)
                             /\ procs (snd m) = procs (os s)) deletions.
Proof.
  revert s. induction l as [|f l IH]; intros s.
  - exists s. split; [reflexivity|]. split; [reflexivity|]. split; [reflexivity|].
    split; [reflexivity|]. split. { intros _ f Hf. apply elem_of_nil in Hf. contradiction. }
    exists []. split; [reflexivity|constructor].
  - simpl. unfold bind at 1. unfold try_except, unlink, bind, tick, gets. simpl.
    destruct (unlink_oserror env (clock s)) eqn:Eerr; simpl.
    + match goal with |- context [for_each l ?b ?s1] =>
        destruct (IH s1) as (s' & Hrun & Hself & Hprocs & Hfiles & Hgone & dels & Hhist & Hdels)
      end.
      exists s'. simpl in *. split; [exact Hrun|]. split; [exact Hself|].
      split; [exact Hprocs|]. split; [exact Hfiles|].
      split. { intros Hno. rewrite Hno in Eerr. discriminate. }
      exists dels. split; [exact Hhist|].
      eapply Forall_impl; [exact Hdels|]. intros m [(g & Hg & Hin) Hp].
      split; [|exact Hp]. exists g. split; [exact Hg|]. now apply elem_of_cons; right.
    + unfold happen. simpl.
      match goal with |- context [for_each l ?b ?s1] =>
        destruct (IH s1) as (s' & Hrun & Hself & Hprocs & Hfiles & Hgone & dels & Hhist & Hdels)
      end.
      exists s'. simpl in *. split; [exact Hrun|]. split; [exact Hself|].
      split; [exact Hprocs|].
      split. { etrans; [exact Hfiles|]. simpl. apply subseteq_difference_l. reflexivity. }
      split.
      { intros Hno g [->|Hg]%elem_of_cons; [|now apply Hgone].
        intros Hin. apply Hfiles in Hin. simpl in Hin.
        apply elem_of_difference in Hin as [_ Hin]. apply Hin, elem_of_singleton. reflexivity. }
      exists (dels ++ [(Unlinked f, remove_file f (os s))]).
      split. { rewrite Hhist, <- app_assoc. reflexivity. }
      apply Forall_app. split.
      * eapply Forall_impl; [exact Hdels|]. intros m [(g & Hg & Hin) Hp].
        split; [|exact Hp]. exists g. split; [exact Hg|]. now apply elem_of_cons; right.
      * constructor; [|constructor]. simpl. split; [|reflexivity].
        exists f. split; [reflexivity|]. apply elem_of_cons. now left.
Qed.
Lemma wp_bind {A B} (m : M A) (k : A -> M B)
    (Q : B -> state -> Prop) (E : exn -> state -> Prop) (s : state) :
  wp m (fun a s' => wp (k a) Q E s') E s -> wp (bind m k) Q E s.
Proof. unfold wp, bind. destruct (m s); auto. Qed.

Lemma wp_mono {A} (m : M A) (Q Q' : A -> state -> Prop)
    (E E' : exn -> state -> Prop) (s : state) :
  wp m Q E s ->
  (forall a s', Q a s' -> Q' a s') -> (forall e s', E e s' -> E' e s') ->
  wp m Q' E' s.
Proof. unfold wp. destruct (m s); auto. Qed.

Lemma stop_unfold :
  stop env =
    (running <- gets is_playing ;;
     p <- gets (fun s => _process (self s)) ;;
     match p, running with
     | Some pid, true => signal_process env pid
     | _, _ => ret tt
     end ;;
     set_process None ;;
     set_current_file None ;;
     _cleanup_temp env).
Proof. reflexivity. Qed.

Lemma signal_event_terminated (pid : nat) : signal_event pid (Terminated pid).
Proof. now left. Qed.
Lemma signal_event_killed (pid : nat) : signal_event pid (Killed pid).
Proof. right. now left. Qed.
Lemma signal_event_exited (pid : nat) (rc : Z) : signal_event pid (Exited pid rc).
Proof. right. right. now exists rc. Qed.

Lemma exited_end_process_twice (pid : nat) (rc rc' : Z) (o : OS) :
  exited (end_process pid rc' (end_process pid rc o)) pid = true.
Proof. apply exited_end_process. Qed.

Ltac signals :=
  repeat first
    [ split
    | apply Forall_nil_2
    | apply Forall_cons_2
    | apply signal_event_terminated
    | apply signal_event_killed
    | apply signal_event_exited
    | apply quieter_refl
    | apply quieter_end_process
    | (eapply quieter_trans; apply quieter_end_process)
    | apply exited_end_process
    | reflexivity ].

Lemma signal_process_spec (pid : nat) (s : state) :
  wp (signal_process env pid)
    (fun _ s' => signalled pid s s')
    (fun e s' => e = CancelledError /\ self s' = self s /\ os s' = os s
                 /\ history s' = (Terminated pid, os s) :: history s)
    s.
Proof.
  unfold wp, signal_process, try_except, terminate, wait_for, kill,
    bind, tick, gets, happen, raise, ret. simpl.
  destruct (terminate_gone env (clock s)) as [rc|]; simpl.
  - destruct (kill_gone env (S (clock s))) as [rc'|]; simpl.
    + split; [reflexivity|]. split; [signals|]. split; [left; signals|].
      split; [reflexivity|]. eexists [_; _]. signals.
    + split; [reflexivity|]. split; [signals|]. split; [left; signals|].
      split; [reflexivity|]. eexists [_; _]. signals.
  - destruct (wait_for_cancelled env (S (clock s))); simpl; [signals|].
    destruct (exit_within_timeout env (S (clock s))) as [rc|]; simpl.
    + split; [reflexivity|]. split; [signals|]. split; [left; signals|].
      split; [reflexivity|]. eexists [_; _]. signals.
    + destruct (kill_gone env (S (S (clock s)))) as [rc'|]; simpl.
      * split; [reflexivity|]. split; [signals|]. split; [left; signals|].
        split; [reflexivity|]. eexists [_; _]. signals.
      * split; [reflexivity|]. split; [signals|].
        split; [right; eexists; apply elem_of_cons; left; reflexivity|].
        split; [reflexivity|]. eexists [_; _]. signals.
Qed.

Lemma stop_tail (s s1 : state) :
  self s1 = self s ->
  quieter (os s) (os s1) ->
  (forall pid, _process (self s) = Some pid ->
     exited (os s1) pid = true \/ killed (history s1) pid) ->
  files (os s1) = files (os s) ->
  (exists signals,
     history s1 = signals ++ history s
     /\ Forall (fun m =>
          (exists pid, _process (self s) = Some pid /\ is_playing s = true
                       /\ signal_event pid (fst m))
          /\ quieter (os s) (snd m)
          /\ files (snd m) = files (os s)) signals) ->
  wp (set_process None ;; set_current_file None ;; _cleanup_temp env)
    (fun _ s' => stopped env s s') (fun _ _ => False) s1.
Proof.
  intros Hself Hq Hheld Hfiles (sigs & Hhist & Hsigs).
  unfold wp, _cleanup_temp, set_process, set_current_file, set_temp_files,
    set_self, bind, gets. simpl.
  match goal with |- context [for_each ?l ?b ?s2] =>
    destruct (cleanup_loop l s2)
      as (s' & Hrun & Hself' & Hprocs & Hsub & Hgone & dels & Hhist' & Hdels)
  end.
  simpl in *. rewrite Hrun. simpl.
  assert (Hq' : quieter (os s) (os s')).
  { eapply quieter_trans; [exact Hq|]. now apply quieter_procs. }
  split; [now rewrite Hself'|].
  split; [exact Hq'|].
  split.
  { intros pid Hpid. destruct (Hheld pid Hpid) as [Hex|[o Ho]].
    - left. apply (quieter_exited (os s1)); [now apply quieter_procs|exact Hex].
    - right. exists o. rewrite Hhist'. apply elem_of_app. now right. }
  split; [now rewrite <- Hfiles|].
  split; [now rewrite <- Hself|].
  exists dels, sigs. split; [now rewrite Hhist', Hhist|].
  split; [exact Hsigs|].
  eapply Forall_impl; [exact Hdels|]. intros m [(f & Hf & Hin) Hp].
  split; [|simpl; congruence]. exists f. split; [exact Hf|]. now rewrite <- Hself.
Qed.

Lemma stop_spec (s : state) :
  wp (stop env)
    (fun _ s' => stopped env s s')
    (fun e s' => e = CancelledError /\ stop_interrupted s s')
    s.
Proof.
  rewrite stop_unfold.
  apply wp_bind. unfold wp at 1, gets.
  apply wp_bind. unfold wp at 1, gets.
  apply wp_bind.
  assert (Htail : forall s1,
    self s1 = self s -> quieter (os s) (os s1) ->
    (forall pid, _process (self s) = Some pid ->
       exited (os s1) pid = true \/ killed (history s1) pid) ->
    files (os s1) = files (os s) ->
    (exists signals,
       history s1 = signals ++ history s
       /\ Forall (fun m =>
            (exists pid, _process (self s) = Some pid /\ is_playing s = true
                         /\ signal_event pid (fst m))
            /\ quieter (os s) (snd m)
            /\ files (snd m) = files (os s)) signals) ->
    wp (set_process None ;; set_current_file None ;; _cleanup_temp env)
      (fun _ s' => stopped env s s')
      (fun e s' => e = CancelledError /\ stop_interrupted s s') s1).
  { intros s1 H1 H2 H3 H4 H5.
    eapply wp_mono; [now apply (stop_tail s s1)|auto|contradiction]. }
  assert (Hidle : is_playing s = false ->
    wp (ret tt)
      (fun _ s1 => wp (set_process None ;; set_current_file None ;; _cleanup_temp env)
         (fun _ s' => stopped env s s')
         (fun e s' => e = CancelledError /\ stop_interrupted s s') s1)
      (fun e s' => e = CancelledError /\ stop_interrupted s s') s).
  { intros Hidle. unfold wp at 1, ret. apply Htail; try reflexivity.
    - apply quieter_refl.
    - intros pid Hpid. left. unfold is_playing in Hidle. rewrite Hpid in Hidle.
      now apply negb_false_iff in Hidle.
    - exists []. split; [reflexivity|constructor]. }
  destruct (_process (self s)) as [pid|] eqn:Ep.
  - destruct (is_playing s) eqn:Eplay; [|now apply Hidle].
    eapply wp_mono; [apply (signal_process_spec pid s)| |].
    + intros [] s1 (Hself & Hq & Hex & Hfiles & sigs & Hhist & Hsigs).
      apply Htail; try assumption.
      * intros pid' [= <-]. exact Hex.
      * exists sigs. split; [exact Hhist|].
        eapply Forall_impl; [exact Hsigs|]. intros m (Hev & Hqm & Hfm).
        split; [|split; assumption]. exists pid. auto.
    + intros e s1 (-> & Hself & Hos & Hhist). split; [reflexivity|].
      split; [exact Hself|]. split; [exact Hos|]. split; [exact Eplay|].
      exists pid. split; [exact Ep|exact Hhist].
  - apply Hidle. unfold is_playing. now rewrite Ep.
Qed.
End PlayerFacts.

Section PlayerOutcomes.
Context `{NumberFormat} (env : Env).

Lemma stop_outcome (s : state) :
  (exists s', stop env s = Return tt s' /\ stopped env s s')
  \/ (exists s', stop env s = Raise CancelledError s' /\ stop_interrupted s s').
Proof.
  pose proof (stop_spec env s) as Hs. unfold wp in Hs.
  destruct (stop env s) as [[] s'|e s'].
  - left. eauto.
  - right. destruct Hs as [-> Hs]. eauto.
Qed.

Lemma play_outcome_spec (path : string) (s : state) :
  play_outcome env path s (play env path s).
Proof.
  unfold play. unfold bind at 1.
  destruct (stop_outcome s) as [(s1 & -> & Hs)|(s' & -> & Hs)];
    [|now apply play_interrupted].
  assert (Hself : self s1 = Player_new) by apply Hs.
  unfold create_subprocess_exec, set_current_file, set_process, set_self,
    tick, happen, raise, ret, gets, bind. simpl.
  rewrite Hself. simpl.
  destruct (spawn_missing env (clock s1)); simpl.
  - eapply play_failed; [exact Hs|reflexivity|]. left. split; reflexivity.
  - destruct (spawn_cancelled env (clock s1)); simpl.
    + eapply play_failed; [exact Hs|reflexivity|]. right. split; reflexivity.
    + eapply play_started; [exact Hs|reflexivity|reflexivity].
Qed.

Lemma render_outcome_spec (path af : string) (s : state) :
  render_outcome env path af s (render_and_play env path af s).
Proof.
  unfold render_and_play. unfold bind at 1.
  destruct (stop_outcome s) as [(s1 & -> & Hs)|(s' & -> & Hs)];
    [|now apply render_interrupted].
  assert (Hself : self s1 = Player_new) by apply Hs.
  unfold NamedTemporaryFile, create_subprocess_exec, wait, set_temp_files,
    set_self, tick, happen, raise, ret, gets, bind. simpl.
  rewrite Hself. simpl.
  set (tmp := tmp_name env (clock s1)).
  destruct (spawn_missing env (S (clock s1))); simpl.
  { eapply (render_not_started _ _ _ _ s1 tmp); [exact Hs|reflexivity|].
    left. split; reflexivity. }
  destruct (spawn_cancelled env (S (clock s1))); simpl.
  { eapply (render_not_started _ _ _ _ s1 tmp); [exact Hs|reflexivity|].
    right. split; reflexivity. }
  destruct (wait_cancelled env (S (S (clock s1)))) eqn:Ecancel; simpl.
  { eapply (render_abandoned _ _ _ _ s1 tmp); [exact Hs|reflexivity|reflexivity|eauto]. }
  destruct (Z.eqb_spec (exit_code env (S (S (clock s1)))) 0) as [E0|Hrc].
  - rewrite E0.
    eapply (render_played _ _ _ _ s1 tmp); [exact Hs| | |apply play_outcome_spec];
      reflexivity.
  - eapply (render_failed _ _ _ _ s1 tmp); [exact Hs|exact Hrc|reflexivity|reflexivity].
Qed.

Lemma play_pitched_unfold (path : string) (semitones : Z) :
  play_pitched env path semitones =
    if (semitones =? 0)%Z then play env path
    else render_and_play env path (pitch_filter_text semitones).
Proof. reflexivity. Qed.

Lemma play_with_edits_unfold (path : string) (e : SampleEdits) (d : Q) (pitch : Z) :
  play_with_edits env path e d pitch =
    if String.eqb (edits_chain e d pitch) "" then play env path
    else render_and_play env path (edits_chain e d pitch).
Proof. reflexivity. Qed.
End PlayerOutcomes.

Lemma killed_cons (m : event * OS) (h : list (event * OS)) (pid : nat) :
  killed (m :: h) pid <-> fst m = Killed pid \/ killed h pid.
Proof.
  unfold killed. split.
  - intros [o [E|Ho]%elem_of_cons]; [left; now rewrite <- E|right; eauto].
  - intros [Hm|[o Ho]].
    + exists (snd m). apply elem_of_cons. left. destruct m. simpl in *. now subst.
    + exists o. apply elem_of_cons. now right.
Qed.

Lemma killed_app (new old : list (event * OS)) (pid : nat) :
  killed (new ++ old) pid <-> killed new pid \/ killed old pid.
Proof.
  unfold killed. split.
  - intros [o [Ho|Ho]%elem_of_app]; eauto.
  - intros [[o Ho]|[o Ho]]; exists o; apply elem_of_app; auto.
Qed.

Lemma killed_nil (pid : nat) : ~ killed [] pid.
Proof. intros [o Ho]. apply elem_of_nil in Ho. contradiction. Qed.

Lemma killed_dec (h : list (event * OS)) (pid : nat) :
  killed h pid \/ ~ killed h pid.
Proof.
  induction h as [|m h IH].
  - right. apply killed_nil.
  - destruct IH as [Hk|Hn]; [left; apply killed_cons; now right|].
    destruct m as [ev o]. destruct ev as [p c|p|p|p rc|f|f];
      try (right; intros [E|Hk]%killed_cons; [discriminate|contradiction]).
    destruct (decide (p = pid)) as [->|Hne].
    + left. apply killed_cons. now left.
    + right. intros [E|Hk]%killed_cons; [|contradiction].
      simpl in E. congruence.
Qed.

Lemma killed_forall (Q : event * OS -> Prop) (h : list (event * OS)) (pid : nat) :
  Forall Q h -> killed h pid -> exists o, Q (Killed pid, o).
Proof.
  intros Hall [o Ho]. exists o. rewrite Forall_forall in Hall. now apply Hall.
Qed.

Lemma always_app (P : event -> world -> Prop) (new old : list (event * OS)) :
  always P old ->
  (forall a m b, new = a ++ m :: b -> P (fst m) (snd m, m :: b ++ old)) ->
  always P (new ++ old).
Proof.
  intros Hold. induction new as [|m new IH]; intros Hnew; [exact Hold|].
  simpl. split.
  - apply (Hnew [] m new). reflexivity.
  - apply IH. intros a m' b ->. apply (Hnew (m :: a) m' b). reflexivity.
Qed.

Lemma always_impl (P P' : event -> world -> Prop) (h : list (event * OS)) :
  (forall ev w, P ev w -> P' ev w) -> always P h -> always P' h.
Proof.
  intros Himp. induction h as [|m h IH]; [auto|].
  simpl. intros [Hm Hh]. split; auto.
Qed.

Section PlayerInvariant.
Context `{NumberFormat} (env : Env) (K : command -> bool).

Lemma live_procs (o o' : OS) (i : nat) :
  procs o' = procs o -> live K o i -> live K o' i.
Proof. intros E (p & Hp & Hr & Hk). exists p. rewrite E. auto. Qed.

Lemma live_add_process (c : command) (o : OS) (i : nat) :
  live K (add_process c o) i ->
  live K o i \/ (i = length (procs o) /\ K c = true).
Proof.
  intros (p & Hp & Hr & Hk). simpl in Hp.
  apply lookup_app_Some in Hp as [Hp|[Hlen Hp]].
  - left. exists p. auto.
  - right. apply list_lookup_singleton_Some in Hp as [Hi <-].
    split; [lia|exact Hk].
Qed.

Lemma live_end_process (pid : nat) (rc : Z) (o : OS) (i : nat) :
  live K (end_process pid rc o) i -> live K o i /\ i <> pid.
Proof.
  intros Hl. split.
  - eapply quieter_live; [apply quieter_end_process|exact Hl].
  - intros ->. apply live_not_exited in Hl.
    rewrite exited_end_process in Hl. discriminate.
Qed.

Lemma none_at_most_one (w : world) : none_running K w -> at_most_one_running K w.
Proof. intros Hn i j [Hi Hk]. destruct (Hk (Hn i Hi)). Qed.

Lemma only_at_most_one (pid : nat) (w : world) :
  (forall i, running K w i -> i = pid) -> at_most_one_running K w.
Proof. intros Ho i j Hi Hj. rewrite (Ho i Hi), (Ho j Hj). reflexivity. Qed.

Lemma held_at_most_one (s : state) : held K s -> at_most_one_running K (world_of s).
Proof.
  intros Hh i j Hi Hj. apply Hh in Hi, Hj. congruence.
Qed.

(** A process that runs in a later world ran before, when the later world
    has the processes of the earlier one and a longer history. *)
Lemma running_before (o o' : OS) (new old : list (event * OS)) (i : nat) :
  quieter o o' -> running K (o', new ++ old) i -> running K (o, old) i.
Proof.
  intros Hq [Hl Hk]. split.
  - eapply quieter_live; [exact Hq|exact Hl].
  - intros Hold. apply Hk. apply killed_app. now right.
Qed.

Lemma held_later (s : state) (o' : OS) (new : list (event * OS)) :
  held K s -> quieter (os s) o' ->
  at_most_one_running K (o', new ++ history s).
Proof.
  intros Hh Hq i j Hi Hj.
  apply (running_before (os s)) in Hi, Hj; try exact Hq.
  apply Hh in Hi, Hj. congruence.
Qed.

(** Nothing runs once the running processes have ended or been killed. *)
Lemma none_running_later (w : world) (o' : OS) (new : list (event * OS)) :
  quieter (fst w) o' ->
  (forall i, running K w i -> live K o' i -> killed (new ++ snd w) i) ->
  none_running K (o', new ++ snd w).
Proof.
  intros Hq Hend i Hl. simpl in *.
  destruct (killed_dec (snd w) i) as [Hk|Hk].
  - apply killed_app. now right.
  - apply Hend; [|exact Hl]. split; [|exact Hk].
    eapply quieter_live; [exact Hq|exact Hl].
Qed.

Lemma quiet_settled (s : state) : quiet K (world_of s) -> settled K s.
Proof.
  intros (Hn & Hh & Hk). split; [|split; assumption].
  intros pid [Hl Hnk]. destruct (Hnk (Hn pid Hl)).
Qed.

Lemma only_settled (pid : nat) (s : state) :
  only K pid (world_of s) -> _process (self s) = Some pid -> settled K s.
Proof.
  intros (Ho & Hh & Hk) Hp. split; [|split; assumption].
  intros i Hl. now rewrite (Ho i Hl).
Qed.

Lemma quiet_create (f : string) (w : world) : quiet K w -> quiet K (w_create f w).
Proof.
  intros (Hn & Hh & Hk).
  assert (Hn' : none_running K (w_create f w)).
  { intros i Hl. apply killed_cons. right. apply Hn.
    eapply live_procs; [|exact Hl]. reflexivity. }
  split; [exact Hn'|]. split.
  - split; [|exact Hh]. split; [now apply none_at_most_one|]. intros g Hg. discriminate.
  - intros pid [E|Hp]%killed_cons; [discriminate|]. now apply Hk.
Qed.

Lemma quiet_spawn (c : command) (w : world) :
  quiet K w -> only K (length (procs (fst w))) (w_spawn c w).
Proof.
  intros (Hn & Hh & Hk).
  assert (Ho : forall i, running K (w_spawn c w) i -> i = length (procs (fst w))).
  { intros i [[Hl|[-> _]]%live_add_process Hnk]; [|reflexivity].
    destruct Hnk. apply killed_cons. right. now apply Hn. }
  split; [exact Ho|]. split.
  - split; [|exact Hh]. split; [eapply only_at_most_one; exact Ho|].
    intros g Hg. discriminate.
  - intros pid [E|Hp]%killed_cons; [discriminate|].
    apply Hk in Hp. simpl. rewrite length_app. simpl. lia.
Qed.

Lemma quiet_spawn_other (c : command) (w : world) :
  K c = false -> quiet K w -> quiet K (w_spawn c w).
Proof.
  intros Hc (Hn & Hh & Hk).
  assert (Hn' : none_running K (w_spawn c w)).
  { intros i [Hl|[_ Hkc]]%live_add_process; [|congruence].
    apply killed_cons. right. now apply Hn. }
  split; [exact Hn'|]. split.
  - split; [|exact Hh]. split; [now apply none_at_most_one|]. intros g Hg. discriminate.
  - intros pid [E|Hp]%killed_cons; [discriminate|].
    apply Hk in Hp. simpl. rewrite length_app. simpl. lia.
Qed.

Lemma only_ended (pid : nat) (rc : Z) (ev : event) (w : world) :
  only K pid w -> (forall f, ev <> Unlinked f) ->
  (forall p, ev = Killed p -> (p < length (procs (fst w)))%nat) ->
  quiet K (end_process pid rc (fst w), (ev, end_process pid rc (fst w)) :: snd w).
Proof.
  intros (Ho & Hh & Hk) Hev Hp.
  assert (Hn : none_running K
                 (end_process pid rc (fst w), (ev, end_process pid rc (fst w)) :: snd w)).
  { eapply (none_running_later w _ [_]); [apply quieter_end_process|].
    intros i Hi [_ Hne]%live_end_process. destruct Hne. now apply Ho. }
  split; [exact Hn|]. split.
  - split; [|exact Hh]. split; [now apply none_at_most_one|].
    intros g Hg. destruct (Hev g Hg).
  - intros p [E|Hkp]%killed_cons; simpl; rewrite length_alter; [now apply Hp|now apply Hk].
Qed.

Lemma only_exit (pid : nat) (rc : Z) (w : world) :
  only K pid w -> quiet K (w_exit pid rc w).
Proof.
  intros Ho. apply only_ended; [exact Ho|discriminate|discriminate].
Qed.

Lemma only_kill (pid : nat) (w : world) :
  (pid < length (procs (fst w)))%nat -> only K pid w -> quiet K (w_kill pid w).
Proof.
  intros Hlt Ho. apply only_ended; [exact Ho|discriminate|].
  intros p [= <-]. exact Hlt.
Qed.

Lemma quiet_spawn_failed (c : command) (e : exn) (w w' : world) :
  quiet K w -> w_spawn_failed c e w w' -> quiet K w'.
Proof.
  intros Hq [[_ ->]|[_ ->]]; [exact Hq|]. apply only_kill.
  - simpl. rewrite length_app. simpl. lia.
  - now apply quiet_spawn.
Qed.

Lemma signal_event_not_unlink (pid : nat) (f : string) :
  ~ signal_event pid (Unlinked f).
Proof. intros [E|[E|[rc E]]]; discriminate. Qed.

Lemma signal_event_killed_inv (pid p : nat) :
  signal_event pid (Killed p) -> p = pid.
Proof. intros [E|[E|[rc E]]]; congruence. Qed.

(** What [stop] adds to the history sends SIGKILL to the process the
    player held only. *)
Lemma stopped_killed (s s1 : state) (pid : nat) :
  stopped env s s1 -> killed (history s1) pid ->
  killed (history s) pid
  \/ (_process (self s) = Some pid /\ is_playing s = true).
Proof.
  intros (_ & _ & _ & _ & _ & dels & sigs & Hh & Hsigs & Hdels) Hk.
  rewrite Hh in Hk. apply killed_app in Hk as [Hk|Hk].
  - apply (killed_forall _ _ _ Hdels) in Hk as (o & (f & Hf & _) & _). discriminate.
  - apply killed_app in Hk as [Hk|Hk]; [|now left].
    apply (killed_forall _ _ _ Hsigs) in Hk as (o & (p & Hp & Hplay & Hev) & _).
    apply signal_event_killed_inv in Hev. subst p. right. auto.
Qed.

Lemma stopped_quiet (s s1 : state) :
  settled K s -> stopped env s s1 -> quiet K (world_of s1).
Proof.
  intros (Hheld & Hhist & Hknown) Hst.
  pose proof (fun pid => stopped_killed s s1 pid Hst) as Hkilled.
  destruct Hst as (Hself & Hq & Hex & Hfiles & Hgone & dels & sigs & Hh & Hsigs & Hdels).
  assert (Hend : forall i, running K (world_of s) i -> live K (os s1) i ->
                           killed (sigs ++ history s) i).
  { intros i Hi Hl. apply Hheld, Hex in Hi as [Hi|Hi].
    - apply live_not_exited in Hl. congruence.
    - rewrite Hh in Hi. apply killed_app in Hi as [Hi|Hi]; [|exact Hi].
      apply (killed_forall _ _ _ Hdels) in Hi as (o & (f & Hf & _) & _). discriminate. }
  assert (Hn : forall o new, procs o = procs (os s1) ->
                 none_running K (o, new ++ sigs ++ history s)).
  { intros o new Ho. rewrite app_assoc.
    apply (none_running_later (world_of s)).
    - eapply quieter_trans; [exact Hq|]. now apply quieter_procs.
    - intros i Hi Hl. rewrite <- app_assoc. apply killed_app. right.
      apply Hend; [exact Hi|]. eapply live_procs; [|exact Hl]. now symmetry. }
  split; [|split].
  - unfold world_of. rewrite Hh. now apply Hn.
  - simpl. rewrite Hh. apply always_app; [apply always_app; [exact Hhist|]|].
    + intros a m b Hsplit.
      assert (Hm : (exists pid, _process (self s) = Some pid /\ is_playing s = true
                                /\ signal_event pid (fst m))
                   /\ quieter (os s) (snd m) /\ files (snd m) = files (os s)).
      { rewrite Forall_forall in Hsigs. apply Hsigs. rewrite Hsplit.
        apply elem_of_app. right. apply elem_of_cons. now left. }
      destruct Hm as ((pid & _ & _ & Hev) & Hqm & _). split.
      * eapply (held_later s (snd m) (m :: b)); assumption.
      * intros f Hf. rewrite Hf in Hev. destruct (signal_event_not_unlink _ _ Hev).
    + intros a m b Hsplit.
      assert (Hm : (exists f, fst m = Unlinked f /\ f ∈ _temp_files (self s))
                   /\ procs (snd m) = procs (os s1)).
      { rewrite Forall_forall in Hdels. apply Hdels. rewrite Hsplit.
        apply elem_of_app. right. apply elem_of_cons. now left. }
      destruct Hm as [_ Hp].
      assert (Hnone : none_running K (snd m, m :: b ++ sigs ++ history s)).
      { apply (Hn (snd m) (m :: b)). exact Hp. }
      split; [now apply none_at_most_one|]. intros _ _. exact Hnone.
  - intros pid Hk. simpl in *. destruct Hq as [-> _].
    apply Hkilled in Hk as [Hk|[Hp Hplay]]; [now apply Hknown|].
    unfold is_playing, exited in Hplay. rewrite Hp in Hplay.
    destruct (procs (os s) !! pid) as [p|] eqn:E; [|discriminate].
    eapply lookup_lt_Some. exact E.
Qed.

Lemma interrupted_settled (s s' : state) :
  settled K s -> stop_interrupted s s' -> settled K s'.
Proof.
  intros (Hheld & Hhist & Hknown) (Hself & Hos & _ & pid & _ & Hh).
  assert (Hrun : forall i, running K (world_of s') i -> running K (world_of s) i).
  { intros i Hi. unfold world_of in Hi. rewrite Hos, Hh in Hi.
    eapply (running_before (os s) (os s) [_]); [apply quieter_refl|exact Hi]. }
  split; [|split].
  - intros i Hi. rewrite Hself. now apply Hheld, Hrun.
  - rewrite Hh. split; [|exact Hhist]. split; [|intros f Hf; discriminate].
    eapply (held_later s (os s) [_]); [exact Hheld|apply quieter_refl].
  - intros p Hk. simpl in *. rewrite Hh in Hk. rewrite Hos.
    apply killed_cons in Hk as [E|Hk]; [discriminate|now apply Hknown].
Qed.

Lemma play_settled (path : string) (s : state) (r : result unit) :
  settled K s -> play_outcome env path s r -> settled K (state_of r).
Proof.
  intros Hs [s' Hi|s1 e s' Hst Hself Hfail|s1 s' Hst Hself Hw]; simpl.
  - now apply (interrupted_settled s).
  - apply quiet_settled. eapply quiet_spawn_failed; [|exact Hfail].
    now apply (stopped_quiet s).
  - apply (only_settled (length (procs (os s1)))); [|now rewrite Hself].
    rewrite Hw. apply (quiet_spawn _ (world_of s1)). now apply (stopped_quiet s).
Qed.

(** The kinds of command the invariant is proved for: only players, or
    any kind in an environment that never cancels the wait for a render. *)
Hypothesis kinds :
  (forall c, K c = true -> is_afplay c = true)
  \/ (forall k, wait_cancelled env k = false).

Lemma render_settled (path af : string) (s : state) (r : result unit) :
  settled K s -> render_outcome env path af s r -> settled K (state_of r).
Proof.
  intros Hs [s' Hi|s1 tmp e s' Hst Hself Hfail|s1 tmp s' Hst Hself Hw Hc
            |s1 tmp rc s' Hst Hrc Hself Hw|s1 tmp s2 r' Hst Hself Hw Hplay]; simpl.
  - now apply (interrupted_settled s).
  - apply quiet_settled. eapply quiet_spawn_failed; [|exact Hfail].
    apply quiet_create. now apply (stopped_quiet s).
  - apply quiet_settled. rewrite Hw. apply quiet_spawn_other.
    + destruct (K (ffmpeg path af tmp)) eqn:Ek; [|reflexivity].
      destruct kinds as [Hk|Hk].
      * apply Hk in Ek. discriminate.
      * destruct Hc as [k Hc]. rewrite Hk in Hc. discriminate.
    + apply quiet_create. now apply (stopped_quiet s).
  - apply quiet_settled. rewrite Hw. apply only_exit.
    apply (quiet_spawn _ (w_create tmp (world_of s1))).
    apply quiet_create. now apply (stopped_quiet s).
  - apply (play_settled tmp s2); [|exact Hplay].
    apply quiet_settled. rewrite Hw. apply only_exit.
    apply (quiet_spawn _ (w_create tmp (world_of s1))).
    apply quiet_create. now apply (stopped_quiet s).
Qed.

Lemma exec_settled (c : call) (s : state) :
  settled K s -> settled K (state_of (exec env c s)).
Proof.
  intros Hs. destruct c as [path|path n|path e d n| | |pid rc]; simpl exec.
  - apply (play_settled path s); [exact Hs|apply play_outcome_spec].
  - rewrite play_pitched_unfold. destruct (n =? 0)%Z.
    + apply (play_settled path s); [exact Hs|apply play_outcome_spec].
    + eapply render_settled; [exact Hs|apply render_outcome_spec].
  - rewrite play_with_edits_unfold. destruct (String.eqb _ _).
    + apply (play_settled path s); [exact Hs|apply play_outcome_spec].
    + eapply render_settled; [exact Hs|apply render_outcome_spec].
  - destruct (stop_outcome env s) as [(s1 & -> & Hst)|(s' & -> & Hi)]; simpl.
    + apply quiet_settled. now apply (stopped_quiet s).
    + now apply (interrupted_settled s).
  - unfold cleanup.
    destruct (stop_outcome env s) as [(s1 & -> & Hst)|(s' & -> & Hi)]; simpl.
    + apply quiet_settled. now apply (stopped_quiet s).
    + now apply (interrupted_settled s).
  - unfold bind, gets, happen, ret. destruct (exited (os s) pid); [exact Hs|]. simpl.
    destruct Hs as (Hheld & Hhist & Hknown). split; [|split]; simpl.
    + intros i Hi. apply Hheld.
      eapply (running_before (os s) _ [_] (history s));
        [apply quieter_end_process|exact Hi].
    + split; [|exact Hhist]. split; [|intros f Hf; discriminate].
      eapply (held_later s _ [_]); [exact Hheld|apply quieter_end_process].
    + intros p [E|Hk]%killed_cons; [discriminate|].
      simpl. rewrite length_alter. now apply Hknown.
Qed.

Lemma run_settled (cs : list call) (s : state) :
  settled K s -> settled K (run env cs s).
Proof.
  revert s. induction cs as [|c cs IH]; intros s Hs; [exact Hs|].
  simpl. apply IH. now apply exec_settled.
Qed.

Lemma init_settled : settled K init.
Proof.
  split; [|split].
  - intros pid [(p & Hp & _) _]. simpl in Hp. rewrite lookup_nil in Hp. discriminate.
  - exact I.
  - intros pid Hk. destruct (killed_nil pid Hk).
Qed.
End PlayerInvariant.

Section PlayerTidy.
Context `{NumberFormat} (env : Env).

Lemma play_tidy (path : string) (s : state) (r : result unit) :
  tidy s -> play_outcome env path s r -> tidy (state_of r).
Proof.
  intros Hs [s' (Hself & _)|s1 e s' _ Hself _|s1 s' _ Hself _]; simpl; unfold tidy.
  - now rewrite Hself.
  - rewrite Hself. discriminate.
  - now rewrite Hself.
Qed.

Lemma render_tidy (path af : string) (s : state) (r : result unit) :
  tidy s -> render_outcome env path af s r -> tidy (state_of r).
Proof.
  intros Hs [s' (Hself & _)|s1 tmp e s' _ Hself _|s1 tmp s' _ Hself _ _
            |s1 tmp rc s' _ _ Hself _|s1 tmp s2 r' _ Hself _ Hplay]; simpl;
    try (unfold tidy; rewrite Hself; (assumption || discriminate)).
  apply (play_tidy tmp s2); [|exact Hplay].
  unfold tidy. rewrite Hself. discriminate.
Qed.

Lemma exec_tidy (c : call) (s : state) : tidy s -> tidy (state_of (exec env c s)).
Proof.
  intros Hs. destruct c as [path|path n|path e d n| | |pid rc]; simpl exec.
  - apply (play_tidy path s); [exact Hs|apply play_outcome_spec].
  - rewrite play_pitched_unfold. destruct (n =? 0)%Z.
    + apply (play_tidy path s); [exact Hs|apply play_outcome_spec].
    + eapply render_tidy; [exact Hs|apply render_outcome_spec].
  - rewrite play_with_edits_unfold. destruct (String.eqb _ _).
    + apply (play_tidy path s); [exact Hs|apply play_outcome_spec].
    + eapply render_tidy; [exact Hs|apply render_outcome_spec].
  - destruct (stop_outcome env s) as [(s1 & -> & Hst)|(s' & -> & Hi)]; simpl.
    + unfold tidy. destruct Hst as [-> _]. discriminate.
    + unfold tidy. destruct Hi as [-> _]. exact Hs.
  - unfold cleanup.
    destruct (stop_outcome env s) as [(s1 & -> & Hst)|(s' & -> & Hi)]; simpl.
    + unfold tidy. destruct Hst as [-> _]. discriminate.
    + unfold tidy. destruct Hi as [-> _]. exact Hs.
  - unfold bind, gets, happen, ret. destruct (exited (os s) pid); exact Hs.
Qed.

Lemma run_tidy (cs : list call) (s : state) : tidy s -> tidy (run env cs s).
Proof.
  revert s. induction cs as [|c cs IH]; intros s Hs; [exact Hs|].
  simpl. apply IH. now apply exec_tidy.
Qed.
End PlayerTidy.

Lemma is_playing_lt (s : state) (pid : nat) :
  _process (self s) = Some pid -> is_playing s = true ->
  (pid < length (procs (os s)))%nat.
Proof.
  unfold is_playing, exited. intros -> Hp.
  destruct (procs (os s) !! pid) as [p|] eqn:E; [|discriminate].
  eapply lookup_lt_Some. exact E.
Qed.

Lemma exited_add_process (c : command) (o : OS) (pid : nat) :
  (pid < length (procs o))%nat -> exited (add_process c o) pid = exited o pid.
Proof.
  intros Hlt. unfold exited, add_process. simpl.
  now rewrite lookup_app_l by exact Hlt.
Qed.

(** C1 (amended).  In every state a run of calls goes through (any calls,
    any behaviour of the environment, cancellations included) at most one
    [afplay] process is alive that has not been sent SIGKILL, it is the
    process the player holds, only processes that exist have been killed,
    and while the player holds a process no temporary file is registered.
    When [play B] is called in any state in which the player holds the
    one running player, which plays [A], and only processes that exist
    have been killed (the states of a run are such states, and so is a
    state with registered files), and the call returns: the history has
    grown by the signals to the process of [A], then the deletions of
    registered files, then the spawn of [afplay B]; the process of [A]
    has ended or has been sent SIGKILL; the new process is alive, has not
    been killed, is the only such player and is the one the player holds;
    no temporary file remains registered, and (when no deletion fails) no
    file that was registered remains on disk. *)
Theorem playback_exclusivity `{NumberFormat} (env : Env) :
  (forall cs,
     let s := run env cs init in
     always (fun _ w => at_most_one_running is_afplay w) (history s)
     /\ at_most_one_running is_afplay (world_of s)
     /\ (forall pid, running is_afplay (world_of s) pid ->
           _process (self s) = Some pid)
     /\ (forall pid, killed (history s) pid -> (pid < length (procs (os s)))%nat)
     /\ (forall pid, _process (self s) = Some pid -> _temp_files (self s) = []))
  /\ (forall s A B pidA s',
        (forall i, running is_afplay (world_of s) i -> i = pidA) ->
        (forall i, killed (history s) i -> (i < length (procs (os s)))%nat) ->
        _process (self s) = Some pidA -> is_playing s = true ->
        _current_file (self s) = Some A ->
        play env B s = Return tt s' ->
        exists pidB deletions signals,
          history s'
            = (Spawned pidB (afplay B), os s') :: deletions ++ signals ++ history s
          /\ Forall (fun m => signal_event pidA (fst m)) signals
          /\ Forall (fun m => exists f, fst m = Unlinked f
                                        /\ f ∈ _temp_files (self s)) deletions
          /\ (exited (os s') pidA = true \/ killed (history s') pidA)
          /\ _process (self s') = Some pidB
          /\ pidB <> pidA
          /\ procs (os s') !! pidB = Some {| cmd := afplay B; returncode := None |}
          /\ running is_afplay (world_of s') pidB
          /\ (forall i, running is_afplay (world_of s') i -> i = pidB)
          /\ is_playing s' = true
          /\ _current_file (self s') = Some B
          /\ _temp_files (self s') = []
          /\ ((forall k, unlink_oserror env k = false) ->
              forall f, f ∈ _temp_files (self s) -> f ∉ files (os s'))).
Proof.
  split.
  - intros cs s.
    assert (Hs : settled is_afplay s).
    { apply run_settled; [left; auto|apply init_settled]. }
    destruct Hs as (Hheld & Hhist & Hknown).
    split. { eapply always_impl; [|exact Hhist]. intros ev w Hm. apply Hm. }
    split; [now apply held_at_most_one|].
    split; [exact Hheld|]. split; [exact Hknown|].
    apply run_tidy. intros pid Hpid. discriminate.
  - intros s A B pidA s' Honly Hknown HpA Hplaying _ Hplay.
    pose proof (play_outcome_spec env B s) as Ho. rewrite Hplay in Ho.
    inversion Ho as [| |s1 s'' Hst Hself Hw]; subst s''.
    pose proof (fun pid => stopped_killed env s s1 pid Hst) as Hkilled.
    destruct Hst as (Hnew & Hqu & Hex & Hfiles & Hgone & dels & sigs & Hh & Hsigs & Hdels).
    injection Hw as Hos Hhist.
    assert (Hlen : length (procs (os s1)) = length (procs (os s))) by apply Hqu.
    pose proof (is_playing_lt s pidA HpA Hplaying) as Hlt.
    assert (Hlook : procs (os s') !! length (procs (os s1))
                    = Some {| cmd := afplay B; returncode := None |}).
    { rewrite Hos. simpl. rewrite lookup_app_r by lia. now rewrite Nat.sub_diag. }
    assert (Hkeep : forall i, killed (history s1) i -> killed (history s') i).
    { intros i Hi. rewrite Hhist. apply killed_cons. now right. }
    assert (Hback : forall i, killed (history s') i -> killed (history s1) i).
    { intros i Hi. rewrite Hhist in Hi.
      apply killed_cons in Hi as [E|Hi]; [discriminate|exact Hi]. }
    exists (length (procs (os s1))), dels, sigs.
    split. { rewrite Hhist, Hos, Hh. reflexivity. }
    split.
    { eapply Forall_impl; [exact Hsigs|]. intros m [(pid & Hpid & _ & Hev) _].
      rewrite HpA in Hpid. injection Hpid as <-. exact Hev. }
    split. { eapply Forall_impl; [exact Hdels|]. intros m [Hm _]. exact Hm. }
    split.
    { destruct (Hex pidA HpA) as [He|Hk]; [left|right; now apply Hkeep].
      rewrite Hos, exited_add_process by lia. exact He. }
    split; [now rewrite Hself|]. split; [lia|]. split; [exact Hlook|].
    split.
    { split.
      - eexists. split; [exact Hlook|]. split; reflexivity.
      - intros Hk. apply Hback, Hkilled in Hk as [Hk|[Hp _]].
        + apply Hknown in Hk. lia.
        + rewrite HpA in Hp. injection Hp as Hp. lia. }
    split.
    { intros i [Hl Hnk]. unfold world_of in Hl. simpl in Hl. rewrite Hos in Hl.
      apply (live_add_process is_afplay) in Hl as [Hl|[-> _]]; [|reflexivity].
      exfalso.
      assert (Hrun : running is_afplay (world_of s) i).
      { split; [eapply quieter_live; [exact Hqu|exact Hl]|].
        intros Hk. apply Hnk, Hkeep. rewrite Hh. apply killed_app. right.
        apply killed_app. now right. }
      apply Honly in Hrun. subst i.
      destruct (Hex pidA HpA) as [He|Hk].
      - apply live_not_exited in Hl. congruence.
      - apply Hnk, Hkeep, Hk. }
    split. { unfold is_playing, exited. rewrite Hself. simpl. now rewrite Hlook. }
    split; [now rewrite Hself|]. split; [now rewrite Hself|].
    intros Hno f Hf. rewrite Hos. simpl. now apply Hgone.
Qed.

(** [play("b.wav")] in a calm environment on a player that holds a running
    [afplay] and a registered temporary file; and [play("a.wav")] followed
    by [play("b.wav")] when SIGTERM does not end a process within a
    second. *)
Lemma playback_exclusivity_witness :
  (exists pidB deletions signals,
    let s := playing_registered in
    let s' := state_of (play calm "b.wav" playing_registered) in
    history s'
      = (Spawned pidB (afplay "b.wav"), os s') :: deletions ++ signals ++ history s
    /\ Forall (fun m => signal_event 0 (fst m)) signals
    /\ Forall (fun m => exists f, fst m = Unlinked f
                                  /\ f ∈ _temp_files (self s)) deletions
    /\ (exited (os s') 0 = true \/ killed (history s') 0)
    /\ _process (self s') = Some pidB
    /\ pidB <> 0%nat
    /\ procs (os s') !! pidB = Some {| cmd := afplay "b.wav"; returncode := None |}
    /\ running is_afplay (world_of s') pidB
    /\ (forall i, running is_afplay (world_of s') i -> i = pidB)
    /\ is_playing s' = true
    /\ _current_file (self s') = Some "b.wav"
    /\ _temp_files (self s') = []
    /\ ((forall k, unlink_oserror calm k = false) ->
        forall f, f ∈ _temp_files (self s) -> f ∉ files (os s')))
  /\ at_most_one_running is_afplay
       (world_of (@run fraction_format stubborn
                    [call_play "a.wav"; call_play "b.wav"] init)).
Proof.
  split.
  - apply (proj2 (@playback_exclusivity fraction_format calm)
             playing_registered "/tmp/a.wav" "b.wav" 0%nat).
    + intros i [(p & Hp & _) _]. apply lookup_lt_Some in Hp. simpl in Hp. lia.
    + intros i [o Ho]. simpl in Ho. rewrite !elem_of_cons in Ho.
      destruct Ho as [E|[E|E]]; [discriminate|discriminate|].
      apply elem_of_nil in E. contradiction.
    + reflexivity.
    + reflexivity.
    + reflexivity.
    + vm_compute. reflexivity.
  - apply (proj1 (@playback_exclusivity fraction_format stubborn)
             [call_play "a.wav"; call_play "b.wav"]).
Defined.

(** C1 as stated fails where [stop] force-kills: [kill()] does not wait
    for the process to end.  When SIGTERM does not end [afplay a.wav]
    within a second, [play("a.wav")] followed by [play("b.wav")] leaves
    two [afplay] processes that have not ended.  And on a player that
    holds a running [afplay] and a registered file, [play("b.wav")]
    returns with the file unregistered but still on disk when its unlink
    fails. *)
Lemma playback_overlap_counterexample :
  (live is_afplay
     (os (@run fraction_format stubborn [call_play "a.wav"; call_play "b.wav"] init)) 0
   /\ live is_afplay
        (os (@run fraction_format stubborn [call_play "a.wav"; call_play "b.wav"] init)) 1
   /\ ~ at_most_one_live is_afplay
          (os (@run fraction_format stubborn
                 [call_play "a.wav"; call_play "b.wav"] init)))
  /\ ("/tmp/a.wav" ∈ _temp_files (self playing_registered)
      /\ "/tmp/a.wav"
           ∈ files (os (state_of (play read_only "b.wav" playing_registered)))
      /\ exists s', play read_only "b.wav" playing_registered = Return tt s').
Proof.
  assert (H0 : live is_afplay
            (os (@run fraction_format stubborn
                   [call_play "a.wav"; call_play "b.wav"] init)) 0).
  { exists {| cmd := afplay "a.wav"; returncode := None |}.
    split; [vm_compute; reflexivity|]. split; reflexivity. }
  assert (H1 : live is_afplay
            (os (@run fraction_format stubborn
                   [call_play "a.wav"; call_play "b.wav"] init)) 1).
  { exists {| cmd := afplay "b.wav"; returncode := None |}.
    split; [vm_compute; reflexivity|]. split; reflexivity. }
  split.
  - split; [exact H0|]. split; [exact H1|].
    intros Hone. specialize (Hone 0%nat 1%nat H0 H1). discriminate.
  - split; [apply elem_of_cons; now left|]. split.
    + change (files (os (state_of (play read_only "b.wav" playing_registered))))
        with ({["/tmp/a.wav"]} : gset string).
      apply elem_of_singleton. reflexivity.
    + eexists. vm_compute. reflexivity.
Qed.

Lemma exited_procs (o o' : OS) (pid : nat) :
  procs o' = procs o -> exited o' pid = exited o pid.
Proof. unfold exited. now intros ->. Qed.

(** The two halves of a render are the render. *)
Lemma render_halves `{NumberFormat} (env : Env) (path af : string) (s : state) :
  render_and_play env path af s
  = bind (render_begin env path af) (render_resume env) s.
Proof.
  unfold render_and_play, render_begin, render_resume, bind, ret.
  destruct (stop env s) as [[] s1|e s1]; [|reflexivity].
  destruct (NamedTemporaryFile env s1) as [tmp s2|e s2]; [|reflexivity].
  destruct (gets _ s2) as [fs s3|e s3]; [|reflexivity].
  destruct (set_temp_files _ s3) as [[] s4|e s4]; [|reflexivity].
  destruct (create_subprocess_exec env _ s4) as [proc s5|e s5]; reflexivity.
Qed.

(** [play_pitched] with [semitones != 0] runs up to its [await proc.wait()]
    and goes on from there. *)
Lemma play_pitched_halves `{NumberFormat} (env : Env) (path : string)
    (semitones : Z) (s : state) :
  semitones <> 0 ->
  play_pitched env path semitones s
  = bind (render_begin env path (pitch_filter_text semitones)) (render_resume env) s.
Proof.
  intros Hn. rewrite play_pitched_unfold.
  destruct (Z.eqb_spec semitones 0); [contradiction|apply render_halves].
Qed.

(** C2 (amended).  A [stop] that completes adds to the history the
    signals to the process the player held (terminate, its exit within the
    timeout or the kill), and after all of them the deletions of the
    registered files; in every moment of a deletion that process has
    ended or has been sent SIGKILL ([stop] does not wait for a process it
    kills); when no deletion fails, no registered file is left on disk.
    When the calls are made one after the other, in an environment that
    never cancels a call while it waits for its render, every child
    process that has not ended at a moment in which a file is deleted has
    been sent SIGKILL before. *)
Theorem deletion_follows_exit `{NumberFormat} (env : Env) :
  (forall s s',
     stop env s = Return tt s' ->
     exists deletions signals,
       history s' = deletions ++ signals ++ history s
       /\ Forall (fun m =>
            exists pid, _process (self s) = Some pid /\ is_playing s = true
                        /\ signal_event pid (fst m)) signals
       /\ Forall (fun m =>
            (exists f, fst m = Unlinked f /\ f ∈ _temp_files (self s))
            /\ forall pid, _process (self s) = Some pid ->
                 exited (snd m) pid = true
                 \/ killed (signals ++ history s) pid) deletions
       /\ ((forall k, unlink_oserror env k = false) ->
           forall f, f ∈ _temp_files (self s) -> f ∉ files (os s')))
  /\ ((forall k, wait_cancelled env k = false) ->
      forall cs,
        always (fun ev w => forall f, ev = Unlinked f ->
                  forall pid, live any_command (fst w) pid -> killed (snd w) pid)
          (history (run env cs init))).
Proof.
  split.
  - intros s s' Hstop.
    destruct (stop_outcome env s) as [(s1 & E & Hst)|(s1 & E & _)];
      rewrite Hstop in E; [|discriminate].
    injection E as <-.
    destruct Hst as (_ & _ & Hex & _ & Hgone & dels & sigs & Hh & Hsigs & Hdels).
    exists dels, sigs. split; [exact Hh|]. split.
    { eapply Forall_impl; [exact Hsigs|]. intros m [Hm _]. exact Hm. }
    split; [|exact Hgone].
    eapply Forall_impl; [exact Hdels|]. intros m [Hm Hp].
    split; [exact Hm|]. intros pid Hpid.
    rewrite (exited_procs (os s') (snd m) pid Hp).
    destruct (Hex pid Hpid) as [He|Hk]; [now left|right].
    rewrite Hh in Hk. apply killed_app in Hk as [Hk|Hk]; [|exact Hk].
    apply (killed_forall _ _ _ Hdels) in Hk as (o & (f & Hf & _) & _). discriminate.
  - intros no_cancelled_render cs.
    assert (Hs : settled any_command (run env cs init)).
    { apply run_settled; [right; exact no_cancelled_render|apply init_settled]. }
    destruct Hs as (_ & Hhist & _).
    eapply always_impl; [|exact Hhist]. intros ev w [_ Hm]. exact Hm.
Qed.

(** [stop()] on a player that holds a running [afplay] and a registered
    temporary file, when SIGTERM does not end the process within a second:
    terminate, kill, and then the deletion.  And a run in that
    environment in which a file is deleted. *)
Lemma deletion_follows_exit_witness :
  let s := playing_registered in
  let s' := state_of (stop stubborn playing_registered) in
  (exists deletions signals,
     history s' = deletions ++ signals ++ history s
     /\ Forall (fun m =>
          exists pid, _process (self s) = Some pid /\ is_playing s = true
                      /\ signal_event pid (fst m)) signals
     /\ Forall (fun m =>
          (exists f, fst m = Unlinked f /\ f ∈ _temp_files (self s))
          /\ forall pid, _process (self s) = Some pid ->
               exited (snd m) pid = true
               \/ killed (signals ++ history s) pid) deletions
     /\ ((forall k, unlink_oserror stubborn k = false) ->
         forall f, f ∈ _temp_files (self s) -> f ∉ files (os s')))
  /\ history s'
     = [(Unlinked "/tmp/a.wav", remove_file "/tmp/a.wav" (os s));
        (Killed 0, os s); (Terminated 0, os s)] ++ history s
  /\ always (fun ev w => forall f, ev = Unlinked f ->
                forall pid, live any_command (fst w) pid -> killed (snd w) pid)
       (history (@run fraction_format stubborn
                   [call_play "a.wav"; call_play_pitched "b.wav" 3] init)).
Proof.
  cbv zeta. split; [|split].
  - apply (proj1 (@deletion_follows_exit fraction_format stubborn)
             playing_registered).
    vm_compute. reflexivity.
  - reflexivity.
  - apply (proj2 (@deletion_follows_exit fraction_format stubborn)).
    intros k. reflexivity.
Defined.

(** C2 as stated fails in three ways.  A call cancelled while it waits
    for its render: [play_pitched("a.wav", 3)] is cancelled during
    [proc.wait()], ffmpeg keeps running unreferenced, and the [stop] that
    follows deletes the temporary file ffmpeg is writing while ffmpeg is
    alive.  A call overtaken while it waits for its render, with nothing
    cancelled: [action_quit] runs [cleanup] while [play_pitched] is
    suspended at [proc.wait()], and deletes the file ffmpeg is writing.
    A process that was force-killed: [stop] does not wait for it, so when
    SIGTERM does not end [afplay a.wav] within a second, the file that
    [play_pitched("b.wav", 3)] renders is deleted while [afplay a.wav] has
    not ended. *)
Lemma deletion_while_rendering_counterexample :
  (exists tmp o p,
     (Unlinked tmp, o)
       ∈ history (@run fraction_format cancelled_render
                    [call_play_pitched "a.wav" 3; call_stop] init)
     /\ procs o !! 0%nat = Some p
     /\ returncode p = None
     /\ cmd p = ffmpeg "a.wav" (@pitch_filter_text fraction_format 3) tmp)
  /\ (exists tmp o p,
        (Unlinked tmp, o)
          ∈ history (state_of (@action_quit calm
                       (state_of (@render_begin fraction_format calm "a.wav"
                                    (@pitch_filter_text fraction_format 3) init))))
        /\ procs o !! 0%nat = Some p
        /\ returncode p = None
        /\ cmd p = ffmpeg "a.wav" (@pitch_filter_text fraction_format 3) tmp)
  /\ (exists tmp o p,
        (Unlinked tmp, o)
          ∈ history (@run fraction_format stubborn
                       [call_play "a.wav"; call_play_pitched "b.wav" 3] init)
        /\ procs o !! 0%nat = Some p
        /\ returncode p = None
        /\ cmd p = afplay "a.wav").
Proof.
  split; [|split].
  - exists "/tmp/tmp0.wav".
    exists (remove_file "/tmp/tmp0.wav"
              (add_process
                 (ffmpeg "a.wav" (@pitch_filter_text fraction_format 3) "/tmp/tmp0.wav")
                 (add_file "/tmp/tmp0.wav" (os init)))).
    exists {| cmd := ffmpeg "a.wav" (@pitch_filter_text fraction_format 3) "/tmp/tmp0.wav";
              returncode := None |}.
    split.
    + apply (list_elem_of_lookup_2 _ 0%nat). vm_compute. reflexivity.
    + split; [reflexivity|]. split; reflexivity.
  - exists "/tmp/tmp0.wav".
    exists (remove_file "/tmp/tmp0.wav"
              (add_process
                 (ffmpeg "a.wav" (@pitch_filter_text fraction_format 3) "/tmp/tmp0.wav")
                 (add_file "/tmp/tmp0.wav" (os init)))).
    exists {| cmd := ffmpeg "a.wav" (@pitch_filter_text fraction_format 3) "/tmp/tmp0.wav";
              returncode := None |}.
    split.
    + apply (list_elem_of_lookup_2 _ 0%nat). vm_compute. reflexivity.
    + split; [reflexivity|]. split; reflexivity.
  - exists "/tmp/tmp4.wav".
    eexists. exists {| cmd := afplay "a.wav"; returncode := None |}.
    split.
    + apply (list_elem_of_lookup_2 _ 1%nat). vm_compute. reflexivity.
    + split; [reflexivity|]. split; reflexivity.
Qed.

Lemma is_default_fields (e : SampleEdits) :
  is_default e = true <->
  (attack_ms e == 0)%Q /\ (release_ms e == 0)%Q /\ (gain_db e == 0)%Q
  /\ normalize e = false /\ hp_freq e = 20 /\ lp_freq e = 20000
  /\ reverse e = false /\ (trim_start_ms e == 0)%Q /\ (trim_end_ms e == 0)%Q.
Proof.
  unfold is_default, SampleEdits_eq. cbv zeta. simpl.
  rewrite !andb_true_iff, !Qeq_bool_iff, !Z.eqb_eq, !Bool.eqb_true_iff.
  tauto.
Qed.

Lemma default_chain_filters (e : SampleEdits) (d : Q) :
  is_default e = true -> chain_filters e d = [].
Proof.
  intros (Ha & Hr & Hg & Hn & Hhp & Hlp & Hrev & Hts & Hte)%is_default_fields.
  rewrite chain_filters_eq.
  assert (Hz : forall x, (x == 0)%Q -> Qltb 0 x = false).
  { intros x Hx. apply Qltb_ge. rewrite Hx. apply Qle_refl. }
  rewrite (Hz _ Ha), (Hz _ Hr), (Hz _ Hts), (Hz _ Hte), Hn, Hrev, Hhp, Hlp.
  apply Qeq_bool_iff in Hg. rewrite Hg. reflexivity.
Qed.

Lemma edits_chain_empty `{NumberFormat} (e : SampleEdits) (d : Q) (pitch : Z) :
  edits_chain e d pitch = "" <-> chain_filters e d = [] /\ pitch = 0.
Proof.
  rewrite edits_chain_join, join_filters_empty. unfold edits_filters.
  destruct (Z.eqb_spec pitch 0) as [->|Hne].
  - rewrite app_nil_r. tauto.
  - split.
    + intros [_ Hp]%app_eq_nil. discriminate.
    + intros [_ Hp]. contradiction.
Qed.

(** C5.  [is_default] holds exactly when every field has its default (0,
    false, 20, 20000).  A default model compiles to an empty chain for
    every duration.  The chain [play_with_edits] computes is empty exactly
    when the edit chain is empty and the pitch is 0, and then
    [play_with_edits] is [play] on the original path: a call that returns
    has spawned one process, [afplay] on that path, and created no
    file. *)
Theorem default_plays_original `{NumberFormat} (e : SampleEdits) :
  (is_default e = true <->
     (attack_ms e == 0)%Q /\ (release_ms e == 0)%Q /\ (gain_db e == 0)%Q
     /\ normalize e = false /\ hp_freq e = 20 /\ lp_freq e = 20000
     /\ reverse e = false /\ (trim_start_ms e == 0)%Q /\ (trim_end_ms e == 0)%Q)
  /\ (is_default e = true ->
      forall d, chain_filters e d = [] /\ build_filter_chain e d = ""
                /\ edits_chain e d 0 = "")
  /\ (forall d pitch,
        edits_chain e d pitch = "" <-> chain_filters e d = [] /\ pitch = 0)
  /\ (forall env d pitch path,
        edits_chain e d pitch = "" ->
        play_with_edits env path e d pitch = play env path)
  /\ (forall env path s s',
        play env path s = Return tt s' ->
        exists pid,
          _process (self s') = Some pid
          /\ procs (os s') !! pid = Some {| cmd := afplay path; returncode := None |}
          /\ length (procs (os s')) = S (length (procs (os s)))
          /\ files (os s') ⊆ files (os s)
          /\ _temp_files (self s') = []).
Proof.
  split; [apply is_default_fields|].
  split.
  { intros Hd d. pose proof (default_chain_filters e d Hd) as Hc.
    split; [exact Hc|]. split.
    - unfold build_filter_chain. now rewrite Hc.
    - apply edits_chain_empty. auto. }
  split; [apply edits_chain_empty|].
  split.
  { intros env d pitch path Hc. rewrite play_with_edits_unfold, Hc. reflexivity. }
  intros env path s s' Hplay.
  pose proof (play_outcome_spec env path s) as Ho. rewrite Hplay in Ho.
  inversion Ho as [| |s1 s'' Hst Hself Hw]; subst s''.
  destruct Hst as (_ & [Hlen _] & _ & Hfiles & _).
  injection Hw as Hos Hhist.
  exists (length (procs (os s1))).
  split; [now rewrite Hself|].
  split. { rewrite Hos. simpl. rewrite lookup_app_r by lia. now rewrite Nat.sub_diag. }
  split. { rewrite Hos. simpl. rewrite length_app. simpl. lia. }
  split; [now rewrite Hos|now rewrite Hself].
Qed.

(** The default model at pitch 0 in a calm environment: the original file
    is played. *)
Lemma default_plays_original_witness :
  @play_with_edits fraction_format calm "kick.wav" SampleEdits_new 1000 0
  = play calm "kick.wav".
Proof.
  destruct (@default_plays_original fraction_format SampleEdits_new)
    as (_ & Hdefault & _ & Hplay & _).
  apply Hplay. apply (Hdefault eq_refl 1000%Q).
Defined.

Section RenderFailure.
Context `{NumberFormat} (env : Env).

Lemma stopped_events (s s1 : state) :
  stopped env s s1 ->
  length (procs (os s1)) = length (procs (os s))
  /\ exists snew,
       history s1 = snew ++ history s
       /\ Forall (fun m => stop_event s (fst m)) snew.
Proof.
  intros (_ & [Hlen _] & _ & _ & _ & dels & sigs & Hh & Hsigs & Hdels).
  split; [exact Hlen|]. exists (dels ++ sigs).
  split; [now rewrite <- app_assoc|].
  apply Forall_app. split.
  - eapply Forall_impl; [exact Hdels|]. intros m [(f & Hf & _) _]. left. eauto.
  - eapply Forall_impl; [exact Hsigs|]. intros m [Hm _]. right. exact Hm.
Qed.

Lemma stop_event_spawned (s : state) (pid : nat) (c : command) :
  ~ stop_event s (Spawned pid c).
Proof.
  intros [[f Hf]|(p & _ & _ & [E|[E|[rc E]]])]; discriminate.
Qed.

Lemma stop_event_exited (s : state) (pid : nat) (rc : Z) :
  stop_event s (Exited pid rc) -> (pid < length (procs (os s)))%nat.
Proof.
  intros [[f Hf]|(p & Hp & Hplaying & [E|[E|[rc' E]]])]; try discriminate.
  injection E as -> _. now apply is_playing_lt.
Qed.

Lemma idle_stop_event (s : state) (ev : event) :
  _process (self s) = None -> stop_event s ev -> exists f, ev = Unlinked f.
Proof.
  intros Hidle [Hf|(p & Hp & _)]; [exact Hf|congruence].
Qed.

Lemma play_outcome_events (path : string) (s : state) (r : result unit) :
  play_outcome env path s r ->
  exists pnew,
    history (state_of r) = pnew ++ history s
    /\ Forall (fun m => play_event path s (fst m)) pnew.
Proof.
  intros [s' (_ & _ & Hplaying & pid & Hpid & Hh)
         |s1 e s' Hst _ Hfail|s1 s' Hst _ Hw]; simpl.
  - exists [(Terminated pid, os s)]. split; [exact Hh|].
    constructor; [|constructor]. left. right. exists pid.
    split; [exact Hpid|]. split; [exact Hplaying|]. now left.
  - destruct (stopped_events s s1 Hst) as (Hlen & snew & Hh & Hsnew).
    assert (Hstop : Forall (fun m => play_event path s (fst m)) snew).
    { eapply Forall_impl; [exact Hsnew|]. intros m Hm. now left. }
    destruct Hfail as [[_ Hw]|[_ Hw]]; injection Hw as _ Hhist.
    + exists snew. split; [congruence|exact Hstop].
    + eexists (_ :: _ :: snew). split.
      * rewrite Hhist, Hh. reflexivity.
      * constructor; [|constructor; [|exact Hstop]]; simpl; rewrite Hlen.
        -- right. now right.
        -- right. now left.
  - destruct (stopped_events s s1 Hst) as (Hlen & snew & Hh & Hsnew).
    injection Hw as _ Hhist. eexists (_ :: snew). split.
    + rewrite Hhist, Hh. reflexivity.
    + constructor; [simpl; rewrite Hlen; right; now left|].
      eapply Forall_impl; [exact Hsnew|]. intros m Hm. now left.
Qed.

Lemma render_outcome_quiet (path af : string) (s : state) (r : result unit) :
  render_outcome env path af s r -> render_failure_is_quiet path af s r.
Proof.
  intros Ho new pid tmp' rc o o' Hnew Hspawn Hexit Hrc.
  assert (Hin : forall (snew : list (event * OS)) (x : event * OS),
            Forall (fun m => stop_event s (fst m)) snew ->
            x ∈ snew -> stop_event s (fst x)).
  { intros snew x Hall Hx. rewrite Forall_forall in Hall. now apply Hall. }
  destruct Ho as [s' (_ & _ & _ & p & _ & Hh)
                 |s1 tmp e s' Hst Hself Hfail|s1 tmp s' Hst Hself Hw _
                 |s1 tmp rc' s' Hst Hrc' Hself Hw|s1 tmp s2 r' Hst Hself Hw Hplay];
    simpl in Hnew.
  - exfalso. change (history s' = [(Terminated p, os s)] ++ history s) in Hh.
    rewrite Hh in Hnew. apply app_inv_tail in Hnew. subst new.
    apply list_elem_of_singleton in Hspawn. discriminate.
  - exfalso. destruct (stopped_events s s1 Hst) as (Hlen & snew & Hh & Hsnew).
    destruct Hfail as [[_ Hw]|[_ Hw]]; injection Hw as _ Hhist;
      rewrite Hhist, Hh in Hnew.
    + change ((Created tmp, add_file tmp (os s1)) :: snew ++ history s)
        with (((Created tmp, add_file tmp (os s1)) :: snew) ++ history s) in Hnew.
      apply app_inv_tail in Hnew. subst new.
      apply elem_of_cons in Hspawn as [E|Hspawn]; [discriminate|].
      apply (stop_event_spawned s pid (ffmpeg path af tmp')).
      apply (Hin snew _ Hsnew Hspawn).
    + simpl in Hnew.
      match type of Hnew with ?a :: ?b :: ?c :: snew ++ _ = _ =>
        change ((a :: b :: c :: snew) ++ history s = new ++ history s) in Hnew
      end.
      apply app_inv_tail in Hnew. subst new.
      rewrite !elem_of_cons in Hspawn, Hexit.
      destruct Hexit as [E|[E|[E|Hexit]]]; try discriminate.
      apply (Hin snew _ Hsnew), stop_event_exited in Hexit.
      destruct Hspawn as [E|[E|[E|Hspawn]]]; try discriminate.
      * injection E as -> _ _. lia.
      * apply (Hin snew _ Hsnew) in Hspawn.
        now apply stop_event_spawned in Hspawn.
  - exfalso. destruct (stopped_events s s1 Hst) as (Hlen & snew & Hh & Hsnew).
    injection Hw as _ Hhist. rewrite Hhist, Hh in Hnew. simpl in Hnew.
    match type of Hnew with ?a :: ?b :: snew ++ _ = _ =>
      change ((a :: b :: snew) ++ history s = new ++ history s) in Hnew
    end.
    apply app_inv_tail in Hnew. subst new.
    rewrite !elem_of_cons in Hspawn, Hexit.
    destruct Hexit as [E|[E|Hexit]]; try discriminate.
    apply (Hin snew _ Hsnew), stop_event_exited in Hexit.
    destruct Hspawn as [E|[E|Hspawn]]; try discriminate.
    + injection E as -> _ _. lia.
    + apply (Hin snew _ Hsnew) in Hspawn. now apply stop_event_spawned in Hspawn.
  - destruct (stopped_events s s1 Hst) as (Hlen & snew & Hh & Hsnew).
    injection Hw as _ Hhist. rewrite Hhist, Hh in Hnew. simpl in Hnew.
    match type of Hnew with ?a :: ?b :: ?c :: snew ++ _ = _ =>
      change ((a :: b :: c :: snew) ++ history s = new ++ history s) in Hnew
    end.
    apply app_inv_tail in Hnew. subst new.
    simpl. split; [eauto|]. split; [unfold is_playing; now rewrite Hself|].
    split; [now rewrite Hself|].
    intros pid' p o'' Hplayer. rewrite !elem_of_cons in Hplayer.
    destruct Hplayer as [E|[E|[E|Hplayer]]]; try discriminate.
    apply (Hin snew _ Hsnew) in Hplayer. now apply stop_event_spawned in Hplayer.
  - exfalso. destruct (stopped_events s s1 Hst) as (Hlen & snew & Hh & Hsnew).
    destruct (play_outcome_events tmp s2 r' Hplay) as (pnew & Hp & Hpnew).
    injection Hw as _ Hhist. rewrite Hp, Hhist, Hh in Hnew. simpl in Hnew.
    match type of Hnew with pnew ++ ?a :: ?b :: ?c :: snew ++ _ = _ =>
      change (pnew ++ (a :: b :: c :: snew) ++ history s = new ++ history s) in Hnew
    end.
    rewrite app_assoc in Hnew. apply app_inv_tail in Hnew. subst new.
    assert (Hidle : forall x : event * OS, x ∈ pnew ->
              (exists f, fst x = Unlinked f)
              \/ (exists n p, fst x = Spawned n (afplay p))
              \/ exists n, fst x = Killed n).
    { intros x Hx. rewrite Forall_forall in Hpnew.
      destruct (Hpnew x Hx) as [Hs|[E|E]]; [left|right; left; eauto|right; right; eauto].
      apply (idle_stop_event s2); [now rewrite Hself|exact Hs]. }
    rewrite elem_of_app, !elem_of_cons in Hspawn, Hexit.
    destruct Hexit as [Hexit|[E|[E|[E|Hexit]]]]; try discriminate.
    + apply Hidle in Hexit as [[f E]|[(n & p & E)|[n E]]]; discriminate.
    + injection E as -> -> _. congruence.
    + apply (Hin snew _ Hsnew), stop_event_exited in Hexit.
      destruct Hspawn as [Hspawn|[E|[E|[E|Hspawn]]]]; try discriminate.
      * apply Hidle in Hspawn as [[f E]|[(n & p & E)|[n E]]]; discriminate.
      * injection E as -> _ _. simpl in Hexit. lia.
      * apply (Hin snew _ Hsnew) in Hspawn. now apply stop_event_spawned in Hspawn.
Qed.

(** C3.  A call of [play_pitched] with [semitones != 0], or of
    [play_with_edits] with a chain that is not empty, whose render exits
    with a status other than 0 returns without an exception, leaves the
    player idle ([is_playing] is false, no process is held) and spawns no
    player. *)
Theorem render_failure_leaves_idle (path : string) (s : state) :
  (forall semitones,
     semitones <> 0 ->
     render_failure_is_quiet path (pitch_filter_text semitones) s
       (play_pitched env path semitones s))
  /\ (forall e d pitch,
        edits_chain e d pitch <> "" ->
        render_failure_is_quiet path (edits_chain e d pitch) s
          (play_with_edits env path e d pitch s)).
Proof.
  split.
  - intros n Hn. rewrite play_pitched_unfold.
    destruct (Z.eqb_spec n 0) as [E|_]; [contradiction|].
    apply render_outcome_quiet, render_outcome_spec.
  - intros e d pitch Hc. rewrite play_with_edits_unfold.
    destruct (String.eqb_spec (edits_chain e d pitch) ""); [contradiction|].
    apply render_outcome_quiet, render_outcome_spec.
Qed.
End RenderFailure.
(** [play_pitched("a.wav", 3)] on a new player when ffmpeg exits with
    status 1: the call returns, and the player is idle. *)
Lemma render_failure_leaves_idle_witness :
  (exists s', @play_pitched fraction_format failing_render "a.wav" 3 init
              = Return tt s')
  /\ is_playing (state_of (@play_pitched fraction_format failing_render "a.wav" 3 init))
     = false.
Proof.
  destruct (@render_failure_leaves_idle fraction_format failing_render "a.wav" init)
    as [Hpitched _].
  specialize (Hpitched 3 ltac:(discriminate)).
  unfold render_failure_is_quiet in Hpitched.
  destruct (Hpitched
              (history (state_of (@play_pitched fraction_format failing_render
                                    "a.wav" 3 init)))
              0%nat "/tmp/tmp0.wav" 1
              (add_process
                 (ffmpeg "a.wav" (@pitch_filter_text fraction_format 3) "/tmp/tmp0.wav")
                 (add_file "/tmp/tmp0.wav" (os init)))
              (end_process 0 1
                 (add_process
                    (ffmpeg "a.wav" (@pitch_filter_text fraction_format 3) "/tmp/tmp0.wav")
                    (add_file "/tmp/tmp0.wav" (os init)))))
    as (Hret & Hidle & _).
  - symmetry. apply app_nil_r.
  - apply (list_elem_of_lookup_2 _ 1%nat). vm_compute. reflexivity.
  - apply (list_elem_of_lookup_2 _ 0%nat). vm_compute. reflexivity.
  - discriminate.
  - split; [exact Hret|exact Hidle].
Defined.

(** The file a pitched or edited playback renders is deleted before it is
    played: [play] begins with [stop], and [stop] deletes every registered
    temporary file, the one just rendered included.  When no deletion
    fails, a call of [play_pitched] with [semitones != 0] that returns
    with a playback running holds an [afplay] process on a temporary file
    that is no longer on disk. *)
Theorem rendered_file_deleted_before_play `{NumberFormat} (env : Env)
    (path : string) (semitones : Z) (s s' : state) :
  (forall k, unlink_oserror env k = false) ->
  semitones <> 0 ->
  play_pitched env path semitones s = Return tt s' ->
  is_playing s' = true ->
  exists pid tmp,
    _process (self s') = Some pid
    /\ procs (os s') !! pid = Some {| cmd := afplay tmp; returncode := None |}
    /\ tmp ∉ files (os s').
Proof.
  intros Hno Hn Hplay Hplaying.
  rewrite play_pitched_unfold in Hplay.
  destruct (Z.eqb_spec semitones 0) as [E|_]; [contradiction|].
  pose proof (render_outcome_spec env path (pitch_filter_text semitones) s) as Ho.
  rewrite Hplay in Ho.
  inversion Ho as [| | |s1 tmp rc s'' Hst Hrc Hself Hw
                  |s1 tmp s2 r Hst Hself Hw Hp]; subst.
  - unfold is_playing in Hplaying. rewrite Hself in Hplaying. discriminate.
  - inversion Hp as [| |s3 s'' Hst3 Hself3 Hw3]; subst.
    destruct Hst3 as (_ & [Hlen _] & _ & _ & Hgone & _).
    injection Hw3 as Hos _.
    exists (length (procs (os s3))), tmp.
    split; [now rewrite Hself3|]. split.
    + rewrite Hos. simpl. rewrite lookup_app_r by lia. now rewrite Nat.sub_diag.
    + rewrite Hos. simpl. apply (Hgone Hno). rewrite Hself.
      apply elem_of_cons. now left.
Qed.

(** [play_pitched("a.wav", 3)] in a calm environment. *)
Lemma rendered_file_deleted_before_play_witness :
  exists pid tmp,
    let s' := state_of (@play_pitched fraction_format calm "a.wav" 3 init) in
    _process (self s') = Some pid
    /\ procs (os s') !! pid = Some {| cmd := afplay tmp; returncode := None |}
    /\ tmp ∉ files (os s').
Proof.
  apply (@rendered_file_deleted_before_play fraction_format calm "a.wav" 3 init).
  - intros k. reflexivity.
  - discriminate.
  - vm_compute. reflexivity.
  - vm_compute. reflexivity.
Defined.

(** ** Waveform rendering *)

Lemma py_int_floor (x : Q) : (0 <= x)%Q -> py_int x = Qfloor x.
Proof.
  intros Hx. unfold py_int, Qfloor. destruct x as [n d]. simpl.
  assert (0 <= n) by (unfold Qle in Hx; simpl in Hx; lia).
  apply Z.quot_div_nonneg; lia.
Qed.

Lemma block_index_range (p : Q) :
  (0 <= p)%Q -> 0 <= block_index p <= 7.
Proof.
  intros Hp. unfold block_index. rewrite py_int_floor.
  - assert (0 <= Qfloor (p * 7)).
    { change 0 with (Qfloor 0). apply Qfloor_resp_le. lra. }
    lia.
  - lra.
Qed.

Lemma block_index_one (p : Q) : (1 <= p)%Q -> block_index p = 7.
Proof.
  intros Hp. unfold block_index. rewrite py_int_floor.
  - assert (7 <= Qfloor (p * 7)).
    { change 7 with (Qfloor 7) at 1. apply Qfloor_resp_le. lra. }
    lia.
  - lra.
Qed.

Lemma py_index_blocks (i : Z) :
  0 <= i <= 7 -> py_index WAVEFORM_BLOCKS i = WAVEFORM_BLOCKS !! Z.to_nat i
                 /\ is_Some (WAVEFORM_BLOCKS !! Z.to_nat i).
Proof.
  intros Hi. unfold py_index. destruct (Z.ltb_spec i 0) as [?|_]; [lia|].
  split; [reflexivity|]. apply lookup_lt_is_Some. simpl. lia.
Qed.

Lemma render_waveform_spec (peaks : list Q) (width : Z) :
  Forall (fun p => (0 <= p)%Q) peaks ->
  exists chars,
    render_waveform peaks width = Some chars
    /\ Forall2 (fun p c => WAVEFORM_BLOCKS !! Z.to_nat (block_index p) = Some c)
         (py_prefix peaks width) chars.
Proof.
  intros Hnn.
  assert (Hpre : Forall (fun p => (0 <= p)%Q) (py_prefix peaks width)).
  { unfold py_prefix. destruct (width <? 0)%Z; apply Forall_take; exact Hnn. }
  unfold render_waveform.
  induction Hpre as [|p l Hp Hl IH].
  - exists []. split; [reflexivity|constructor].
  - destruct IH as (chars & Hc & HF).
    destruct (py_index_blocks (block_index p) (block_index_range p Hp)) as [Hidx [c Hsome]].
    exists (c :: chars). split.
    + apply mapM_Some. constructor.
      * change (py_index WAVEFORM_BLOCKS (block_index p) = Some c).
        now rewrite Hidx.
      * apply mapM_Some in Hc. exact Hc.
    + constructor; assumption.
Qed.

Lemma get_waveform_unit_range (raw : list byte) (bins : Z) :
  0 < bins ->
  exists peaks,
    get_waveform raw bins = peaks_ok peaks
    /\ Z.of_nat (length peaks) = bins
    /\ Forall (fun v => (0 <= v <= 1)%Q) peaks.
Proof.
  intros Hb. eexists. split; [apply get_waveform_peaks; exact Hb|].
  destruct (envelope_of_peaks (decode raw) bins Hb)
    as (pk & mx & Hlen & _ & _ & _ & _ & Hrange).
  split; assumption.
Qed.

Lemma py_prefix_length {A} (l : list A) (width : Z) :
  0 <= width ->
  Z.of_nat (length (py_prefix l width)) = Z.min (Z.of_nat (length l)) width.
Proof.
  intros Hw. unfold py_prefix. destruct (Z.ltb_spec width 0); [lia|].
  rewrite length_take. lia.
Qed.

(** X2: the waveform line of an audio file.  For a positive number of bins
    and a width that is not negative, [render_waveform] applied to the
    result of [get_waveform] never fails; the line has [min(bins, width)]
    characters, and its [i]-th character is the block of level
    [floor(7 * p)], capped at 7, of the [i]-th peak [p]. *)
Theorem waveform_line (raw : list byte) (bins width : Z) :
  0 < bins -> 0 <= width ->
  exists peaks chars,
    get_waveform raw bins = peaks_ok peaks
    /\ render_waveform peaks width = Some chars
    /\ Z.of_nat (length chars) = Z.min bins width
    /\ forall i c, chars !! i = Some c ->
         exists p, peaks !! i = Some p
           /\ WAVEFORM_BLOCKS !! Z.to_nat (Z.min (Qfloor (p * 7)) 7) = Some c.
Proof.
  intros Hb Hw.
  destruct (get_waveform_unit_range raw bins Hb) as (peaks & Hg & Hlen & Hr).
  assert (Hnn : Forall (fun p => (0 <= p)%Q) peaks).
  { eapply Forall_impl; [exact Hr|]. intros p [H0 _]. exact H0. }
  destruct (render_waveform_spec peaks width Hnn) as (chars & Hc & HF).
  exists peaks, chars. split; [exact Hg|]. split; [exact Hc|]. split.
  - rewrite <- (Forall2_length _ _ _ HF), py_prefix_length by exact Hw. lia.
  - intros i c Hi.
    destruct (Forall2_lookup_r _ _ _ _ _ HF Hi) as (p & Hp & Hblock).
    assert (Hp' : peaks !! i = Some p).
    { unfold py_prefix in Hp. destruct (width <? 0)%Z;
        apply lookup_take_Some in Hp; tauto. }
    exists p. split; [exact Hp'|].
    unfold block_index in Hblock. rewrite py_int_floor in Hblock; [exact Hblock|].
    assert (0 <= p)%Q by (eapply Forall_lookup_1 in Hnn; [exact Hnn|exact Hp']).
    lra.
Qed.

(** [get_waveform(b"\x04\x00\xf8\xff\x02\x00\x00\x00", 4)] drawn 3 wide. *)
Lemma waveform_line_witness :
  exists peaks chars,
    get_waveform [x04; x00; xf8; xff; x02; x00; x00; x00] 4 = peaks_ok peaks
    /\ render_waveform peaks 3 = Some chars
    /\ Z.of_nat (length chars) = Z.min 4 3
    /\ forall i c, chars !! i = Some c ->
         exists p, peaks !! i = Some p
           /\ WAVEFORM_BLOCKS !! Z.to_nat (Z.min (Qfloor (p * 7)) 7) = Some c.
Proof.
  apply (waveform_line [x04; x00; xf8; xff; x02; x00; x00; x00] 4 3); lia.
Defined.

Lemma py_prefix_all {A} (l : list A) (width : Z) :
  Z.of_nat (length l) <= width -> py_prefix l width = l.
Proof.
  intros Hw. unfold py_prefix. destruct (Z.ltb_spec width 0); [lia|].
  apply take_ge. lia.
Qed.

(** X3: the waveform display is scaled to the loudest bin.  With a
    positive number of bins that all fit in the width, either the sound is
    silent, every peak is 0 and every character of the line is the lowest
    block, or some peak is 1 and the line has the full block in its
    place. *)
Theorem waveform_reaches_top (raw : list byte) (bins width : Z) :
  0 < bins <= width ->
  exists peaks chars,
    get_waveform raw bins = peaks_ok peaks
    /\ render_waveform peaks width = Some chars
    /\ ((Forall (fun p => (p == 0)%Q) peaks
         /\ Forall (fun c => c = 0x2581%N) chars)
        \/ (exists i p, peaks !! i = Some p /\ (p == 1)%Q
                        /\ chars !! i = Some 0x2588%N)).
Proof.
  intros [Hb Hw].
  pose proof (get_waveform_peaks raw bins Hb) as Hg. cbv zeta in Hg.
  set (samples := decode raw) in *.
  set (n := Z.of_nat (length samples)) in *.
  set (pk := map (bin_peak samples n (window_size n bins)) (seqZ 0 bins)) in *.
  set (mx := max_of pk) in *.
  assert (Hpk_nn : forall x, x ∈ pk -> 0 <= x).
  { intros x Hx. unfold pk in Hx. rewrite map_fmap in Hx.
    apply list_elem_of_fmap in Hx as (i & -> & _). apply bin_peak_nonneg. }
  assert (Hpk_len : length pk = Z.to_nat bins).
  { unfold pk. rewrite length_map, length_seqZ. reflexivity. }
  destruct (get_waveform_unit_range raw bins Hb) as (peaks & Hg' & Hlen & Hr).
  assert (Hnn : Forall (fun p => (0 <= p)%Q) peaks).
  { eapply Forall_impl; [exact Hr|]. intros p [H0 _]. exact H0. }
  destruct (render_waveform_spec peaks width Hnn) as (chars & Hc & HF).
  rewrite py_prefix_all in HF by lia.
  exists peaks, chars. split; [exact Hg'|]. split; [exact Hc|].
  rewrite Hg in Hg'. injection Hg' as Hpeaks.
  destruct (Z.ltb_spec 0 mx) as [Hpos|Hzero].
  - right.
    assert (Hin : mx ∈ pk).
    { apply max_of_elem; [|exact Hpk_nn].
      intros E. rewrite E in Hpk_len. simpl in Hpk_len. lia. }
    apply list_elem_of_lookup in Hin as [i Hi].
    assert (Hp : peaks !! i = Some (Qred (inject_Z mx / inject_Z mx))).
    { rewrite <- Hpeaks, map_fmap, list_lookup_fmap, Hi. reflexivity. }
    assert (H1 : (Qred (inject_Z mx / inject_Z mx) == 1)%Q).
    { rewrite Qred_correct. apply Qmult_inv_r.
      intros E. apply (Qeq_bool_neq (inject_Z mx) 0); [|exact E].
      unfold Qeq_bool, inject_Z. simpl. apply Z.eqb_neq. lia. }
    exists i, (Qred (inject_Z mx / inject_Z mx)).
    split; [exact Hp|]. split; [exact H1|].
    destruct (Forall2_lookup_l _ _ _ _ _ HF Hp) as (c & Hci & Hblock).
    rewrite block_index_one in Hblock by (rewrite H1; apply Qle_refl).
    rewrite Hci. rewrite <- Hblock. reflexivity.
  - left.
    assert (Hall0 : Forall (fun x => x = 0) pk).
    { apply Forall_forall. intros x Hx.
      pose proof (Hpk_nn x Hx). pose proof (max_of_ge pk x Hx). fold mx in H0. lia. }
    assert (Hpz : Forall (fun p => (p == 0)%Q) peaks).
    { rewrite <- Hpeaks, map_fmap. apply Forall_fmap.
      eapply Forall_impl; [exact Hall0|]. intros x ->. reflexivity. }
    split; [exact Hpz|].
    apply Forall_forall. intros c Hc'.
    apply list_elem_of_lookup in Hc' as [i Hi].
    destruct (Forall2_lookup_r _ _ _ _ _ HF Hi) as (p & Hp & Hblock).
    assert (Hp0 : (p == 0)%Q) by (eapply Forall_lookup_1 in Hpz; [exact Hpz|exact Hp]).
    assert (Hidx : block_index p = 0).
    { unfold block_index. rewrite py_int_floor by (rewrite Hp0; apply Qle_refl).
      assert (E : (p * 7 == 0)%Q) by (rewrite Hp0; reflexivity).
      rewrite E. reflexivity. }
    rewrite Hidx in Hblock. simpl in Hblock. now injection Hblock.
Qed.

(** Four samples 4, -8, 2, 0 in four bins, drawn 50 wide. *)
Lemma waveform_reaches_top_witness :
  exists peaks chars,
    get_waveform [x04; x00; xf8; xff; x02; x00; x00; x00] 4 = peaks_ok peaks
    /\ render_waveform peaks 50 = Some chars
    /\ ((Forall (fun p => (p == 0)%Q) peaks
         /\ Forall (fun c => c = 0x2581%N) chars)
        \/ (exists i p, peaks !! i = Some p /\ (p == 1)%Q
                        /\ chars !! i = Some 0x2588%N)).
Proof.
  apply (waveform_reaches_top [x04; x00; xf8; xff; x02; x00; x00; x00] 4 50). lia.
Defined.

Lemma unpack_samples_take (k : nat) (raw : list byte) :
  unpack_samples (take (2 * k) raw) = take k (unpack_samples raw).
Proof.
  revert raw. induction k as [|k IH]; intros raw.
  - reflexivity.
  - replace (2 * S k)%nat with (S (S (2 * k))) by lia.
    destruct raw as [|lo [|hi rest]]; try reflexivity.
    change (take (S (S (2 * k))) (lo :: hi :: rest)) with (lo :: hi :: take (2 * k) rest).
    change (unpack_samples (lo :: hi :: take (2 * k) rest))
      with (unpack_h lo hi :: unpack_samples (take (2 * k) rest)).
    rewrite IH. reflexivity.
Qed.

Lemma unpack_samples_take_all (k : nat) (raw : list byte) :
  (length raw <= 2 * k + 1)%nat ->
  unpack_samples (take (2 * k) raw) = unpack_samples raw.
Proof.
  revert raw. induction k as [|k IH]; intros raw Hlen.
  - destruct raw as [|lo [|hi rest]]; try reflexivity. simpl in Hlen. lia.
  - replace (2 * S k)%nat with (S (S (2 * k))) by lia.
    destruct raw as [|lo [|hi rest]]; try reflexivity.
    change (take (S (S (2 * k))) (lo :: hi :: rest)) with (lo :: hi :: take (2 * k) rest).
    change (unpack_samples (lo :: hi :: take (2 * k) rest))
      with (unpack_h lo hi :: unpack_samples (take (2 * k) rest)).
    rewrite IH by (simpl in Hlen; lia). reflexivity.
Qed.

Lemma decode_unpack (raw : list byte) : decode raw = unpack_samples raw.
Proof.
  unfold decode.
  set (n := Z.of_nat (length raw) / 2).
  assert (Hn : 0 <= n) by (apply Z.div_pos; lia).
  replace (Z.to_nat (n * 2)) with (2 * Z.to_nat n)%nat by lia.
  apply unpack_samples_take_all.
  pose proof (Z.mod_pos_bound (Z.of_nat (length raw)) 2 ltac:(lia)).
  pose proof (Z.div_mod (Z.of_nat (length raw)) 2 ltac:(lia)).
  fold n in H0. lia.
Qed.

Lemma decode_take (k : nat) (raw : list byte) :
  decode (take (2 * k) raw) = take k (decode raw).
Proof. rewrite !decode_unpack. apply unpack_samples_take. Qed.

Lemma py_slice_take {A} (l : list A) (k : nat) (start end_ : Z) :
  0 <= start -> end_ <= Z.of_nat k ->
  py_slice (take k l) start end_ = py_slice l start end_.
Proof.
  intros Hs He. apply list_eq. intros j.
  rewrite !lookup_py_slice by exact Hs.
  destruct (decide _) as [Hlt|_]; [|reflexivity].
  apply lookup_take_lt. lia.
Qed.

Lemma bin_peak_prefix (samples samples' : list Z) (k : nat) (n w i : Z) :
  take k samples' = take k samples ->
  0 <= i -> 0 < w -> i * w + w <= Z.of_nat k ->
  bin_peak samples' n w i = bin_peak samples n w i.
Proof.
  intros Htake Hi Hw Hk. unfold bin_peak.
  destruct (n <=? i * w)%Z; [reflexivity|].
  rewrite <- (py_slice_take samples k), <- (py_slice_take samples' k) by lia.
  rewrite Htake. reflexivity.
Qed.

(** X4: [get_waveform] never looks past its last window.  Of [n] samples
    it shows [bins] windows of [max(1, n // bins)] samples; two sounds of
    the same length that agree on the samples of these windows have the
    same waveform, whatever follows. *)
Theorem waveform_ignores_tail (raw raw' : list byte) (bins : Z) :
  0 < bins ->
  length raw' = length raw ->
  let n := Z.of_nat (length raw) / 2 in
  let shown := bins * window_size n bins in
  take (Z.to_nat (2 * shown)) raw' = take (Z.to_nat (2 * shown)) raw ->
  get_waveform raw' bins = get_waveform raw bins.
Proof.
  intros Hb Hlen n shown Htake.
  rewrite (get_waveform_peaks raw bins Hb), (get_waveform_peaks raw' bins Hb).
  cbv zeta.
  assert (Hn' : Z.of_nat (length (decode raw')) = n).
  { rewrite length_decode, Hlen. reflexivity. }
  assert (Hn : Z.of_nat (length (decode raw)) = n) by apply length_decode.
  rewrite Hn, Hn'.
  pose proof (window_size_pos n bins) as Hw.
  assert (Hk : Z.to_nat (2 * shown) = (2 * Z.to_nat shown)%nat) by (unfold shown; nia).
  rewrite Hk in Htake.
  assert (Hdec : take (Z.to_nat shown) (decode raw') = take (Z.to_nat shown) (decode raw)).
  { rewrite <- !decode_take, Htake. reflexivity. }
  assert (Hpk : map (bin_peak (decode raw') n (window_size n bins)) (seqZ 0 bins)
                = map (bin_peak (decode raw) n (window_size n bins)) (seqZ 0 bins)).
  { rewrite !map_fmap. apply list_fmap_ext. intros j i Hi.
    apply lookup_seqZ in Hi as [-> Hj].
    apply (bin_peak_prefix _ _ (Z.to_nat shown)); [exact Hdec|lia|exact Hw|].
    unfold shown. nia. }
  rewrite Hpk. reflexivity.
Qed.

(** Four samples in three bins: the windows hold one sample each, and the
    fourth sample is not shown. *)
Lemma waveform_ignores_tail_witness :
  get_waveform [x01; x00; x02; x00; x03; x00; x00; x00] 3
  = get_waveform [x01; x00; x02; x00; x03; x00; x64; x00] 3.
Proof.
  apply (waveform_ignores_tail
           [x01; x00; x02; x00; x03; x00; x64; x00]
           [x01; x00; x02; x00; x03; x00; x00; x00] 3).
  - lia.
  - reflexivity.
  - reflexivity.
Defined.

(** ** Catalog: what a parsed sample holds and what [scan] returns *)

Lemma parse_file_facts (self : SampleManager) (f : dir_entry)
    (sample : SampleFile) :
  _parse_file self f = Some sample ->
  path sample = (dir self ++ "/" ++ entry_name f)%string
  /\ filename sample = entry_name f
  /\ size_bytes sample = st_size f
  /\ duration_estimate sample = rough_duration (st_size f)
  /\ match midi_note sample with
     | Some note => DRUM_NOTE_MAP !! note = Some (instrument sample)
                    /\ variant_num sample = None
     | None => instrument sample ∈ ALL_INSTRUMENTS
     end.
Proof.
  unfold _parse_file.
  destruct (drum_match (stem (entry_name f))) as [group1|].
  - destruct (DRUM_NOTE_MAP !! int group1) as [inst|] eqn:Enote.
    + intros [= <-]. simpl. rewrite Enote. repeat split; reflexivity.
    + destruct (inst_match (stem (entry_name f))) as [[inst group2]|].
      * destruct (str_in inst ALL_INSTRUMENTS) eqn:Ein.
        -- intros [= <-]. simpl. apply str_in_spec in Ein. repeat split; assumption.
        -- destruct (List.find _ ALL_INSTRUMENTS) as [inst'|] eqn:Ef; [|discriminate].
           intros [= <-]. simpl. apply find_some in Ef as [Hin _].
           apply list_elem_of_In in Hin. repeat split; assumption.
      * destruct (List.find _ ALL_INSTRUMENTS) as [inst'|] eqn:Ef; [|discriminate].
        intros [= <-]. simpl. apply find_some in Ef as [Hin _].
        apply list_elem_of_In in Hin. repeat split; assumption.
  - destruct (inst_match (stem (entry_name f))) as [[inst group2]|].
    + destruct (str_in inst ALL_INSTRUMENTS) eqn:Ein.
      * intros [= <-]. simpl. apply str_in_spec in Ein. repeat split; assumption.
      * destruct (List.find _ ALL_INSTRUMENTS) as [inst'|] eqn:Ef; [|discriminate].
        intros [= <-]. simpl. apply find_some in Ef as [Hin _].
        apply list_elem_of_In in Hin. repeat split; assumption.
    + destruct (List.find _ ALL_INSTRUMENTS) as [inst'|] eqn:Ef; [|discriminate].
      intros [= <-]. simpl. apply find_some in Ef as [Hin _].
      apply list_elem_of_In in Hin. repeat split; assumption.
Qed.

(** X5: what every sample that [_parse_file] returns holds.  Its path,
    file name, size and estimated duration are those of the directory
    entry.  A sample with a MIDI note is a drum: the note is a key of
    [DRUM_NOTE_MAP], the instrument is its value, and there is no variant
    number.  A sample without a MIDI note has one of the 18 instruments of
    [ALL_INSTRUMENTS]. *)
Theorem parse_file_invariants (self : SampleManager) (f : dir_entry)
    (sample : SampleFile) :
  _parse_file self f = Some sample ->
  path sample = (dir self ++ "/" ++ entry_name f)%string
  /\ filename sample = entry_name f
  /\ size_bytes sample = st_size f
  /\ duration_estimate sample = rough_duration (st_size f)
  /\ match midi_note sample with
     | Some note => DRUM_NOTE_MAP !! note = Some (instrument sample)
                    /\ variant_num sample = None
     | None => instrument sample ∈ ALL_INSTRUMENTS
     end.
Proof. exact (parse_file_facts self f sample). Qed.

(** [36-kick.wav] of 88200 bytes in the directory [samples]. *)
Lemma parse_file_invariants_witness :
  let sample :=
    {| path := "samples/36-kick.wav"; filename := "36-kick.wav";
       instrument := "kick"; variant_num := None; size_bytes := 88200;
       duration_estimate := rough_duration 88200; midi_note := Some 36 |} in
  path sample = ("samples" ++ "/" ++ "36-kick.wav")%string
  /\ filename sample = "36-kick.wav"
  /\ size_bytes sample = 88200
  /\ duration_estimate sample = rough_duration 88200
  /\ DRUM_NOTE_MAP !! 36 = Some (instrument sample)
  /\ variant_num sample = None.
Proof.
  intros sample.
  apply (parse_file_invariants {| dir := "samples" |}
           {| entry_name := "36-kick.wav"; st_size := 88200 |} sample).
  reflexivity.
Defined.

Lemma samples_of_cons (self : SampleManager) (k : string) (f : dir_entry)
    (es : list dir_entry) :
  samples_of self k (f :: es) =
    (if is_audio f then
       match _parse_file self f with
       | Some sample => if decide (instrument sample = k) then [sample] else []
       | None => []
       end
     else []) ++ samples_of self k es.
Proof.
  unfold samples_of. rewrite filter_cons.
  destruct (is_audio f) eqn:Ea.
  - rewrite decide_True by reflexivity. simpl omap.
    destruct (_parse_file self f) as [sample|]; [|reflexivity].
    rewrite filter_cons. destruct (decide (instrument sample = k)); reflexivity.
  - rewrite decide_False by discriminate. reflexivity.
Qed.

Lemma foldl_scan_step_lookup (self : SampleManager) (es : list dir_entry)
    (m : gmap string (list SampleFile)) (k : string) (l : list SampleFile) :
  m !! k = Some l ->
  foldl (scan_step self) m es !! k = Some (l ++ samples_of self k es).
Proof.
  revert m l. induction es as [|f es IH]; intros m l Hk.
  - simpl. unfold samples_of. simpl. now rewrite app_nil_r.
  - simpl foldl. rewrite samples_of_cons. unfold scan_step. fold (is_audio f).
    destruct (is_audio f); simpl negb; cbv iota; [|now apply IH].
    destruct (_parse_file self f) as [sample|]; [|now apply IH].
    destruct (decide (instrument sample = k)) as [E|Hne].
    + rewrite E, Hk. rewrite (IH _ (l ++ [sample])) by apply lookup_insert_eq.
      now rewrite <- app_assoc.
    + destruct (m !! instrument sample) as [l'|]; [|now apply IH].
      apply IH. now rewrite lookup_insert_ne.
Qed.

Lemma scan_initial_lookup (k : string) :
  k ∈ ALL_INSTRUMENTS ->
  (list_to_map (map (fun inst : string => (inst, @nil SampleFile)) ALL_INSTRUMENTS)
     : gmap string (list SampleFile)) !! k = Some [].
Proof.
  intros Hk. apply list_elem_of_In in Hk. simpl in Hk.
  repeat (destruct Hk as [<-|Hk]; [reflexivity|]). contradiction.
Qed.

Lemma scan_contents_eq (fs : file_system) (self : SampleManager)
    (entries : list dir_entry) (k : string) :
  fs (dir self) = Some entries ->
  k ∈ ALL_INSTRUMENTS ->
  scan fs self !! k = Some (samples_of self k (sorted entries)).
Proof.
  intros Hfs Hk. unfold scan. rewrite Hfs.
  rewrite (foldl_scan_step_lookup self (sorted entries) _ k []).
  - reflexivity.
  - now apply scan_initial_lookup.
Qed.

(** X6: the contents of the buckets of [scan].  The bucket of an
    instrument holds the samples that [_parse_file] gives that instrument,
    one for each entry of the directory whose suffix is [.mp3] or [.wav],
    in the sorted order of the entries; nothing else, and none twice. *)
Theorem scan_contents (fs : file_system) (self : SampleManager)
    (entries : list dir_entry) (k : string) :
  fs (dir self) = Some entries ->
  k ∈ ALL_INSTRUMENTS ->
  scan fs self !! k = Some (samples_of self k (sorted entries)).
Proof. exact (scan_contents_eq fs self entries k). Qed.

(** The bucket of [kick] in the example directory. *)
Lemma scan_contents_witness :
  scan example_fs {| dir := "samples" |} !! "kick"
  = Some (samples_of {| dir := "samples" |} "kick" (sorted example_entries)).
Proof.
  apply (scan_contents example_fs {| dir := "samples" |}).
  - reflexivity.
  - apply elem_of_cons. left. reflexivity.
Defined.

Lemma string_compare_cons (x y : ascii) (a b : string) :
  String.compare (String x a) (String y b) =
    match N.compare (N_of_ascii x) (N_of_ascii y) with
    | Eq => String.compare a b
    | Lt => Lt
    | Gt => Gt
    end.
Proof. reflexivity. Qed.

Lemma str_le_trans (a b c : string) : str_le a b -> str_le b c -> str_le a c.
Proof.
  unfold str_le, String.leb. revert b c.
  induction a as [|x a IH]; intros [|y b] [|z c]; try (simpl; congruence).
  rewrite !string_compare_cons.
  destruct (N.compare_spec (N_of_ascii x) (N_of_ascii y)) as [E|L|G];
    destruct (N.compare_spec (N_of_ascii y) (N_of_ascii z)) as [E'|L'|G'];
    try congruence.
  - rewrite E, E', N.compare_refl. apply IH.
  - intros _ _. rewrite E. apply N.compare_lt_iff in L'. now rewrite L'.
  - intros _ _. rewrite <- E'. apply N.compare_lt_iff in L. now rewrite L.
  - intros _ _. assert (Hlt : (N_of_ascii x < N_of_ascii z)%N) by lia.
    apply N.compare_lt_iff in Hlt. now rewrite Hlt.
Qed.

Lemma ltb_str_le (a b : string) : String.ltb a b = true -> str_le a b.
Proof. unfold str_le, String.ltb, String.leb. destruct (String.compare a b); congruence. Qed.

Lemma not_ltb_str_le (a b : string) : String.ltb a b = false -> str_le b a.
Proof.
  unfold str_le, String.ltb, String.leb. rewrite (String.compare_antisym b a).
  destruct (String.compare a b); simpl; congruence.
Qed.

Lemma elem_of_insert_sorted (x f : dir_entry) (l : list dir_entry) :
  x ∈ insert_sorted f l <-> x = f \/ x ∈ l.
Proof.
  induction l as [|g l IH]; simpl.
  - rewrite elem_of_cons. reflexivity.
  - destruct (String.ltb _ _).
    + rewrite elem_of_cons. reflexivity.
    + rewrite !elem_of_cons, IH. tauto.
Qed.

Lemma elem_of_sorted (x : dir_entry) (l : list dir_entry) :
  x ∈ sorted l <-> x ∈ l.
Proof.
  induction l as [|f l IH]; [reflexivity|].
  change (sorted (f :: l)) with (insert_sorted f (sorted l)).
  rewrite elem_of_insert_sorted, IH, elem_of_cons. reflexivity.
Qed.

Lemma insert_sorted_sorted (f : dir_entry) (l : list dir_entry) :
  StronglySorted (fun a b => str_le (entry_name a) (entry_name b)) l ->
  StronglySorted (fun a b => str_le (entry_name a) (entry_name b)) (insert_sorted f l).
Proof.
  induction 1 as [|g l Hs IH Hg]; simpl.
  - repeat constructor.
  - destruct (String.ltb (entry_name f) (entry_name g)) eqn:E.
    + apply ltb_str_le in E. constructor; [now constructor|].
      constructor; [exact E|].
      eapply Forall_impl; [exact Hg|]. intros x Hx. simpl in Hx.
      exact (str_le_trans _ _ _ E Hx).
    + apply not_ltb_str_le in E. constructor; [exact IH|].
      apply Forall_forall. intros x Hx. apply elem_of_insert_sorted in Hx as [->|Hx].
      * exact E.
      * eapply Forall_forall in Hg; [exact Hg|exact Hx].
Qed.

Lemma sorted_sorted (l : list dir_entry) :
  StronglySorted (fun a b => str_le (entry_name a) (entry_name b)) (sorted l).
Proof.
  induction l as [|f l IH]; [constructor|].
  change (sorted (f :: l)) with (insert_sorted f (sorted l)).
  now apply insert_sorted_sorted.
Qed.

Lemma elem_of_samples_of (self : SampleManager) (k : string)
    (es : list dir_entry) (s : SampleFile) :
  s ∈ samples_of self k es <->
  exists f, f ∈ es /\ is_audio f = true /\ _parse_file self f = Some s
            /\ instrument s = k.
Proof.
  unfold samples_of. rewrite list_elem_of_filter, list_elem_of_omap. split.
  - intros [Hk (f & Hf & Hp)]. apply list_elem_of_filter in Hf as [Ha Hf].
    exists f. tauto.
  - intros (f & Hf & Ha & Hp & Hk). split; [exact Hk|].
    exists f. split; [|exact Hp]. apply list_elem_of_filter. tauto.
Qed.

Lemma samples_of_sorted (self : SampleManager) (k : string) (es : list dir_entry) :
  StronglySorted (fun a b => str_le (entry_name a) (entry_name b)) es ->
  StronglySorted (fun s t => str_le (filename s) (filename t)) (samples_of self k es).
Proof.
  induction 1 as [|f es Hs IH Hf].
  - constructor.
  - rewrite samples_of_cons.
    destruct (is_audio f); [|exact IH].
    destruct (_parse_file self f) as [sample|] eqn:Ep; [|exact IH].
    destruct (decide (instrument sample = k)); [|exact IH].
    simpl. constructor; [exact IH|].
    apply Forall_forall. intros t Ht.
    apply elem_of_samples_of in Ht as (g & Hg & _ & Hpg & _).
    destruct (parse_file_facts self f sample Ep) as (_ & -> & _).
    destruct (parse_file_facts self g t Hpg) as (_ & -> & _).
    eapply Forall_forall in Hf; [exact Hf|exact Hg].
Qed.

(** X7: which samples a bucket of [scan] holds, and in which order.  A
    sample is in the bucket of [k] exactly when [_parse_file] gives it,
    with instrument [k], for an entry of the directory whose suffix is
    [.mp3] or [.wav]; the samples of a bucket are in ascending order of
    their file names. *)
Theorem scan_bucket_order (fs : file_system) (self : SampleManager)
    (entries : list dir_entry) (k : string) (l : list SampleFile) :
  fs (dir self) = Some entries ->
  scan fs self !! k = Some l ->
  StronglySorted (fun s t => str_le (filename s) (filename t)) l
  /\ forall s, s ∈ l <->
       exists f, f ∈ entries /\ is_audio f = true
                 /\ _parse_file self f = Some s /\ instrument s = k.
Proof.
  intros Hfs Hl.
  assert (Hk : k ∈ ALL_INSTRUMENTS).
  { destruct (scan_buckets_ok fs self) as [Hdom _].
    assert (Hin : k ∈ dom (scan fs self)) by (apply elem_of_dom; eauto).
    rewrite Hdom in Hin. now apply elem_of_list_to_set in Hin. }
  rewrite (scan_contents_eq fs self entries k Hfs Hk) in Hl. injection Hl as <-.
  split.
  - apply samples_of_sorted, sorted_sorted.
  - intros s. rewrite elem_of_samples_of. split.
    + intros (f & Hf & H'). exists f. split; [now apply elem_of_sorted|exact H'].
    + intros (f & Hf & H'). exists f. split; [now apply elem_of_sorted|exact H'].
Qed.

(** The bucket of [kick] in the example directory. *)
Lemma scan_bucket_order_witness :
  let l := samples_of {| dir := "samples" |} "kick" (sorted example_entries) in
  StronglySorted (fun s t => str_le (filename s) (filename t)) l
  /\ forall s, s ∈ l <->
       exists f, f ∈ example_entries /\ is_audio f = true
                 /\ _parse_file {| dir := "samples" |} f = Some s
                 /\ instrument s = "kick".
Proof.
  intros l.
  apply (scan_bucket_order example_fs {| dir := "samples" |} example_entries "kick" l).
  - reflexivity.
  - vm_compute. reflexivity.
Defined.

(** ** Playback of edited samples *)

Section Preview.
Context `{NumberFormat} (env : Env).

Lemma pitch_filter_text_nonempty (pitch : Z) :
  String.eqb (pitch_filter_text pitch) "" = false.
Proof. reflexivity. Qed.

Lemma play_with_edits_no_chain (path : string) (e : SampleEdits) (d : Q) (pitch : Z) :
  chain_filters e d = [] ->
  play_with_edits env path e d pitch = play_pitched env path pitch.
Proof.
  intros Hc.
  assert (Hb : build_filter_chain e d = "").
  { unfold build_filter_chain. rewrite Hc. reflexivity. }
  unfold play_with_edits, play_pitched. cbv zeta. rewrite Hb.
  destruct (pitch =? 0)%Z; simpl negb; cbv iota.
  - reflexivity.
  - change (negb (String.eqb "" "")) with false. cbv iota.
    rewrite pitch_filter_text_nonempty. reflexivity.
Qed.

(** X8: default edits add nothing to pitched playback.  For a default
    [SampleEdits], whatever the duration and the pitch, [play_with_edits]
    is [play_pitched]: the same calls in the same order with the same
    arguments, hence the same outcome in every state. *)
Theorem default_edits_play_pitched (path : string) (e : SampleEdits)
    (d : Q) (pitch : Z) :
  is_default e = true ->
  play_with_edits env path e d pitch = play_pitched env path pitch.
Proof.
  intros Hd. apply play_with_edits_no_chain. now apply default_chain_filters.
Qed.

(** X9: what the sound design screen plays.  [_play_current_sample] plays
    the file through [play_with_edits] with the current edits in editor
    mode and with no edits outside it: the shortcut it takes for default
    edits or outside the editor, [play_sample], leads to the same calls on
    the player. *)
Theorem preview_routing (_editor_mode : bool) (e : SampleEdits) (d : Q)
    (path : string) (pitch : Z) :
  _play_current_sample env _editor_mode e d path pitch =
    play_with_edits env path (if _editor_mode then e else SampleEdits_new) d pitch.
Proof.
  assert (Hplay : play_sample env path pitch = play_pitched env path pitch).
  { unfold play_sample, _do_play, play_pitched.
    destruct (pitch =? 0)%Z; reflexivity. }
  unfold _play_current_sample.
  destruct _editor_mode; simpl andb.
  - destruct (is_default e) eqn:Ed; simpl negb; cbv iota.
    + rewrite Hplay. symmetry. apply play_with_edits_no_chain.
      now apply default_chain_filters.
    + reflexivity.
  - cbv iota. rewrite Hplay. symmetry. apply play_with_edits_no_chain.
    now apply default_chain_filters.
Qed.

(** X10: [stop] is idempotent.  Once a [stop] has returned, the player is
    idle, and a second [stop] returns without a signal, a deletion or any
    other change of the state, however the environment would answer. *)
Theorem stop_idempotent (env' : Env) (s s' : state) :
  stop env s = Return tt s' ->
  is_playing s' = false
  /\ current_file s' = None
  /\ _temp_files (self s') = []
  /\ stop env' s' = Return tt s'
  /\ cleanup env' s' = Return tt s'.
Proof.
  intros Hstop.
  assert (Hself : self s' = Player_new).
  { destruct (stop_outcome env s) as [(s1 & E & Hs)|(s1 & E & _)];
      rewrite Hstop in E; [|discriminate].
    injection E as <-. apply Hs. }
  destruct s' as [me o c h]. simpl in Hself. subst me.
  repeat split; reflexivity.
Qed.
End Preview.

(** Default edits, three semitones up. *)
Lemma default_edits_play_pitched_witness :
  @play_with_edits fraction_format calm "a.wav" SampleEdits_new 1000 3
  = @play_pitched fraction_format calm "a.wav" 3.
Proof.
  apply (@default_edits_play_pitched fraction_format calm "a.wav" SampleEdits_new 1000 3).
  reflexivity.
Defined.

(** A [play] followed by two [stop]s. *)
Lemma stop_idempotent_witness :
  let s := state_of (play calm "a.wav" init) in
  let s' := state_of (stop calm s) in
  is_playing s' = false
  /\ current_file s' = None
  /\ _temp_files (self s') = []
  /\ stop cancelled_render s' = Return tt s'
  /\ cleanup cancelled_render s' = Return tt s'.
Proof.
  intros s s'.
  apply (stop_idempotent calm cancelled_render s s').
  vm_compute. reflexivity.
Defined.

(** ** The player deletes only files it has created *)

Lemma created_app (f : string) (new h : list (event * OS)) :
  created f h -> created f (new ++ h).
Proof. intros [o Ho]. exists o. apply elem_of_app. now right. Qed.

Lemma created_cons (f : string) (m : event * OS) (h : list (event * OS)) :
  created f h -> created f (m :: h).
Proof. apply (created_app f [m] h). Qed.

Lemma deletes_own_app (new h : list (event * OS)) :
  deletes_own h ->
  Forall (fun m => forall f, fst m = Unlinked f -> created f h) new ->
  deletes_own (new ++ h).
Proof.
  intros Hh. induction 1 as [|m new Hm Hnew IH]; [exact Hh|].
  simpl. split; [|exact IH]. intros f Hf. apply created_app. now apply Hm.
Qed.

Lemma deletes_own_split (new old : list (event * OS)) (m : event * OS) :
  deletes_own (new ++ m :: old) ->
  forall f, fst m = Unlinked f -> created f old.
Proof.
  induction new as [|x new IH]; simpl.
  - intros [Hm _]. exact Hm.
  - intros [_ Hrest]. now apply IH.
Qed.

Section PlayerFiles.
Context `{NumberFormat} (env : Env).

Lemma stopped_owns (s s1 : state) :
  owns s -> stopped env s s1 -> owns s1.
Proof.
  intros [Htmp Hdel] (Hself & _ & _ & _ & _ & dels & sigs & Hh & Hsigs & Hdels).
  unfold owns. split.
  - rewrite Hself. constructor.
  - rewrite Hh. apply deletes_own_app.
    + apply deletes_own_app; [exact Hdel|].
      eapply Forall_impl; [exact Hsigs|]. intros m [(pid & _ & _ & Hev) _] f Hf.
      rewrite Hf in Hev. destruct (signal_event_not_unlink _ _ Hev).
    + eapply Forall_impl; [exact Hdels|]. intros m [(f & Hf & Hin) _] g Hg.
      rewrite Hf in Hg. injection Hg as <-.
      apply created_app. eapply Forall_forall in Htmp; [exact Htmp|exact Hin].
Qed.

Lemma interrupted_owns (s s' : state) :
  owns s -> stop_interrupted s s' -> owns s'.
Proof.
  intros [Htmp Hdel] (Hself & _ & _ & pid & _ & Hh). unfold owns. rewrite Hh, Hself. split.
  - eapply Forall_impl; [exact Htmp|]. intros f. apply created_cons.
  - simpl. split; [discriminate|exact Hdel].
Qed.

Lemma spawn_failed_deletes (c : command) (e : exn) (w w' : world) :
  w_spawn_failed c e w w' ->
  (forall f, created f (snd w) -> created f (snd w'))
  /\ (deletes_own (snd w) -> deletes_own (snd w')).
Proof.
  intros [[_ ->]|[_ ->]]; [tauto|]. simpl. split.
  - intros f Hf. now apply created_cons, created_cons.
  - intros Hd. split; [discriminate|]. split; [discriminate|exact Hd].
Qed.

Lemma play_owns (path : string) (s : state) (r : result unit) :
  owns s -> play_outcome env path s r -> owns (state_of r).
Proof.
  intros Hs [s' Hi|s1 e s' Hst Hself Hfail|s1 s' Hst Hself Hw]; simpl.
  - now apply (interrupted_owns s).
  - destruct (stopped_owns s s1 Hs Hst) as [_ Hdel].
    split; [rewrite Hself; constructor|].
    apply (spawn_failed_deletes _ _ _ _ Hfail). exact Hdel.
  - destruct (stopped_owns s s1 Hs Hst) as [_ Hdel].
    split; [rewrite Hself; constructor|].
    injection Hw as _ ->. simpl. split; [discriminate|exact Hdel].
Qed.

Lemma rendered_owns (tmp : string) (s1 s2 : state) (new : list (event * OS)) :
  deletes_own (history s1) ->
  self s2 = {| _process := None; _current_file := None; _temp_files := [tmp] |} ->
  history s2 = new ++ (Created tmp, add_file tmp (os s1)) :: history s1 ->
  Forall (fun m => forall f, fst m <> Unlinked f) new ->
  owns s2.
Proof.
  intros Hdel Hself Hh Hnew. unfold owns. rewrite Hself, Hh. split.
  - constructor; [|constructor]. apply created_app.
    exists (add_file tmp (os s1)). apply elem_of_cons. now left.
  - apply deletes_own_app.
    + simpl. split; [discriminate|exact Hdel].
    + eapply Forall_impl; [exact Hnew|]. intros m Hm f Hf. destruct (Hm f Hf).
Qed.

Lemma render_owns (path af : string) (s : state) (r : result unit) :
  owns s -> render_outcome env path af s r -> owns (state_of r).
Proof.
  intros Hs [s' Hi|s1 tmp e s' Hst Hself Hfail|s1 tmp s' Hst Hself Hw Hc
            |s1 tmp rc s' Hst Hrc Hself Hw|s1 tmp s2 r' Hst Hself Hw Hplay]; simpl.
  - now apply (interrupted_owns s).
  - destruct (stopped_owns s s1 Hs Hst) as [_ Hdel].
    destruct Hfail as [[_ Hw]|[_ Hw]]; injection Hw as _ Hh.
    + apply (rendered_owns tmp s1 s' []); [exact Hdel|exact Hself|exact Hh|constructor].
    + eapply (rendered_owns tmp s1 s' [_; _]); [exact Hdel|exact Hself|exact Hh|].
      repeat constructor; discriminate.
  - destruct (stopped_owns s s1 Hs Hst) as [_ Hdel]. injection Hw as _ Hh.
    eapply (rendered_owns tmp s1 s' [_]); [exact Hdel|exact Hself|exact Hh|].
    repeat constructor; discriminate.
  - destruct (stopped_owns s s1 Hs Hst) as [_ Hdel]. injection Hw as _ Hh.
    eapply (rendered_owns tmp s1 s' [_; _]); [exact Hdel|exact Hself|exact Hh|].
    repeat constructor; discriminate.
  - destruct (stopped_owns s s1 Hs Hst) as [_ Hdel]. injection Hw as _ Hh.
    apply (play_owns tmp s2); [|exact Hplay].
    eapply (rendered_owns tmp s1 s2 [_; _]); [exact Hdel|exact Hself|exact Hh|].
    repeat constructor; discriminate.
Qed.

Lemma exec_owns (c : call) (s : state) : owns s -> owns (state_of (exec env c s)).
Proof.
  intros Hs. destruct c as [path|path n|path e d n| | |pid rc]; simpl exec.
  - apply (play_owns path s); [exact Hs|apply play_outcome_spec].
  - rewrite play_pitched_unfold. destruct (n =? 0)%Z.
    + apply (play_owns path s); [exact Hs|apply play_outcome_spec].
    + eapply render_owns; [exact Hs|apply render_outcome_spec].
  - rewrite play_with_edits_unfold. destruct (String.eqb _ _).
    + apply (play_owns path s); [exact Hs|apply play_outcome_spec].
    + eapply render_owns; [exact Hs|apply render_outcome_spec].
  - destruct (stop_outcome env s) as [(s1 & -> & Hst)|(s' & -> & Hi)]; simpl.
    + now apply (stopped_owns s).
    + now apply (interrupted_owns s).
  - unfold cleanup.
    destruct (stop_outcome env s) as [(s1 & -> & Hst)|(s' & -> & Hi)]; simpl.
    + now apply (stopped_owns s).
    + now apply (interrupted_owns s).
  - unfold bind, gets, happen, ret. destruct (exited (os s) pid); [exact Hs|]. simpl.
    destruct Hs as [Htmp Hdel]. split; simpl.
    + eapply Forall_impl; [exact Htmp|]. intros f. apply created_cons.
    + split; [discriminate|exact Hdel].
Qed.

Lemma run_owns (cs : list call) (s : state) : owns s -> owns (run env cs s).
Proof.
  revert s. induction cs as [|c cs IH]; intros s Hs; [exact Hs|].
  simpl. apply IH. now apply exec_owns.
Qed.

(** X11: the player deletes only files it has created.  In every sequence
    of calls on a new player, whatever the world it starts in and however
    the environment answers, each deletion of a file comes after the
    creation of that file by the player in the same run, and so does each
    registration of a temporary file. *)
Theorem deletes_only_own_files (o : OS) (cs : list call) :
  let s := run env cs (fresh o) in
  (forall new f o' old,
     history s = new ++ (Unlinked f, o') :: old ->
     exists o'', (Created f, o'') ∈ old)
  /\ (forall f, f ∈ _temp_files (self s) -> exists o'', (Created f, o'') ∈ history s).
Proof.
  intros s.
  assert (Hs : owns s).
  { apply run_owns. split; [constructor|exact I]. }
  destruct Hs as [Htmp Hdel]. split.
  - intros new f o' old Hh. rewrite Hh in Hdel.
    apply (deletes_own_split new old _ Hdel f). reflexivity.
  - intros f Hf. eapply Forall_forall in Htmp; [exact Htmp|exact Hf].
Qed.
End PlayerFiles.

(** ** Stored edits *)

Lemma kwargs_lookup (data : gmap string value) (k : string) :
  k ∈ known ->
  filter (fun kv : string * value => kv.1 ∈ known) data !! k = data !! k.
Proof.
  intros Hk. destruct (data !! k) as [v|] eqn:E.
  - apply map_lookup_filter_Some. split; [exact E|exact Hk].
  - apply map_lookup_filter_None. left. exact E.
Qed.

Lemma known_fields :
  "attack_ms" ∈ known /\ "release_ms" ∈ known /\ "gain_db" ∈ known
  /\ "normalize" ∈ known /\ "hp_freq" ∈ known /\ "lp_freq" ∈ known
  /\ "reverse" ∈ known /\ "trim_start_ms" ∈ known /\ "trim_end_ms" ∈ known.
Proof.
  unfold known. rewrite !elem_of_list_to_set, !elem_of_cons. tauto.
Qed.

Lemma to_dict_dom (e : SampleEdits) : dom (to_dict e) = known.
Proof. unfold to_dict, known. rewrite dom_list_to_map_L. reflexivity. Qed.

Lemma from_dict_extra (e : SampleEdits) (extra : gmap string value) :
  (forall k, k ∈ known -> extra !! k = None) ->
  from_dict (to_dict e ∪ extra) = Some e.
Proof.
  intros Hextra.
  destruct known_fields as (K1 & K2 & K3 & K4 & K5 & K6 & K7 & K8 & K9).
  assert (Hl : forall k, k ∈ known ->
            filter (fun kv : string * value => kv.1 ∈ known) (to_dict e ∪ extra) !! k
            = to_dict e !! k).
  { intros k Hk. rewrite kwargs_lookup by exact Hk.
    rewrite lookup_union, (Hextra k Hk). now destruct (to_dict e !! k). }
  unfold from_dict, num_field, integer_field, boolean_field. cbv zeta.
  rewrite !Hl by assumption.
  destruct e. reflexivity.
Qed.

Lemma from_dict_to_dict (e : SampleEdits) : from_dict (to_dict e) = Some e.
Proof.
  rewrite <- (right_id_L ∅ (∪) (to_dict e)).
  apply from_dict_extra. intros k _. apply lookup_empty.
Qed.

Lemma to_dict_nonempty (e : SampleEdits) : to_dict e <> ∅.
Proof.
  intros E. assert (H : to_dict e !! "attack_ms" = None) by (rewrite E; apply lookup_empty).
  discriminate.
Qed.

Lemma SampleEdits_eq_refl (e : SampleEdits) : SampleEdits_eq e e = true.
Proof.
  unfold SampleEdits_eq.
  rewrite !andb_true_iff, !Qeq_bool_iff, !Z.eqb_eq, !Bool.eqb_true_iff.
  repeat split; reflexivity.
Qed.

(** X12: the dictionary of a [SampleEdits] and back.  [to_dict] has
    exactly the nine field names as keys, and [from_dict] gives the edits
    back from it, also when the dictionary has gained keys that are not
    field names; from the empty dictionary it gives the default edits. *)
Theorem edits_dict_round_trip (e : SampleEdits) (extra : gmap string value) :
  (forall k, k ∈ known -> extra !! k = None) ->
  dom (to_dict e) = known
  /\ from_dict (to_dict e ∪ extra) = Some e
  /\ from_dict extra = Some SampleEdits_new.
Proof.
  intros Hextra. split; [apply to_dict_dom|]. split; [now apply from_dict_extra|].
  destruct known_fields as (K1 & K2 & K3 & K4 & K5 & K6 & K7 & K8 & K9).
  unfold from_dict, num_field, integer_field, boolean_field. cbv zeta.
  rewrite !kwargs_lookup by assumption.
  rewrite !Hextra by assumption. reflexivity.
Qed.

(** Edits with a gain of 3 dB, and a dictionary with the foreign key
    [comment]. *)
Lemma edits_dict_round_trip_witness :
  let e := {| attack_ms := 0; release_ms := 0; gain_db := 3; normalize := false;
              hp_freq := 20; lp_freq := 20000; reverse := false;
              trim_start_ms := 0; trim_end_ms := 0 |} in
  let extra : gmap string value := {[ "comment" := integer 1 ]} in
  dom (to_dict e) = known
  /\ from_dict (to_dict e ∪ extra) = Some e
  /\ from_dict extra = Some SampleEdits_new.
Proof.
  intros e extra. apply (edits_dict_round_trip e extra).
  intros k Hk. apply lookup_singleton_None. intros <-.
  unfold known in Hk. rewrite elem_of_list_to_set, !elem_of_cons in Hk.
  repeat (destruct Hk as [Hk|Hk]; [discriminate|]).
  apply elem_of_nil in Hk. exact Hk.
Defined.

Lemma get_set_edits (s : Session) (i : string) (e : SampleEdits) :
  exists e',
    get_edits (set_edits s i e) i = Some e'
    /\ SampleEdits_eq e e' = true
    /\ (is_default e = false -> e' = e).
Proof.
  unfold set_edits, get_edits.
  destruct (is_default e) eqn:Ed; simpl.
  - exists SampleEdits_new. rewrite lookup_delete_eq.
    split; [reflexivity|]. split; [exact Ed|discriminate].
  - exists e. rewrite lookup_insert_eq.
    rewrite decide_False by apply to_dict_nonempty.
    split; [apply from_dict_to_dict|]. split; [apply SampleEdits_eq_refl|reflexivity].
Qed.

Lemma set_edits_frame (s : Session) (i j : string) (e : SampleEdits) :
  j <> i ->
  edits (set_edits s i e) !! j = edits s !! j
  /\ get_edits (set_edits s i e) j = get_edits s j.
Proof.
  intros Hj. unfold set_edits, get_edits.
  destruct (is_default e); simpl.
  - rewrite lookup_delete_ne by congruence. split; reflexivity.
  - rewrite lookup_insert_ne by congruence. split; reflexivity.
Qed.

(** X13: edits stored in a session are read back.  After
    [set_edits(instrument, e)], [get_edits(instrument)] returns edits
    equal ([==]) to [e]: [e] itself when it is not default, and new default
    edits when it is, for then the entry of the instrument is removed.  The
    edits of the other instruments, the selections and the volumes are not
    changed. *)
Theorem session_edits_round_trip (s : Session) (i : string) (e : SampleEdits) :
  (exists e',
     get_edits (set_edits s i e) i = Some e'
     /\ SampleEdits_eq e e' = true
     /\ (is_default e = false -> e' = e))
  /\ (is_default e = true -> edits (set_edits s i e) !! i = None)
  /\ (forall j, j <> i -> edits (set_edits s i e) !! j = edits s !! j
                          /\ get_edits (set_edits s i e) j = get_edits s j)
  /\ selections (set_edits s i e) = selections s
  /\ mix_volumes (set_edits s i e) = mix_volumes s.
Proof.
  split; [apply get_set_edits|].
  split.
  { intros Ed. unfold set_edits. rewrite Ed. simpl. apply lookup_delete_eq. }
  split; [intros j Hj; now apply set_edits_frame|].
  unfold set_edits. destruct (is_default e); split; reflexivity.
Qed.

(** ** Labels and bars *)

Lemma py_round_floor (x : Q) : Qfloor x <= py_round x <= Qfloor x + 1.
Proof.
  unfold py_round. cbv zeta.
  destruct (Qltb _ _); [lia|]. destruct (Qltb _ _); [lia|].
  destruct (Z.even _); lia.
Qed.

Lemma py_round_Z (n : Z) : py_round (inject_Z n) = n.
Proof.
  unfold py_round. cbv zeta. rewrite Qfloor_Z.
  assert (E : (inject_Z n - inject_Z n == 0)%Q) by ring.
  assert (Hlt : Qltb (inject_Z n - inject_Z n) (1 # 2) = true).
  { apply Qltb_lt. rewrite E. reflexivity. }
  now rewrite Hlt.
Qed.

Lemma py_round_mono (x y : Q) : (x <= y)%Q -> py_round x <= py_round y.
Proof.
  intros Hxy. pose proof (Qfloor_resp_le _ _ Hxy) as Hf.
  pose proof (py_round_floor x) as Hx. pose proof (py_round_floor y) as Hy.
  destruct (Z.eq_dec (Qfloor x) (Qfloor y)) as [E|Hne]; [|lia].
  unfold py_round. cbv zeta. rewrite E.
  assert (Hr : (x - inject_Z (Qfloor y) <= y - inject_Z (Qfloor y))%Q) by lra.
  destruct (Qltb (x - inject_Z (Qfloor y)) (1 # 2)) eqn:X1.
  - destruct (Qltb (y - _) (1 # 2)); [lia|].
    destruct (Qltb (1 # 2) (y - _)); [lia|]. destruct (Z.even _); lia.
  - apply Qltb_ge in X1.
    assert (Y1 : Qltb (y - inject_Z (Qfloor y)) (1 # 2) = false).
    { apply Qltb_ge. lra. }
    rewrite Y1.
    destruct (Qltb (1 # 2) (x - inject_Z (Qfloor y))) eqn:X2.
    + apply Qltb_lt in X2.
      assert (Y2 : Qltb (1 # 2) (y - inject_Z (Qfloor y)) = true).
      { apply Qltb_lt. lra. }
      rewrite Y2. lia.
    + destruct (Qltb (1 # 2) (y - inject_Z (Qfloor y))); [destruct (Z.even _); lia|].
      lia.
Qed.

Lemma py_round_range (x : Q) (lo hi : Z) :
  (inject_Z lo <= x <= inject_Z hi)%Q -> lo <= py_round x <= hi.
Proof.
  intros [Hlo Hhi]. apply py_round_mono in Hlo, Hhi.
  rewrite py_round_Z in Hlo, Hhi. lia.
Qed.

Lemma py_round_eq (x : Q) (n : Z) : (x == inject_Z n)%Q -> py_round x = n.
Proof.
  intros E. apply Z.le_antisymm.
  - rewrite <- (py_round_Z n). apply py_round_mono. rewrite E. apply Qle_refl.
  - rewrite <- (py_round_Z n) at 1. apply py_round_mono. rewrite E. apply Qle_refl.
Qed.

Lemma clamp_unit (r : Q) :
  (0 <= py_max 0 (py_min 1 r) <= 1)%Q
  /\ ((r <= 0)%Q -> (py_max 0 (py_min 1 r) == 0)%Q)
  /\ ((1 <= r)%Q -> (py_max 0 (py_min 1 r) == 1)%Q).
Proof.
  unfold py_max, py_min.
  destruct (Qltb r 1) eqn:E1.
  - apply Qltb_lt in E1. destruct (Qltb 0 r) eqn:E2.
    + apply Qltb_lt in E2. repeat split; intros; lra.
    + apply Qltb_ge in E2. repeat split; intros; lra.
  - apply Qltb_ge in E1.
    assert (E2 : Qltb 0 1 = true) by reflexivity. rewrite E2.
    repeat split; intros; lra.
Qed.

Lemma clamp_unit_mono (r r' : Q) :
  (r <= r')%Q -> (py_max 0 (py_min 1 r) <= py_max 0 (py_min 1 r'))%Q.
Proof.
  intros Hr. unfold py_max, py_min.
  destruct (Qltb r 1) eqn:E1; destruct (Qltb r' 1) eqn:E1';
    try apply Qltb_lt in E1; try apply Qltb_ge in E1;
    try apply Qltb_lt in E1'; try apply Qltb_ge in E1'.
  - destruct (Qltb 0 r) eqn:E2; destruct (Qltb 0 r') eqn:E2';
      try apply Qltb_lt in E2; try apply Qltb_ge in E2;
      try apply Qltb_lt in E2'; try apply Qltb_ge in E2'; lra.
  - assert (E2' : Qltb 0 1 = true) by reflexivity. rewrite E2'.
    destruct (Qltb 0 r) eqn:E2;
      try apply Qltb_lt in E2; try apply Qltb_ge in E2; lra.
  - lra.
  - apply Qle_refl.
Qed.

Lemma ratio_mono (a b d : Q) : (0 < d)%Q -> (a <= b)%Q -> (a / d <= b / d)%Q.
Proof.
  intros Hd Hab. unfold Qdiv. apply Qmult_le_compat_r; [exact Hab|].
  apply Qinv_le_0_compat. lra.
Qed.

Lemma bar_of_filled (filled : Z) :
  0 <= filled <= 10 ->
  str_times 0x2588%N filled ++ str_times 0x2591%N (10 - filled)
  = bar 10 (Z.to_nat filled).
Proof.
  intros Hf. unfold str_times, bar. f_equal. f_equal. lia.
Qed.

Lemma length_bar (width filled : nat) :
  (filled <= width)%nat -> length (bar width filled) = width.
Proof. intros Hf. unfold bar. rewrite length_app, !length_replicate. lia. Qed.

(** The ratio [_render_slider] rounds. *)
Lemma slider_ratio_facts (value vmin vmax : Q) :
  let ratio := if Qltb vmin vmax then ((value - vmin) / (vmax - vmin))%Q else 0%Q in
  ((value <= vmin)%Q \/ (vmax <= vmin)%Q -> (ratio <= 0)%Q)
  /\ ((vmin < vmax)%Q -> (vmax <= value)%Q -> (1 <= ratio)%Q).
Proof.
  cbv zeta. destruct (Qltb vmin vmax) eqn:E.
  - apply Qltb_lt in E. split.
    + intros [Hv|Hv]; [|lra].
      apply Qle_shift_div_r; lra.
    + intros _ Hv. apply Qle_shift_div_l; lra.
  - apply Qltb_ge in E. split; [intros _; apply Qle_refl|]. intros Hlt. lra.
Qed.

(** X14: the slider bar of the editor.  The bar has always 10 characters,
    full blocks followed by light shades; it has no full block when the
    value is at or below the minimum or when the range is empty (nothing
    is divided by zero), only full blocks when the value is at or above
    the maximum, and a larger value never has fewer full blocks. *)
Theorem slider_bar (value value' vmin vmax : Q) :
  (value <= value')%Q ->
  exists n n' : nat,
    (n <= n' <= 10)%nat
    /\ _render_slider value vmin vmax = bar 10 n
    /\ _render_slider value' vmin vmax = bar 10 n'
    /\ length (_render_slider value vmin vmax) = 10%nat
    /\ ((value' <= vmin)%Q \/ (vmax <= vmin)%Q -> n' = 0%nat)
    /\ ((vmin < vmax)%Q -> (vmax <= value)%Q -> n = 10%nat).
Proof.
  intros Hv. unfold _render_slider. cbv zeta. change BAR_WIDTH with 10.
  set (ratio := fun v : Q =>
         if Qltb vmin vmax then ((v - vmin) / (vmax - vmin))%Q else 0%Q).
  change (if Qltb vmin vmax then ((value - vmin) / (vmax - vmin))%Q else 0%Q)
    with (ratio value).
  change (if Qltb vmin vmax then ((value' - vmin) / (vmax - vmin))%Q else 0%Q)
    with (ratio value').
  set (c := fun v => py_max 0 (py_min 1 (ratio v))).
  change (py_max 0 (py_min 1 (ratio value))) with (c value).
  change (py_max 0 (py_min 1 (ratio value'))) with (c value').
  assert (Hratio : (ratio value <= ratio value')%Q).
  { unfold ratio. destruct (Qltb vmin vmax) eqn:E; [|apply Qle_refl].
    apply Qltb_lt in E. apply ratio_mono; lra. }
  assert (Hc : (c value <= c value')%Q) by now apply clamp_unit_mono.
  destruct (clamp_unit (ratio value)) as ([H0 H1] & Hlow & Hhigh).
  destruct (clamp_unit (ratio value')) as ([H0' H1'] & Hlow' & Hhigh').
  fold (c value) in H0, H1, Hlow, Hhigh. fold (c value') in H0', H1', Hlow', Hhigh'.
  assert (Hf : 0 <= py_round (c value * inject_Z 10) <= 10).
  { apply py_round_range. change (inject_Z 0) with 0%Q. change (inject_Z 10) with 10%Q.
    lra. }
  assert (Hf' : 0 <= py_round (c value' * inject_Z 10) <= 10).
  { apply py_round_range. change (inject_Z 0) with 0%Q. change (inject_Z 10) with 10%Q.
    lra. }
  assert (Hm : py_round (c value * inject_Z 10) <= py_round (c value' * inject_Z 10)).
  { apply py_round_mono. change (inject_Z 10) with 10%Q. lra. }
  exists (Z.to_nat (py_round (c value * inject_Z 10))),
         (Z.to_nat (py_round (c value' * inject_Z 10))).
  split; [lia|]. split; [now apply bar_of_filled|]. split; [now apply bar_of_filled|].
  split; [rewrite bar_of_filled by exact Hf; apply length_bar; lia|].
  destruct (slider_ratio_facts value vmin vmax) as [_ Hr1].
  destruct (slider_ratio_facts value' vmin vmax) as [Hr0' _].
  cbv zeta in Hr1, Hr0'. fold (ratio value) in Hr1. fold (ratio value') in Hr0'.
  split.
  - intros Hcase. specialize (Hlow' (Hr0' Hcase)).
    rewrite (py_round_eq _ 0); [reflexivity|]. rewrite Hlow'. reflexivity.
  - intros Hlt Hge. specialize (Hhigh (Hr1 Hlt Hge)).
    rewrite (py_round_eq _ 10); [reflexivity|]. rewrite Hhigh. reflexivity.
Qed.

(** An attack of 500 ms and of 1500 ms in the range from 0 to 2000 ms. *)
Lemma slider_bar_witness :
  exists n n' : nat,
    (n <= n' <= 10)%nat
    /\ _render_slider 500 0 2000 = bar 10 n
    /\ _render_slider 1500 0 2000 = bar 10 n'
    /\ length (_render_slider 500 0 2000) = 10%nat
    /\ ((1500 <= 0)%Q \/ (2000 <= 0)%Q -> n' = 0%nat)
    /\ ((0 < 2000)%Q -> (2000 <= 500)%Q -> n = 10%nat).
Proof.
  apply (slider_bar 500 1500 0 2000). discriminate.
Defined.


(** X15: the volume bar of the mixer.  For every volume, also outside the
    range from -24 dB to 12 dB, the bar has 10 characters, full blocks
    followed by light shades; it has no full block at -24 dB and below,
    only full blocks at 12 dB and above, and a larger volume never has
    fewer full blocks. *)
Theorem vol_bar (db db' : Q) :
  (db <= db')%Q ->
  exists n n' : nat,
    (n <= n' <= 10)%nat
    /\ _vol_bar db = bar 10 n
    /\ _vol_bar db' = bar 10 n'
    /\ length (_vol_bar db) = 10%nat
    /\ ((db' <= inject_Z VOL_MIN)%Q -> n' = 0%nat)
    /\ ((inject_Z VOL_MAX <= db)%Q -> n = 10%nat).
Proof.
  intros Hdb. unfold _vol_bar. cbv zeta.
  change VOL_BAR_WIDTH with 10. change (inject_Z (VOL_MAX - VOL_MIN)) with 36%Q.
  change (inject_Z VOL_MIN) with (-24)%Q. change (inject_Z VOL_MAX) with 12%Q.
  change (inject_Z 10) with 10%Q.
  set (r := fun x : Q => py_round ((x - -24) / 36 * 10)).
  change (py_round ((db - -24) / 36 * 10)) with (r db).
  change (py_round ((db' - -24) / 36 * 10)) with (r db').
  assert (Hmono : forall x y : Q, (x <= y)%Q -> r x <= r y).
  { intros x y Hxy. apply py_round_mono.
    apply Qmult_le_compat_r; [|discriminate].
    apply ratio_mono; [reflexivity|lra]. }
  assert (Hlow : r (-24)%Q = 0) by (apply (py_round_eq _ 0); reflexivity).
  assert (Hhigh : r 12%Q = 10) by (apply (py_round_eq _ 10); reflexivity).
  pose proof (Hmono db db' Hdb) as Hm.
  exists (Z.to_nat (Z.max 0 (Z.min 10 (r db)))), (Z.to_nat (Z.max 0 (Z.min 10 (r db')))).
  split; [lia|].
  split; [apply bar_of_filled; lia|]. split; [apply bar_of_filled; lia|].
  split; [rewrite bar_of_filled by lia; apply length_bar; lia|].
  split.
  - intros Hle. pose proof (Hmono db' (-24)%Q Hle). lia.
  - intros Hge. pose proof (Hmono 12%Q db Hge). lia.
Qed.

(** The volumes -3 dB and 0 dB. *)
Lemma vol_bar_witness :
  exists n n' : nat,
    (n <= n' <= 10)%nat
    /\ _vol_bar (-3) = bar 10 n
    /\ _vol_bar 0 = bar 10 n'
    /\ length (_vol_bar (-3)) = 10%nat
    /\ ((0 <= inject_Z VOL_MIN)%Q -> n' = 0%nat)
    /\ ((inject_Z VOL_MAX <= -3)%Q -> n = 10%nat).
Proof.
  apply (vol_bar (-3) 0). discriminate.
Defined.

(** X16: pitch labels.  For every number of semitones, also a negative
    one, [pitch_label] returns a label and does not fail: the name of the
    note [semitones mod 12] followed by the octave
    [base_octave + semitones div 12] (rounded down).  Twelve semitones up
    give the same note one octave higher. *)
Theorem pitch_label_octaves (semitones base_octave : Z) :
  (exists name,
     PITCH_NAMES !! Z.to_nat (semitones mod 12) = Some name
     /\ pitch_label semitones base_octave
        = Some (name ++ pretty (base_octave + semitones / 12))%string)
  /\ semitones = 12 * (semitones / 12) + semitones mod 12
  /\ 0 <= semitones mod 12 < 12
  /\ pitch_label (semitones + 12) base_octave
     = pitch_label semitones (base_octave + 1).
Proof.
  pose proof (Z.mod_pos_bound semitones 12 ltac:(lia)) as Hm.
  split; [|split; [apply Z.div_mod; lia|split; [exact Hm|]]].
  - unfold pitch_label, py_index. cbv zeta.
    destruct (Z.ltb_spec (semitones mod 12) 0) as [?|_]; [lia|].
    destruct (lookup_lt_is_Some_2 PITCH_NAMES (Z.to_nat (semitones mod 12)))
      as [name Hname]; [simpl; lia|].
    exists name. split; [exact Hname|]. now rewrite Hname.
  - unfold pitch_label. cbv zeta.
    replace ((semitones + 12) mod 12) with (semitones mod 12)
      by (rewrite <- (Z.mul_1_l 12) at 2; now rewrite Z.mod_add by lia).
    replace ((semitones + 12) / 12) with (semitones / 12 + 1)
      by (rewrite <- (Z.mul_1_l 12) at 2; now rewrite Z.div_add by lia).
    replace (base_octave + 1 + semitones / 12) with (base_octave + (semitones / 12 + 1)) by lia.
    reflexivity.
Qed.

Lemma string_app_empty_r (a : string) : (a ++ "")%string = a.
Proof.
  induction a as [|x a IH]; [reflexivity|].
  change (String x (a ++ "") = String x a)%string. now rewrite IH.
Qed.

Lemma prompt_fallback (instrument genre : string) :
  instrument ∉ ALL_INSTRUMENTS ->
  get_prompt_for_instrument instrument genre = (instrument ++ " " ++ genre)%string.
Proof.
  intros Hnot. unfold get_prompt_for_instrument. cbv zeta.
  rewrite (not_elem_of_list_to_map_1 _ instrument).
  - rewrite (not_elem_of_list_to_map_1 _ instrument); [reflexivity|].
    intros Hin. apply Hnot. simpl in Hin. rewrite !elem_of_cons in Hin.
    unfold ALL_INSTRUMENTS, DRUM_INSTRUMENTS, PITCHED_INSTRUMENTS, TEXTURE_INSTRUMENTS.
    simpl. rewrite !elem_of_cons. tauto.
  - intros Hin. apply Hnot. simpl in Hin. rewrite !elem_of_cons in Hin.
    unfold ALL_INSTRUMENTS, DRUM_INSTRUMENTS, PITCHED_INSTRUMENTS, TEXTURE_INSTRUMENTS.
    simpl. rewrite !elem_of_cons. tauto.
Qed.

(** X17: a default prompt for every instrument.  The prompt is a text
    before the genre, the genre and a text after it, and the text before
    is not empty, so that no prompt is empty.  Each of the 18 instruments
    of [ALL_INSTRUMENTS] has texts of its own; any other instrument gets
    its name, a space and the genre. *)
Theorem prompt_for_every_instrument (instrument : string) :
  exists before after,
    (forall genre,
       get_prompt_for_instrument instrument genre = (before ++ genre ++ after)%string)
    /\ before <> ""
    /\ (instrument ∈ ALL_INSTRUMENTS ->
        (before, after) <> ((instrument ++ " ")%string, ""))
    /\ (instrument ∉ ALL_INSTRUMENTS ->
        before = (instrument ++ " ")%string /\ after = "").
Proof.
  destruct (decide (instrument ∈ ALL_INSTRUMENTS)) as [Hin|Hnot].
  - unfold ALL_INSTRUMENTS, DRUM_INSTRUMENTS, PITCHED_INSTRUMENTS,
      TEXTURE_INSTRUMENTS in Hin. simpl in Hin. rewrite !elem_of_cons in Hin.
    repeat (destruct Hin as [->|Hin];
      [first [ eexists _, _; split; [intros genre; reflexivity|]
             | eexists _, ""; split;
               [intros genre; rewrite string_app_empty_r; reflexivity|] ];
       split; [discriminate|];
       split; [intros _ E; vm_compute in E; discriminate E|];
       intros Hno; exfalso; apply Hno;
       apply str_in_spec; reflexivity|]).
    apply elem_of_nil in Hin. contradiction.
  - exists (instrument ++ " ")%string, "". split.
    + intros genre. rewrite prompt_fallback by exact Hnot.
      now rewrite string_app_empty_r, string_app_assoc.
    + split; [|split; [contradiction|tauto]].
      destruct instrument; discriminate.
Qed.

(** ** Mixer *)

Lemma py_index_in_range {A} (l : list A) (i : Z) :
  0 <= i < Z.of_nat (length l) ->
  exists x, py_index l i = Some x /\ x ∈ l.
Proof.
  intros Hi. unfold py_index. destruct (Z.ltb_spec i 0) as [?|_]; [lia|].
  destruct (lookup_lt_is_Some_2 l (Z.to_nat i)) as [x Hx]; [lia|].
  exists x. split; [exact Hx|]. eapply list_elem_of_lookup_2. exact Hx.
Qed.

Lemma clamp_vol_range (v : Q) :
  in_vol_range (py_max (inject_Z VOL_MIN) (py_min (inject_Z VOL_MAX) v)).
Proof.
  unfold in_vol_range, py_max, py_min.
  change (inject_Z VOL_MIN) with (-24)%Q. change (inject_Z VOL_MAX) with 12%Q.
  destruct (Qltb v 12) eqn:E1.
  - apply Qltb_lt in E1. destruct (Qltb (-24) v) eqn:E2.
    + apply Qltb_lt in E2. lra.
    + lra.
  - assert (E2 : Qltb (-24) 12 = true) by reflexivity. rewrite E2. lra.
Qed.

Lemma fst_pairs {A B} (f : A -> B) (l : list A) :
  (map (fun x => (x, f x)) l).*1 = l.
Proof.
  induction l as [|x l IH]; [reflexivity|].
  change ((x, f x).1 :: (map (fun x => (x, f x)) l).*1 = x :: l). now rewrite IH.
Qed.

Lemma on_mount_inv (session : Session) :
  mixer_inv (_instruments (on_mount session))
    (forall k v, mix_volumes session !! k = Some v -> in_vol_range v)
    (on_mount session).
Proof.
  unfold mixer_inv, on_mount. cbv zeta.
  cbn [_instruments _current_row _volumes].
  set (insts := List.filter _ ALL_INSTRUMENTS).
  split; [reflexivity|]. split; [lia|]. split.
  { intros Hne. destruct insts; [congruence|]. simpl. lia. }
  split.
  { rewrite dom_list_to_map_L, fst_pairs. reflexivity. }
  intros Hr k v Hk. apply elem_of_list_to_map_2 in Hk.
  rewrite map_fmap in Hk. apply list_elem_of_fmap in Hk as (inst & [= -> ->] & _).
  unfold get_or_0. destruct (mix_volumes session !! inst) as [v|] eqn:E; simpl.
  - now apply (Hr inst).
  - unfold in_vol_range. split; discriminate.
Qed.

Lemma set_volume_inv (insts : list string) (ranged : Prop) (self : MixerScreen)
    (inst : string) (v : Q) :
  mixer_inv insts ranged self -> inst ∈ insts -> in_vol_range v ->
  mixer_inv insts ranged
    {| _current_row := _current_row self; _instruments := _instruments self;
       _volumes := <[inst := v]> (_volumes self) |}.
Proof.
  intros (Hi & H0 & Hlt & Hdom & Hr) Hin Hv. unfold mixer_inv. simpl.
  split; [exact Hi|]. split; [exact H0|]. split; [exact Hlt|]. split.
  - rewrite dom_insert_L, Hdom.
    apply subseteq_union_1_L, singleton_subseteq_l, elem_of_list_to_set. exact Hin.
  - intros Hranged k w Hk. destruct (decide (k = inst)) as [->|Hne].
    + rewrite lookup_insert_eq in Hk. now injection Hk as <-.
    + rewrite lookup_insert_ne in Hk by congruence. now apply (Hr Hranged k).
Qed.

Lemma run_action_inv (insts : list string) (ranged : Prop) (a : mixer_action)
    (self : MixerScreen) (session : Session) :
  mixer_inv insts ranged self ->
  exists self' session',
    run_action a self session = Some (self', session')
    /\ mixer_inv insts ranged self'
    /\ selections session' = selections session
    /\ edits session' = edits session.
Proof.
  intros Hinv. pose proof Hinv as (Hi & H0 & Hlt & Hdom & Hr).
  assert (Hidx : insts <> [] ->
            exists inst, py_index (_instruments self) (_current_row self) = Some inst
                         /\ inst ∈ insts).
  { intros Hne. rewrite Hi. apply py_index_in_range. split; [exact H0|now apply Hlt]. }
  assert (Hempty : length (_instruments self) <> 0%nat -> insts <> []).
  { rewrite Hi. intros E ->. now apply E. }
  assert (Hvol : forall delta,
            exists self' session',
              _adjust_volume delta self session = Some (self', session')
              /\ mixer_inv insts ranged self'
              /\ selections session' = selections session
              /\ edits session' = edits session).
  { intros delta. unfold _adjust_volume.
    destruct (Nat.eqb (length (_instruments self)) 0) eqn:E.
    - exists self, session. auto.
    - apply Nat.eqb_neq in E.
      destruct (Hidx (Hempty E)) as (inst & -> & Hin). simpl.
      eexists _, _. split; [reflexivity|]. split; [|split; reflexivity].
      apply set_volume_inv; [exact Hinv|exact Hin|apply clamp_vol_range]. }
  destruct a; simpl; try apply Hvol.
  - exists (action_move_up self), session. split; [reflexivity|].
    split; [|split; reflexivity]. unfold action_move_up.
    destruct (negb _ && _) eqn:E; [|exact Hinv].
    apply andb_true_iff in E as [_ E]. apply Z.ltb_lt in E.
    unfold mixer_inv. simpl.
    split; [exact Hi|]. split; [lia|]. split; [|split; [exact Hdom|exact Hr]].
    intros Hne. specialize (Hlt Hne). lia.
  - exists (action_move_down self), session. split; [reflexivity|].
    split; [|split; reflexivity]. unfold action_move_down.
    destruct (negb _ && _) eqn:E; [|exact Hinv].
    apply andb_true_iff in E as [_ E]. apply Z.ltb_lt in E. rewrite Hi in E.
    unfold mixer_inv. simpl.
    split; [exact Hi|]. split; [lia|]. split; [|split; [exact Hdom|exact Hr]].
    intros _. lia.
  - unfold action_vol_reset.
    destruct (Nat.eqb (length (_instruments self)) 0) eqn:E.
    + exists self, session. auto.
    + apply Nat.eqb_neq in E.
      destruct (Hidx (Hempty E)) as (inst & -> & Hin). simpl.
      eexists _, _. split; [reflexivity|]. split; [|split; reflexivity].
      apply set_volume_inv; [exact Hinv|exact Hin|]. split; discriminate.
Qed.

Lemma run_actions_inv (insts : list string) (ranged : Prop) (l : list mixer_action)
    (self : MixerScreen) (session : Session) :
  mixer_inv insts ranged self ->
  exists self' session',
    run_actions l self session = Some (self', session')
    /\ mixer_inv insts ranged self'
    /\ selections session' = selections session
    /\ edits session' = edits session.
Proof.
  revert self session. induction l as [|a l IH]; intros self session Hinv.
  - exists self, session. auto.
  - destruct (run_action_inv insts ranged a self session Hinv)
      as (self1 & session1 & Ha & Hinv1 & Hsel1 & Hed1).
    destruct (IH self1 session1 Hinv1) as (self' & session' & Hl & Hinv' & Hsel & Hed).
    exists self', session'. simpl. rewrite Ha. simpl.
    split; [exact Hl|]. split; [exact Hinv'|]. split; congruence.
Qed.

(** X18: the actions of the mixer are safe.  From the state in which the
    screen is mounted, every sequence of the actions move up, move down,
    volume up and down (fine and coarse) and reset runs without
    [IndexError]; the instruments stay the selected ones, the row stays
    on one of them, the volumes are those of the instruments, and when the
    volumes of the session were within -24 dB and 12 dB, so is every
    volume of the screen.  The selections and the edits of the session are
    not changed. *)
Theorem mixer_actions_safe (session : Session) (l : list mixer_action) :
  exists self' session',
    run_actions l (on_mount session) session = Some (self', session')
    /\ _instruments self' = List.filter (has_selection (selections session)) ALL_INSTRUMENTS
    /\ 0 <= _current_row self'
    /\ (_instruments self' <> [] ->
        _current_row self' < Z.of_nat (length (_instruments self')))
    /\ dom (_volumes self') = list_to_set (_instruments self')
    /\ ((forall k v, mix_volumes session !! k = Some v -> in_vol_range v) ->
        forall k v, _volumes self' !! k = Some v -> in_vol_range v)
    /\ selections session' = selections session
    /\ edits session' = edits session.
Proof.
  destruct (run_actions_inv _ _ l (on_mount session) session (on_mount_inv session))
    as (self' & session' & Hrun & (Hi & H0 & Hlt & Hdom & Hr) & Hsel & Hed).
  exists self', session'. rewrite Hi.
  split; [exact Hrun|]. split; [reflexivity|]. split; [exact H0|].
  split; [exact Hlt|]. split; [exact Hdom|]. split; [exact Hr|].
  split; [exact Hsel|exact Hed].
Qed.


Lemma nonzero_lookup (m : gmap string Q) (k : string) :
  (get_or_0 (filter (fun kv : string * Q => Qeq_bool kv.2 0 = false) m) k
   == get_or_0 m k)%Q.
Proof.
  unfold get_or_0. destruct (m !! k) as [v|] eqn:E.
  - destruct (Qeq_bool v 0) eqn:Ez.
    + rewrite (proj2 (map_lookup_filter_None _ m k)).
      * simpl. apply Qeq_bool_iff in Ez. now rewrite Ez.
      * right. intros w Hw. rewrite E in Hw. injection Hw as <-. simpl. congruence.
    + rewrite (proj2 (map_lookup_filter_Some _ m k v)); [reflexivity|].
      split; [exact E|exact Ez].
  - rewrite (proj2 (map_lookup_filter_None _ m k)); [reflexivity|]. now left.
Qed.

Lemma nonzero_idempotent (m : gmap string Q) :
  filter (fun kv : string * Q => Qeq_bool kv.2 0 = false)
    (filter (fun kv : string * Q => Qeq_bool kv.2 0 = false) m)
  = filter (fun kv : string * Q => Qeq_bool kv.2 0 = false) m.
Proof.
  apply map_eq. intros k. apply option_eq. intros v.
  rewrite !map_lookup_filter_Some. tauto.
Qed.

(** X19: the volumes of the mixer persist.  [_save_volumes] stores in the
    session the volumes that are not 0 and nothing else, so that reading a
    volume from the session with the default 0 gives the volume of the
    screen; a screen mounted on the saved session has the same
    instruments, each with the volume it had; and the configuration the
    application writes for a render holds exactly the saved volumes as
    track gains, and none when every volume is 0. *)
Theorem mixer_volumes_persist (self : MixerScreen) (session : Session) :
  let session' := _save_volumes self session in
  (forall inst v, mix_volumes session' !! inst = Some v <->
                  _volumes self !! inst = Some v /\ ~ (v == 0)%Q)
  /\ (forall inst, (get_or_0 (mix_volumes session') inst
                    == get_or_0 (_volumes self) inst)%Q)
  /\ _instruments (on_mount session') = _instruments (on_mount session)
  /\ (forall inst, inst ∈ _instruments (on_mount session') ->
        exists v, _volumes (on_mount session') !! inst = Some v
                  /\ (v == get_or_0 (_volumes self) inst)%Q)
  /\ _write_mix_config session' =
       (if decide (mix_volumes session' = ∅) then None
        else Some {| tracks := mix_volumes session'; master := 0 |}).
Proof.
  intros session'. split; [|split; [|split; [|split]]].
  - intros inst v. unfold session', _save_volumes. cbn [mix_volumes].
    rewrite map_lookup_filter_Some. cbn [snd]. rewrite <- Qeq_bool_iff.
    destruct (Qeq_bool v 0); intuition congruence.
  - intros inst. apply nonzero_lookup.
  - reflexivity.
  - intros inst Hin. exists (get_or_0 (mix_volumes session') inst).
    split; [|apply nonzero_lookup].
    unfold on_mount in *. cbv zeta in *. cbn [_instruments _volumes] in *.
    apply elem_of_list_to_map_1.
    + rewrite fst_pairs.
      apply NoDup_ListNoDup, List.NoDup_filter.
      repeat (constructor; [simpl; intuition discriminate|]). constructor.
    + rewrite map_fmap. apply list_elem_of_fmap. exists inst.
      split; [reflexivity|exact Hin].
  - unfold _write_mix_config. cbv zeta. cbn [tracks].
    unfold session', _save_volumes. cbn [mix_volumes]. rewrite nonzero_idempotent.
    destruct (decide (filter _ (_volumes self) = ∅)) as [E|E]; reflexivity.
Qed.

(** ** Sample editor *)

Lemma exists_some {A} (a : A) (P : A -> Prop) :
  (exists v, Some a = Some v /\ P v) <-> P a.
Proof.
  split; [intros (v & [= <-] & Hv); exact Hv|]. intros Ha. exists a. auto.
Qed.

Lemma in_ranges_fields (e : SampleEdits) :
  in_ranges e <->
  (0 <= attack_ms e <= 2000)%Q /\ (0 <= release_ms e <= 2000)%Q
  /\ (-24 <= gain_db e <= 12)%Q /\ 20 <= hp_freq e <= 5000
  /\ 200 <= lp_freq e <= 20000
  /\ (0 <= trim_start_ms e <= 10000)%Q /\ (0 <= trim_end_ms e <= 10000)%Q.
Proof.
  unfold in_ranges, EDITOR_PARAMS. rewrite !Forall_cons, Forall_nil.
  unfold getattr. simpl. rewrite !exists_some. simpl.
  change (inject_Z 0) with 0%Q. change (inject_Z 2000) with 2000%Q.
  change (inject_Z (-24)) with (-24)%Q. change (inject_Z 12) with 12%Q.
  change (inject_Z 10000) with 10000%Q. tauto.
Qed.

Lemma clamp_range (lo hi : Z) (x : Q) :
  lo <= hi ->
  (inject_Z lo <= py_max (inject_Z lo) (py_min (inject_Z hi) x) <= inject_Z hi)%Q.
Proof.
  intros Hle. rewrite Zle_Qle in Hle. unfold py_max, py_min.
  destruct (Qltb x (inject_Z hi)) eqn:E1.
  - apply Qltb_lt in E1. destruct (Qltb (inject_Z lo) x) eqn:E2.
    + apply Qltb_lt in E2. lra.
    + lra.
  - destruct (Qltb (inject_Z lo) (inject_Z hi)) eqn:E2.
    + lra.
    + lra.
Qed.

Lemma param_idx_cases (i : Z) :
  0 <= i < Z.of_nat (length EDITOR_PARAMS) ->
  i = 0 \/ i = 1 \/ i = 2 \/ i = 3 \/ i = 4 \/ i = 5 \/ i = 6.
Proof. simpl. lia. Qed.

Lemma in_ranges_set (e : SampleEdits) :
  in_ranges e ->
  (forall x, (0 <= x <= 2000)%Q -> in_ranges (set_attack_ms e x))
  /\ (forall x, (0 <= x <= 2000)%Q -> in_ranges (set_release_ms e x))
  /\ (forall x, (-24 <= x <= 12)%Q -> in_ranges (set_gain_db e x))
  /\ (forall n, 20 <= n <= 5000 -> in_ranges (set_hp_freq e n))
  /\ (forall n, 200 <= n <= 20000 -> in_ranges (set_lp_freq e n))
  /\ (forall x, (0 <= x <= 10000)%Q -> in_ranges (set_trim_start_ms e x))
  /\ (forall x, (0 <= x <= 10000)%Q -> in_ranges (set_trim_end_ms e x))
  /\ (forall b, in_ranges (set_normalize e b))
  /\ (forall b, in_ranges (set_reverse e b)).
Proof.
  rewrite in_ranges_fields. intros (Ha & Hr & Hg & Hhp & Hlp & Hts & Hte).
  repeat split; intros v; try intros Hv; apply in_ranges_fields; simpl;
    repeat split; solve [apply Ha | apply Hr | apply Hg | apply Hhp | apply Hlp
                        | apply Hts | apply Hte | apply Hv].
Qed.

Ltac adjust_case set_lemma bounds :=
  unfold _adjust_param; cbn -[Z.max Z.min Z.add Z.mul py_max py_min inject_Z];
  destruct (str_contains "shift" _), (str_contains "right" _);
  (eexists; split; [reflexivity|]);
  intros Hin; apply (set_lemma _ Hin);
  cbn [vmin vmax fine_step coarse_step]; bounds.

Lemma adjust_param_spec (key : string) (self : SoundDesignScreen) (session : Session) :
  0 <= _editor_param_idx self < Z.of_nat (length EDITOR_PARAMS) ->
  exists e,
    _adjust_param key self session
    = Some (with_edits self e, set_edits session (_current_instrument self) e)
    /\ (in_ranges (_current_edits self) -> in_ranges e).
Proof.
  intros Hidx. apply param_idx_cases in Hidx.
  destruct self as [inst mode idx e]. simpl in Hidx.
  destruct Hidx as [->|[->|[->|[->|[->|[->| ->]]]]]].
  - adjust_case (fun e H => proj1 (in_ranges_set e H))
      ltac:(apply (clamp_range 0 2000); lia).
  - adjust_case (fun e H => proj1 (proj2 (in_ranges_set e H)))
      ltac:(apply (clamp_range 0 2000); lia).
  - adjust_case (fun e H => proj1 (proj2 (proj2 (in_ranges_set e H))))
      ltac:(apply (clamp_range (-24) 12); lia).
  - adjust_case (fun e H => proj1 (proj2 (proj2 (proj2 (in_ranges_set e H)))))
      ltac:(lia).
  - adjust_case (fun e H => proj1 (proj2 (proj2 (proj2 (proj2 (in_ranges_set e H))))))
      ltac:(lia).
  - adjust_case
      (fun e H => proj1 (proj2 (proj2 (proj2 (proj2 (proj2 (in_ranges_set e H)))))))
      ltac:(apply (clamp_range 0 10000); lia).
  - adjust_case
      (fun e H => proj1 (proj2 (proj2 (proj2 (proj2 (proj2 (proj2
                    (in_ranges_set e H))))))))
      ltac:(apply (clamp_range 0 10000); lia).
Qed.


Lemma saved_in_sync (self : SoundDesignScreen) (session : Session) (e : SampleEdits) :
  in_sync (with_edits self e) (set_edits session (_current_instrument self) e).
Proof.
  destruct (get_set_edits session (_current_instrument self) e) as (e' & Hget & Heq & _).
  exists e'. split; [exact Hget|exact Heq].
Qed.

Lemma on_key_inv (R : Prop) (i0 : string) (session0 : Session) (focused_input : bool)
    (key : string) (self : SoundDesignScreen) (session : Session) :
  0 <= _editor_param_idx self < Z.of_nat (length EDITOR_PARAMS) ->
  _current_instrument self = i0 ->
  in_sync self session ->
  (R -> in_ranges (_current_edits self)) ->
  (forall j, j <> i0 -> edits session !! j = edits session0 !! j) ->
  exists self' session',
    on_key focused_input key self session = Some (self', session')
    /\ 0 <= _editor_param_idx self' < Z.of_nat (length EDITOR_PARAMS)
    /\ _current_instrument self' = i0
    /\ in_sync self' session'
    /\ (R -> in_ranges (_current_edits self'))
    /\ (forall j, j <> i0 -> edits session' !! j = edits session0 !! j).
Proof.
  intros Hidx Hinst Hsync Hr Hframe.
  assert (Hsame : exists self' session',
            Some (self, session) = Some (self', session')
            /\ 0 <= _editor_param_idx self' < Z.of_nat (length EDITOR_PARAMS)
            /\ _current_instrument self' = i0
            /\ in_sync self' session'
            /\ (R -> in_ranges (_current_edits self'))
            /\ (forall j, j <> i0 -> edits session' !! j = edits session0 !! j)).
  { exists self, session. auto 10. }
  assert (Hsaved : forall e,
            (R -> in_ranges e) ->
            exists self' session',
              Some (with_edits self e, _save_edits (with_edits self e) session)
              = Some (self', session')
              /\ 0 <= _editor_param_idx self' < Z.of_nat (length EDITOR_PARAMS)
              /\ _current_instrument self' = i0
              /\ in_sync self' session'
              /\ (R -> in_ranges (_current_edits self'))
              /\ (forall j, j <> i0 -> edits session' !! j = edits session0 !! j)).
  { intros e He. eexists _, _. split; [reflexivity|].
    split; [exact Hidx|]. split; [exact Hinst|].
    split; [exact (saved_in_sync self session e)|]. split; [exact He|].
    intros j Hj. unfold _save_edits. simpl.
    destruct (set_edits_frame session (_current_instrument self) j e) as [-> _];
      [congruence|]. now apply Hframe. }
  unfold on_key.
  destruct (negb (_editor_mode self)); [exact Hsame|].
  destruct focused_input; [exact Hsame|].
  destruct (String.eqb key "n").
  { apply Hsaved. intros HR. apply (in_ranges_set _ (Hr HR)). }
  destruct (String.eqb key "v").
  { apply Hsaved. intros HR. apply (in_ranges_set _ (Hr HR)). }
  destruct (String.eqb key "up").
  { eexists _, _. split; [reflexivity|]. simpl in *.
    split; [lia|]. split; [exact Hinst|]. split; [exact Hsync|]. split; assumption. }
  destruct (String.eqb key "down").
  { eexists _, _. split; [reflexivity|]. simpl in *.
    split; [lia|]. split; [exact Hinst|]. split; [exact Hsync|]. split; assumption. }
  destruct (str_in key _); [|exact Hsame].
  destruct (adjust_param_spec key self session Hidx) as (e & -> & He).
  apply (Hsaved e). intros HR. apply He, Hr, HR.
Qed.

(** X20: the keys of the sample editor are safe.  From the state in which
    the editor has loaded the edits of its instrument, every sequence of
    keys is handled without an exception; the selected parameter stays one
    of the seven of [EDITOR_PARAMS]; the session holds, for the
    instrument, edits equal to those on the screen; edits that were within
    the ranges of [EDITOR_PARAMS] stay within them; and the edits of the
    other instruments are not touched. *)
Theorem editor_keys_safe (session : Session) (self0 self : SoundDesignScreen)
    (keys : list (bool * string)) :
  _load_edits_for_instrument self0 session = Some self ->
  exists self' session',
    on_keys keys self session = Some (self', session')
    /\ 0 <= _editor_param_idx self' < Z.of_nat (length EDITOR_PARAMS)
    /\ _current_instrument self' = _current_instrument self0
    /\ in_sync self' session'
    /\ in_ranges SampleEdits_new
    /\ (in_ranges (_current_edits self) -> in_ranges (_current_edits self'))
    /\ (forall j, j <> _current_instrument self0 ->
          edits session' !! j = edits session !! j).
Proof.
  intros Hload.
  assert (Hdefault : in_ranges SampleEdits_new).
  { apply in_ranges_fields. simpl. repeat split; (discriminate || lia). }
  unfold _load_edits_for_instrument in Hload.
  destruct (get_edits session (_current_instrument self0)) as [e0|] eqn:Hget;
    [|discriminate].
  simpl in Hload. injection Hload as <-.
  set (self := {| _current_instrument := _current_instrument self0;
                  _editor_mode := _editor_mode self0;
                  _editor_param_idx := 0; _current_edits := e0 |}).
  assert (Hgen : forall keys s ses,
            0 <= _editor_param_idx s < Z.of_nat (length EDITOR_PARAMS) ->
            _current_instrument s = _current_instrument self0 ->
            in_sync s ses ->
            (in_ranges e0 -> in_ranges (_current_edits s)) ->
            (forall j, j <> _current_instrument self0 ->
               edits ses !! j = edits session !! j) ->
            exists self' session',
              on_keys keys s ses = Some (self', session')
              /\ 0 <= _editor_param_idx self' < Z.of_nat (length EDITOR_PARAMS)
              /\ _current_instrument self' = _current_instrument self0
              /\ in_sync self' session'
              /\ (in_ranges e0 -> in_ranges (_current_edits self'))
              /\ (forall j, j <> _current_instrument self0 ->
                    edits session' !! j = edits session !! j)).
  { clear keys. intros keys. induction keys as [|[focused key] keys IH];
      intros s ses Hidx Hinst Hsync Hr Hframe.
    - exists s, ses. auto 10.
    - destruct (on_key_inv (in_ranges e0) (_current_instrument self0) session
                  focused key s ses Hidx Hinst Hsync Hr Hframe)
        as (s1 & ses1 & Hk & Hidx1 & Hinst1 & Hsync1 & Hr1 & Hframe1).
      simpl. rewrite Hk. simpl. now apply IH. }
  destruct (Hgen keys self session) as (self' & session' & Hk & Hi & Hc & Hs & Hr & Hf).
  - simpl. lia.
  - reflexivity.
  - exists e0. split; [exact Hget|apply SampleEdits_eq_refl].
  - tauto.
  - reflexivity.
  - exists self', session'. auto 10.
Qed.

(** The editor opened on [kick] in a session without edits; the keys
    right, down, shift+right and n. *)
Lemma editor_keys_safe_witness :
  let session := {| selections := ∅; edits := ∅; mix_volumes := ∅ |} in
  let self := {| _current_instrument := "kick"; _editor_mode := true;
                 _editor_param_idx := 0; _current_edits := SampleEdits_new |} in
  exists self' session',
    on_keys [(false, "right"); (false, "down"); (false, "shift+right"); (false, "n")]
      self session = Some (self', session')
    /\ 0 <= _editor_param_idx self' < Z.of_nat (length EDITOR_PARAMS)
    /\ _current_instrument self' = "kick"
    /\ in_sync self' session'
    /\ in_ranges SampleEdits_new
    /\ (in_ranges (_current_edits self) -> in_ranges (_current_edits self'))
    /\ (forall j, j <> "kick" -> edits session' !! j = edits session !! j).
Proof.
  intros session self.
  apply (editor_keys_safe session
           {| _current_instrument := "kick"; _editor_mode := true;
              _editor_param_idx := 5; _current_edits := SampleEdits_new |}
           self).
  reflexivity.
Defined.

(** ** Progress lines of a render *)

Lemma byte_eqb_sym (a b : byte) : Byte.eqb a b = Byte.eqb b a.
Proof.
  destruct (Byte.eqb a b) eqn:E1, (Byte.eqb b a) eqn:E2; try reflexivity.
  - apply Byte.byte_dec_bl in E1. subst. rewrite (Byte.byte_dec_lb eq_refl) in E2.
    discriminate.
  - apply Byte.byte_dec_bl in E2. subst. rewrite (Byte.byte_dec_lb eq_refl) in E1.
    discriminate.
Qed.

Lemma byte_in_sep (buf : list byte) :
  byte_in x0d buf || byte_in x0a buf = existsb is_sep buf.
Proof.
  unfold byte_in. induction buf as [|b buf IH]; [reflexivity|].
  simpl. rewrite <- IH. unfold is_sep.
  rewrite (byte_eqb_sym x0d b), (byte_eqb_sym x0a b).
  destruct (Byte.eqb b x0d), (Byte.eqb b x0a), (existsb _ buf); reflexivity.
Qed.

Lemma find_ge (c : byte) (buf : list byte) : -1 <= find c buf.
Proof.
  induction buf as [|b buf IH]; simpl; [lia|].
  destruct (Byte.eqb b c); [lia|]. destruct (Z.eqb_spec (find c buf) (-1)); lia.
Qed.

Lemma find_none (c : byte) (buf : list byte) :
  find c buf = -1 <-> byte_in c buf = false.
Proof.
  unfold byte_in. induction buf as [|b buf IH]; simpl; [tauto|].
  rewrite (byte_eqb_sym c b). destruct (Byte.eqb b c); simpl.
  - split; [lia|discriminate].
  - pose proof (find_ge c buf).
    destruct (Z.eqb_spec (find c buf) (-1)) as [E|E].
    + split; [intros _; now apply IH|reflexivity].
    + split; [lia|]. intros H'. apply IH in H'. contradiction.
Qed.

(** The position the loop computes is that of the first separator. *)
Lemma first_separator (buf : list byte) :
  existsb is_sep buf = true ->
  let r_pos := find x0d buf in
  let n_pos := find x0a buf in
  let pos := if (r_pos =? -1)%Z then n_pos
             else if (n_pos =? -1)%Z then r_pos else Z.min r_pos n_pos in
  exists pre b post,
    buf = pre ++ b :: post
    /\ existsb is_sep pre = false
    /\ is_sep b = true
    /\ pos = Z.of_nat (length pre).
Proof.
  induction buf as [|b0 buf IH]; [discriminate|].
  intros Hsep. cbv zeta.
  destruct (is_sep b0) eqn:Eb.
  - exists [], b0, buf. split; [reflexivity|]. split; [reflexivity|].
    split; [exact Eb|].
    simpl find. unfold is_sep in Eb.
    pose proof (find_ge x0d buf). pose proof (find_ge x0a buf).
    destruct (Byte.eqb b0 x0d), (Byte.eqb b0 x0a); try discriminate; simpl;
      repeat match goal with
             | |- context [(?a =? ?b)%Z] => destruct (Z.eqb_spec a b)
             end; lia.
  - simpl in Hsep. rewrite Eb in Hsep. simpl in Hsep.
    destruct (IH Hsep) as (pre & b & post & -> & Hpre & Hb & Hpos).
    exists (b0 :: pre), b, post. split; [reflexivity|].
    split; [simpl; now rewrite Eb|]. split; [exact Hb|].
    cbv zeta in Hpos. simpl find. unfold is_sep in Eb.
    apply orb_false_iff in Eb as [-> ->].
    pose proof (find_ge x0d (pre ++ b :: post)).
    pose proof (find_ge x0a (pre ++ b :: post)).
    simpl length. rewrite Nat2Z.inj_succ, <- Hpos.
    repeat match goal with
           | |- context [(?a =? ?b)%Z] => destruct (Z.eqb_spec a b)
           end; lia.
Qed.


Section StreamFacts.
Variable text : list byte -> string.
Variable on_progress : bool.

Lemma lines_from_no_sep (acc buf : list byte) :
  existsb is_sep buf = false ->
  lines_from text on_progress acc buf = ([], acc ++ buf).
Proof.
  revert acc. induction buf as [|b buf IH]; intros acc Hno; simpl.
  - now rewrite app_nil_r.
  - simpl in Hno. apply orb_false_iff in Hno as [Hb Hbuf].
    rewrite Hb, (IH _ Hbuf), <- app_assoc. reflexivity.
Qed.

Lemma lines_from_acc (acc pre buf : list byte) :
  existsb is_sep pre = false ->
  lines_from text on_progress acc (pre ++ buf)
  = lines_from text on_progress (acc ++ pre) buf.
Proof.
  revert acc. induction pre as [|b pre IH]; intros acc Hno; simpl.
  - now rewrite app_nil_r.
  - simpl in Hno. apply orb_false_iff in Hno as [Hb Hpre].
    rewrite Hb, (IH _ Hpre), <- app_assoc. reflexivity.
Qed.

Lemma lines_from_app (acc a b : list byte) :
  lines_from text on_progress acc (a ++ b) =
    let (l1, r1) := lines_from text on_progress acc a in
    let (l2, r2) := lines_from text on_progress r1 b in
    (l1 ++ l2, r2).
Proof.
  revert acc. induction a as [|x a IH]; intros acc; simpl.
  - now destruct (lines_from text on_progress acc b).
  - destruct (is_sep x).
    + rewrite IH. destruct (lines_from text on_progress [] a) as [l1 r1].
      destruct (lines_from text on_progress r1 b) as [l2 r2].
      now rewrite app_assoc.
    + apply IH.
Qed.

Lemma lines_from_left (acc buf : list byte) :
  existsb is_sep acc = false ->
  existsb is_sep (lines_from text on_progress acc buf).2 = false.
Proof.
  revert acc. induction buf as [|b buf IH]; intros acc Hacc; simpl; [exact Hacc|].
  destruct (is_sep b) eqn:Eb.
  - specialize (IH [] eq_refl).
    destruct (lines_from text on_progress [] buf). exact IH.
  - apply IH. rewrite existsb_app, Hacc. simpl. now rewrite Eb.
Qed.

Lemma split_lines_spec (fuel : nat) (buf : list byte) :
  (length buf <= fuel)%nat ->
  split_lines text on_progress fuel buf = lines_from text on_progress [] buf.
Proof.
  revert buf. induction fuel as [|fuel IH]; intros buf Hlen.
  - destruct buf; [reflexivity|simpl in Hlen; lia].
  - simpl split_lines. rewrite byte_in_sep.
    destruct (existsb is_sep buf) eqn:Hsep.
    + destruct (first_separator buf Hsep) as (pre & b & post & -> & Hpre & Hb & Hpos).
      cbv zeta in Hpos. rewrite Hpos.
      replace (Z.to_nat (Z.of_nat (length pre))) with (length pre) by lia.
      replace (Z.to_nat (Z.of_nat (length pre) + 1)) with (S (length pre)) by lia.
      rewrite take_app_length.
      rewrite drop_app_ge by lia.
      replace (S (length pre) - length pre)%nat with 1%nat by lia.
      change (drop 1 (b :: post)) with post.
      rewrite IH by (rewrite length_app in Hlen; simpl in Hlen; lia).
      rewrite (lines_from_acc [] pre (b :: post) Hpre). simpl. rewrite Hb.
      destruct (lines_from text on_progress [] post). reflexivity.
    + now rewrite lines_from_no_sep.
Qed.

Lemma read_loop_spec (chunks : list (list byte)) (buf : list byte) :
  Forall (fun c => c <> []) chunks ->
  existsb is_sep buf = false ->
  read_loop text on_progress chunks buf
  = lines_from text on_progress buf (concat chunks).
Proof.
  intros Hne. revert buf. induction Hne as [|c chunks Hc Hne IH]; intros buf Hbuf.
  - reflexivity.
  - simpl concat. rewrite lines_from_app. simpl read_loop.
    destruct c as [|x c]; [congruence|].
    rewrite split_lines_spec by lia.
    rewrite (lines_from_acc [] buf (x :: c) Hbuf). simpl app at 1.
    pose proof (lines_from_left buf (x :: c) Hbuf) as Hleft.
    destruct (lines_from text on_progress buf (x :: c)) as [l1 r1].
    simpl in Hleft. rewrite (IH r1 Hleft). reflexivity.
Qed.
End StreamFacts.

(** X21: the progress lines do not depend on the chunks.  However the
    output of the renderer is cut into non-empty chunks, [_read_stream]
    calls the callback with the same lines, in the same order, as for the
    whole output read in one chunk; and the buffer it flushes at the end
    holds no carriage return and no line feed, so that the inner loop has
    come to its end each time. *)
Theorem progress_lines_chunking (text : list byte -> string) (on_progress : bool)
    (chunks : list (list byte)) :
  Forall (fun c => c <> []) chunks ->
  _read_stream text on_progress chunks
  = _read_stream text on_progress [concat chunks]
  /\ byte_in x0d (read_loop text on_progress chunks []).2 = false
  /\ byte_in x0a (read_loop text on_progress chunks []).2 = false.
Proof.
  intros Hne.
  assert (Hone : read_loop text on_progress [concat chunks] []
                 = lines_from text on_progress [] (concat chunks)).
  { destruct (concat chunks) as [|x c] eqn:E; [reflexivity|].
    rewrite (read_loop_spec text on_progress [x :: c] []);
      [|repeat constructor; discriminate|reflexivity].
    simpl concat. now rewrite app_nil_r. }
  split.
  - unfold _read_stream. rewrite Hone, (read_loop_spec _ _ chunks [] Hne eq_refl).
    reflexivity.
  - rewrite (read_loop_spec _ _ chunks [] Hne eq_refl).
    pose proof (lines_from_left text on_progress [] (concat chunks) eq_refl) as Hleft.
    rewrite <- byte_in_sep in Hleft. apply orb_false_iff in Hleft. exact Hleft.
Qed.

(** The output [ab\rc\n] read in the chunks [ab], [\rc] and [\n]. *)
Lemma progress_lines_chunking_witness :
  _read_stream string_of_list_byte true [[x61; x62]; [x0d; x63]; [x0a]]
  = _read_stream string_of_list_byte true [concat [[x61; x62]; [x0d; x63]; [x0a]]]
  /\ byte_in x0d (read_loop string_of_list_byte true
                   [[x61; x62]; [x0d; x63]; [x0a]] []).2 = false
  /\ byte_in x0a (read_loop string_of_list_byte true
                   [[x61; x62]; [x0d; x63]; [x0a]] []).2 = false.
Proof.
  apply (progress_lines_chunking string_of_list_byte true
           [[x61; x62]; [x0d; x63]; [x0a]]).
  repeat constructor; discriminate.
Defined.

(** ** The edit mark *)

Lemma set_edits_stored (s : Session) (i : string) (e : SampleEdits) :
  (forall j d, edits s !! j = Some d ->
     exists e', d = to_dict e' /\ is_default e' = false) ->
  forall j d, edits (set_edits s i e) !! j = Some d ->
    exists e', d = to_dict e' /\ is_default e' = false.
Proof.
  intros Hs j d. unfold set_edits. destruct (is_default e) eqn:Ed; simpl.
  - destruct (decide (j = i)) as [->|Hne].
    + rewrite lookup_delete_eq. discriminate.
    + rewrite lookup_delete_ne by congruence. apply Hs.
  - destruct (decide (j = i)) as [->|Hne].
    + rewrite lookup_insert_eq. intros [= <-]. exists e. auto.
    + rewrite lookup_insert_ne by congruence. apply Hs.
Qed.

Lemma after_set_edits_stored (calls : list (string * SampleEdits)) (s : Session) :
  (forall j d, edits s !! j = Some d ->
     exists e', d = to_dict e' /\ is_default e' = false) ->
  forall j d, edits (after_set_edits calls s) !! j = Some d ->
    exists e', d = to_dict e' /\ is_default e' = false.
Proof.
  revert s. induction calls as [|[i e] calls IH]; intros s Hs; [exact Hs|].
  simpl. apply IH. now apply set_edits_stored.
Qed.

(** X22: the edit mark is exact.  In a session that started without edits
    and whose edits were stored by [set_edits], [get_edits] returns edits
    for every instrument, and an instrument is a key of [Session.edits],
    which is when the instrument list shows the mark [*], exactly when its
    edits are not default. *)
Theorem edit_mark_exact (calls : list (string * SampleEdits)) (inst : string) :
  let session := after_set_edits calls new_session in
  exists e,
    get_edits session inst = Some e
    /\ has_edits session inst = negb (is_default e).
Proof.
  intros session.
  assert (Hinv : forall j d, edits session !! j = Some d ->
            exists e', d = to_dict e' /\ is_default e' = false).
  { apply after_set_edits_stored. intros j d Hj. simpl in Hj.
    rewrite lookup_empty in Hj. discriminate. }
  unfold get_edits, has_edits.
  destruct (edits session !! inst) as [d|] eqn:E.
  - destruct (Hinv inst d E) as (e & -> & Hd).
    exists e. rewrite decide_False by apply to_dict_nonempty.
    split; [apply from_dict_to_dict|]. rewrite Hd.
    apply bool_decide_eq_true. eauto.
  - exists SampleEdits_new. split; [reflexivity|].
    apply bool_decide_eq_false. intros [d Hd]. discriminate.
Qed.
